(** * Seq2Single: depth-filtered, sequence-aggregated re-ranking

    A shallow embedding of the notebook [src/seq2single.ipynb] and the
    properties of its components.

    Numeric model.  The arrays the notebook loads (descriptors, depth maps,
    the global distance matrix) hold finite binary64 values; every such value
    is a rational, so input data is modelled in [Q] and all comparisons on it
    ([np.argmax], the depth filter, [np.argsort]) are executable and exact.
    Arithmetic is binary64 arithmetic: every product, sum, quotient and
    square root is the exact result rounded to the nearest binary64 value,
    ties to even, with subnormal numbers, overflow to an infinity and NaN
    ([Binary64]); sums run in the order of numpy's pairwise summation.
    The sign of a zero is not kept: no result of the notebook depends on it.
    Python exceptions are [None] in the error monad; the module-level arrays
    are threaded as explicit state.  Two-dimensional arrays are lists of
    rows of one length.  Printing and timing ([print], [time.time]) are left
    out. *)

From Stdlib Require Import List Arith ZArith QArith Qround Qabs Qpower.
From Stdlib Require Import Lia Lqa Bool Permutation Sorted.
From Stdlib Require String Ascii Decimal DecimalString DecimalNat.
Import ListNotations.

Close Scope Q_scope.
Close Scope Z_scope.
Open Scope nat_scope.

(* ================================================================== *)
(** ** Python / numpy primitives *)
(* ================================================================== *)

Module Np.

(** The [option] type is the error monad: [None] is a raised exception. *)
Definition obind {A B} (o : option A) (f : A -> option B) : option B :=
  match o with Some a => f a | None => None end.

Fixpoint omap {A B} (f : A -> option B) (l : list A) : option (list B) :=
  match l with
  | [] => Some []
  | a :: l' =>
      match f a with
      | Some b => match omap f l' with Some bs => Some (b :: bs) | None => None end
      | None => None
      end
  end.

(** Strict comparison of rationals, as a boolean. *)
Definition Qltb (x y : Q) : bool := negb (Qle_bool y x).

(** [a[i]] for a Python integer [i] on an axis of length [n]: negative
    indices count from the end, anything outside [-n, n) raises IndexError. *)
Definition py_index (n : nat) (i : Z) : option nat :=
  if (0 <=? i)%Z then
    if (i <? Z.of_nat n)%Z then Some (Z.to_nat i) else None
  else
    if (- Z.of_nat n <=? i)%Z then Some (Z.to_nat (Z.of_nat n + i)) else None.

Definition getitem {A} (l : list A) (i : Z) : option A :=
  obind (py_index (length l) i) (nth_error l).

(** [m[y, x]] on a two-dimensional array stored as a list of rows. *)
Definition getitem2 {A} (m : list (list A)) (y x : Z) : option A :=
  obind (getitem m y) (fun r => getitem r x).

(** [a[inds]] with an integer index array: one lookup per index. *)
Definition take {A} (l : list A) (inds : list nat) : option (list A) :=
  omap (nth_error l) inds.

(** [a.shape[1]] of a non-empty two-dimensional array. *)
Definition shape1 {A} (m : list (list A)) : nat :=
  match m with [] => 0 | r :: _ => length r end.

(** [a[:, c]]. *)
Definition column {A} (d : A) (m : list (list A)) (c : nat) : list A :=
  map (fun r => nth c r d) m.

(** [np.argwhere(mask)[:,0]] fused with the computation of the mask:
    the positions, in increasing order, at which [p] holds. *)
Fixpoint argwhere_from {A} (p : A -> bool) (i : nat) (l : list A) : list nat :=
  match l with
  | [] => []
  | a :: l' => if p a then i :: argwhere_from p (S i) l'
               else argwhere_from p (S i) l'
  end.

Definition argwhere {A} (p : A -> bool) (l : list A) : list nat :=
  argwhere_from p 0 l.

(** [np.argmax] of a one-dimensional array: the first position of the
    maximum; ValueError on an empty array. *)
Fixpoint argmax_from (best : Q) (bi i : nat) (l : list Q) : nat :=
  match l with
  | [] => bi
  | x :: l' => if Qltb best x then argmax_from x i (S i) l'
               else argmax_from best bi (S i) l'
  end.

Definition argmax (l : list Q) : option nat :=
  match l with
  | [] => None
  | x :: l' => Some (argmax_from x 0 1 l')
  end.

(** [np.argmax(t, axis=0)] of a [cells x channels] array: for every channel
    the cell of maximal response.  A zero-length first axis raises. *)
Definition argmax_axis0 (t : list (list Q)) : option (list nat) :=
  match t with
  | [] => None
  | _ => omap (fun c => argmax (column 0%Q t c)) (seq 0 (shape1 t))
  end.

(** [np.arange(lb, ub)]. *)
Definition arange (lb ub : Z) : list Z :=
  map (fun i => (lb + Z.of_nat i)%Z) (seq 0 (Z.to_nat (ub - lb))).

(** [np.unravel_index(f, (rows, cols))] in C order; ValueError out of range. *)
Definition unravel_index (f : nat) (shape : nat * nat) : option (nat * nat) :=
  let (rows, cols) := shape in
  if f <? rows * cols then Some (f / cols, f mod cols) else None.

End Np.

Import Np.

Notation "x <- e ;; k" := (obind e (fun x => k))
  (at level 61, e at next level, right associativity, only parsing).

(* ================================================================== *)
(** ** Binary64 arithmetic *)
(* ================================================================== *)

Module Binary64.

Definition pow2 (e : Z) : Q := Qpower 2 e.

(** [floor(log2 q)] of a positive rational. *)
Definition ilog2 (q : Q) : Z :=
  let e0 := (Z.log2 (Qnum q) - Z.log2 (Zpos (Qden q)))%Z in
  if Qle_bool (pow2 e0) q then e0 else (e0 - 1)%Z.

(** Rounding to the nearest integer, ties to the even one. *)
Definition round_half_even (x : Q) : Z :=
  let f := Qfloor x in
  match Qcompare (x - inject_Z f) (1 # 2) with
  | Lt => f
  | Gt => (f + 1)%Z
  | Eq => if Z.even f then f else (f + 1)%Z
  end.

(** The exponent of the last place of a nonzero value: 53 significant
    bits, and no exponent below that of the subnormal numbers. *)
Definition quantum (q : Q) : Z := Z.max (ilog2 (Qabs q) - 52) (-1074).

(** Rounding to the nearest binary64 value, with the exponent range not
    bounded above; the result is a reduced fraction. *)
Definition fl (q : Q) : Q :=
  let q' := Qred q in
  if Qeq_bool q' 0 then 0%Q
  else Qred (inject_Z (round_half_even (q' / pow2 (quantum q'))) *
             pow2 (quantum q')).

(** The correctly rounded square root of a rational. *)
Definition flsqrt (x : Q) : Q :=
  if Qle_bool x 0 then 0%Q
  else
    let E := (ilog2 x / 2 - 52)%Z in
    let y := (x / pow2 (2 * E))%Q in
    let f := Z.sqrt (Qfloor y) in
    let h := (inject_Z f + (1 # 2))%Q in
    let m := match Qcompare y (h * h) with
             | Lt => f
             | Gt => (f + 1)%Z
             | Eq => if Z.even f then f else (f + 1)%Z
             end in
    Qred (inject_Z m * pow2 E).

End Binary64.

Import Binary64.

(** A binary64 value: a finite one is the rational it denotes. *)
Inductive npfloat : Type :=
| NaN : npfloat
| PInf : npfloat
| NInf : npfloat
| Fin (x : Q) : npfloat.

(** The binary64 value of an exact result: overflow gives an infinity. *)
Definition rnd (q : Q) : npfloat :=
  let r := fl q in
  if Qle_bool (pow2 1024) (Qabs r)
  then (if Qle_bool 0 r then PInf else NInf)
  else Fin r.

(** The conversion of an integer to binary64. *)
Definition float_of_int (n : Z) : npfloat := rnd (inject_Z n).

Definition inf_of (positive : bool) : npfloat :=
  if positive then PInf else NInf.

Definition fneg (a : npfloat) : npfloat :=
  match a with
  | NaN => NaN
  | PInf => NInf
  | NInf => PInf
  | Fin x => Fin (Qred (- x))
  end.

Definition fmul (a b : npfloat) : npfloat :=
  match a, b with
  | NaN, _ | _, NaN => NaN
  | Fin x, Fin y => rnd (x * y)
  | Fin x, PInf | PInf, Fin x =>
      if Qeq_bool x 0 then NaN else inf_of (Qle_bool 0 x)
  | Fin x, NInf | NInf, Fin x =>
      if Qeq_bool x 0 then NaN else inf_of (negb (Qle_bool 0 x))
  | PInf, PInf | NInf, NInf => PInf
  | PInf, NInf | NInf, PInf => NInf
  end.

Definition fadd (a b : npfloat) : npfloat :=
  match a, b with
  | NaN, _ | _, NaN => NaN
  | Fin x, Fin y => rnd (x + y)
  | PInf, NInf | NInf, PInf => NaN
  | PInf, _ | _, PInf => PInf
  | NInf, _ | _, NInf => NInf
  end.

Definition fsub (a b : npfloat) : npfloat := fadd a (fneg b).

(** Division.  A zero divisor is the positive zero: in this program a
    divisor is a norm, a product of norms, a count or a grid size. *)
Definition fdiv (a b : npfloat) : npfloat :=
  match a, b with
  | NaN, _ | _, NaN => NaN
  | Fin x, Fin y =>
      if Qeq_bool y 0
      then (if Qeq_bool x 0 then NaN else inf_of (Qle_bool 0 x))
      else rnd (x / y)
  | Fin _, PInf | Fin _, NInf => Fin 0
  | PInf, Fin y => inf_of (Qle_bool 0 y)
  | NInf, Fin y => inf_of (negb (Qle_bool 0 y))
  | _, _ => NaN
  end.

Definition fsqrt (a : npfloat) : npfloat :=
  match a with
  | NaN | NInf => NaN
  | PInf => PInf
  | Fin x => if Qle_bool 0 x then Fin (flsqrt x) else NaN
  end.

(** [a <= b]; false as soon as one side is NaN. *)
Definition fleb (a b : npfloat) : bool :=
  match a, b with
  | NaN, _ | _, NaN => false
  | NInf, _ | _, PInf => true
  | Fin x, Fin y => Qle_bool x y
  | _, _ => false
  end.

(** [a < b]: false as soon as one side is NaN. *)
Definition fltb (a b : npfloat) : bool :=
  match a, b with
  | NaN, _ | _, NaN => false
  | _, _ => negb (fleb b a)
  end.

(** [np.minimum]: NaN wins. *)
Definition fmin (a b : npfloat) : npfloat :=
  match a, b with
  | NaN, _ | _, NaN => NaN
  | _, _ => if fleb a b then a else b
  end.

(** [a != v] for a finite [v]: true for NaN. *)
Definition fne (a : npfloat) (v : Q) : bool :=
  match a with
  | Fin x => negb (Qeq_bool x v)
  | _ => true
  end.

Definition is_nan (a : npfloat) : bool :=
  match a with NaN => true | _ => false end.

(** [x.astype(int)] to int64: truncation toward zero; a NaN, an infinity
    and a value outside the range of int64 give the least int64 (the
    result of the conversion instruction of x86-64). *)
Definition int64_min : Z := (- 2 ^ 63)%Z.

Definition astype_int (a : npfloat) : Z :=
  match a with
  | Fin q =>
      let t := Z.quot (Qnum q) (Zpos (Qden q)) in
      if ((int64_min <=? t) && (t <? 2 ^ 63))%Z then t else int64_min
  | _ => int64_min
  end.

(** [np.min] of a one-dimensional array; ValueError when it is empty. *)
Definition np_min (l : list npfloat) : option npfloat :=
  match l with
  | [] => None
  | x :: l' => Some (fold_left fmin l' x)
  end.

(** [np.min(m, axis=1)] of an array with [ncols] columns. *)
Definition np_min_axis1 (ncols : nat) (m : list (list npfloat))
  : option (list npfloat) :=
  if ncols =? 0 then None else omap np_min m.

(** [np.add.reduce] of a one-dimensional array: numpy's pairwise
    summation.  Fewer than 8 entries are added one after the other to 0;
    up to 128 entries are added in eight interleaved partial sums, which
    are then added in pairs, followed by the entries beyond the last
    multiple of 8; a longer array is split in two parts, the first of a
    length that is a multiple of 8. *)
Fixpoint zip_with {A B C} (f : A -> B -> C) (l1 : list A) (l2 : list B)
  : list C :=
  match l1, l2 with
  | a :: l1', b :: l2' => f a b :: zip_with f l1' l2'
  | _, _ => []
  end.

Fixpoint add_lanes (r l : list npfloat) (blocks : nat)
  : list npfloat * list npfloat :=
  match blocks with
  | 0 => (r, l)
  | S b => add_lanes (zip_with fadd r (firstn 8 l)) (skipn 8 l) b
  end.

Definition block_sum (l : list npfloat) : npfloat :=
  let n := length l in
  let (r, rest) := add_lanes (firstn 8 l) (skipn 8 l) ((n - n mod 8) / 8 - 1) in
  match r with
  | [r0; r1; r2; r3; r4; r5; r6; r7] =>
      fold_left fadd rest
                (fadd (fadd (fadd r0 r1) (fadd r2 r3))
                      (fadd (fadd r4 r5) (fadd r6 r7)))
  | _ => NaN
  end.

Fixpoint pairwise_sum (fuel : nat) (l : list npfloat) : npfloat :=
  let n := length l in
  if n <? 8 then fold_left fadd l (Fin 0)
  else if n <=? 128 then block_sum l
  else match fuel with
       | 0 => NaN
       | S fuel' =>
           let n2 := n / 2 - (n / 2) mod 8 in
           fadd (pairwise_sum fuel' (firstn n2 l))
                (pairwise_sum fuel' (skipn n2 l))
       end.

Definition np_sum (l : list npfloat) : npfloat := pairwise_sum (length l) l.

(** [np.mean]: the sum over the count; the empty array gives [0/0]. *)
Definition np_mean (l : list npfloat) : npfloat :=
  fdiv (np_sum l) (float_of_int (Z.of_nat (length l))).

(** [np.argmin] of a one-dimensional array: the first NaN if there is one,
    else the first position of the minimum; ValueError when empty. *)
Fixpoint argmin_from (best : npfloat) (bi i : nat) (l : list npfloat) : nat :=
  match l with
  | [] => bi
  | x :: l' =>
      if is_nan best then bi
      else if is_nan x || fltb x best then argmin_from x i (S i) l'
      else argmin_from best bi (S i) l'
  end.

Definition np_argmin (l : list npfloat) : option nat :=
  match l with
  | [] => None
  | x :: l' => Some (argmin_from x 0 1 l')
  end.

(* ================================================================== *)
(** ** Leaf components *)
(* ================================================================== *)

Abbreviation row := (list Q).
Abbreviation tensor := (list (list Q)).   (* [spatialCells, channels] *)
Abbreviation depthmap := (list (list Q)). (* [fullRows, fullCols] *)

(** [getKP2d]: [np.fliplr(mulFac_ * unravel(kpInds).T).astype(int)]; the
    two coordinates of a cell are converted to binary64, multiplied by the
    factors, and the products truncated. *)
Definition getKP2d (kpInds : list nat) (resShape_ : nat * nat)
           (mulFac_ : npfloat * npfloat) : option (list (Z * Z)) :=
  omap (fun f =>
          rc <- unravel_index f resShape_ ;;
          let scaled := (fmul (fst mulFac_) (float_of_int (Z.of_nat (fst rc))),
                         fmul (snd mulFac_) (float_of_int (Z.of_nat (snd rc)))) in
          let flipped := (snd scaled, fst scaled) in
          Some (astype_int (fst flipped), astype_int (snd flipped)))
       kpInds.

(** [getRefSeqInfo]: the clamped window of reference indices. *)
Definition getRefSeqInfo (refIdx maxIndVal seqLen : Z) : list Z :=
  let lb := Z.max (refIdx - seqLen / 2) 0 in
  let ub := Z.min (refIdx + - (- seqLen / 2)) maxIndVal in
  arange lb ub.

(** [filterKPs_depth]:
    [np.argwhere(np.multiply(kp_d<maxD, kp_d>minD))[:,0]]. *)
Definition filterKPs_depth (kp_d : list Q) (minD maxD : Q) : list nat :=
  argwhere (fun d => Qltb d maxD && Qltb minD d) kp_d.

(** [getKpDep]: depth of every keypoint, [depImg[kp2d[:,1], kp2d[:,0]]]. *)
Definition getKpDep (kpIndFlat : list nat) (depImg : depthmap)
           (resShape : nat * nat) (mulFac : npfloat * npfloat)
  : option (list Q) :=
  kp2d <- getKP2d kpIndFlat resShape mulFac ;;
  omap (fun xy => getitem2 depImg (snd xy) (fst xy)) kp2d.

(* ================================================================== *)
(** ** Cosine distance of corresponding rows *)
(* ================================================================== *)

(** The shape of two broadcast axes: equal lengths, or one of them 1. *)
Definition broadcast_shape (n1 n2 : nat) : option nat :=
  if n1 =? n2 then Some n1
  else if n1 =? 1 then Some n2
  else if n2 =? 1 then Some n1
  else None.

(** An axis of length [n], or of length 1 repeated [n] times. *)
Definition broadcast_to {A} (n : nat) (l : list A) : option (list A) :=
  if length l =? n then Some l
  else match l with
       | [a] => Some (repeat a n)
       | _ => None
       end.

(** [np.sum(a*b)] of two rows of one length. *)
Definition dotQ (a b : row) : npfloat :=
  np_sum (zip_with (fun x y => fmul (Fin x) (Fin y)) a b).

(** [np.linalg.norm] of a row: the square root of the sum of the
    squares. *)
Definition norm (a : row) : npfloat := fsqrt (dotQ a a).

(** The distance of two rows of one length. *)
Definition cosine_distance (a b : row) : npfloat :=
  fsub (Fin 1) (fdiv (dotQ a b) (fmul (norm a) (norm b))).

(** [get_cosine_corresponding_vectors]:
    [1 - np.sum(d1*d2,axis=1)/(norm(d1,axis=1)*norm(d2,axis=1))] of an array
    [d1] with rows of [w1] entries and an array [d2] with rows of [w2]
    entries.  The product broadcasts both axes and raises when it cannot;
    the norms are those of the rows as given. *)
Definition get_cosine_corresponding_vectors (w1 w2 : nat) (d1 d2 : list row)
  : option (list npfloat) :=
  n <- broadcast_shape (length d1) (length d2) ;;
  w <- broadcast_shape w1 w2 ;;
  r1 <- broadcast_to n d1 ;;
  r2 <- broadcast_to n d2 ;;
  omap (fun ab =>
          a <- broadcast_to w (fst ab) ;;
          b <- broadcast_to w (snd ab) ;;
          Some (fsub (Fin 1)
                     (fdiv (dotQ a b) (fmul (norm (fst ab)) (norm (snd ab))))))
       (combine r1 r2).

(* ================================================================== *)
(** ** Module-level state and the monad of the notebook's functions *)
(* ================================================================== *)

(** The arrays and scalars bound at module level.  [queryFiles] stands for
    the directory [queryPath_kpDense]: entry [i] is what
    [loadC5Tensor(queryPath_kpDense, i)] returns.  [scores] and
    [finalScores] are the two lists the driver cells build up; the loop
    temporaries ([i], [s], [pool]) are not kept. *)
Record Globals : Type := mkGlobals {
  imgDescRef : list row;
  imgDescQuery : list row;
  topMatches : list (list nat);      (* [topN, numQueryImgs] *)
  numRefImgs : nat;
  numQueryImgs : nat;
  denseFtRefAll : list tensor;
  numFmaps : nat;
  depImgRefAll : list depthmap;
  c5Shape : nat * nat;
  mulFac_dep2c5 : npfloat * npfloat;
  queryFiles : list tensor;
  seqL : Z;
  depT : Q;
  scores : list (list (list npfloat));
  finalScores : list (list npfloat)
}.

Definition set_scores (v : list (list (list npfloat))) (g : Globals) : Globals :=
  {| imgDescRef := imgDescRef g; imgDescQuery := imgDescQuery g;
     topMatches := topMatches g; numRefImgs := numRefImgs g;
     numQueryImgs := numQueryImgs g; denseFtRefAll := denseFtRefAll g;
     numFmaps := numFmaps g; depImgRefAll := depImgRefAll g;
     c5Shape := c5Shape g; mulFac_dep2c5 := mulFac_dep2c5 g;
     queryFiles := queryFiles g; seqL := seqL g; depT := depT g;
     scores := v; finalScores := finalScores g |}.

Definition set_finalScores (v : list (list npfloat)) (g : Globals) : Globals :=
  {| imgDescRef := imgDescRef g; imgDescQuery := imgDescQuery g;
     topMatches := topMatches g; numRefImgs := numRefImgs g;
     numQueryImgs := numQueryImgs g; denseFtRefAll := denseFtRefAll g;
     numFmaps := numFmaps g; depImgRefAll := depImgRefAll g;
     c5Shape := c5Shape g; mulFac_dep2c5 := mulFac_dep2c5 g;
     queryFiles := queryFiles g; seqL := seqL g; depT := depT g;
     scores := scores g; finalScores := v |}.

(** A computation reads and may write the globals, and may raise. *)
Definition M (A : Type) : Type := Globals -> option (A * Globals).

Definition ret {A} (a : A) : M A := fun g => Some (a, g).

Definition bind {A B} (m : M A) (f : A -> M B) : M B :=
  fun g => match m g with
           | Some (a, g') => f a g'
           | None => None
           end.

Definition gets {A} (f : Globals -> A) : M A := fun g => Some (f g, g).

Definition lift {A} (o : option A) : M A :=
  fun g => match o with Some a => Some (a, g) | None => None end.

(** An assignment to, or an in-place update of, a module-level variable. *)
Definition modify (f : Globals -> Globals) : M unit :=
  fun g => Some (tt, f g).

Notation "x <-- e ;;; k" := (bind e (fun x => k))
  (at level 61, e at next level, right associativity, only parsing).

(** [for x in l: out.append(f(x))]. *)
Fixpoint forM {A B} (l : list A) (f : A -> M B) : M (list B) :=
  match l with
  | [] => ret []
  | a :: l' =>
      b <-- f a ;;;
      bs <-- forM l' f ;;;
      ret (b :: bs)
  end.

(** [for x in l: f(x)]. *)
Fixpoint forM_ {A} (l : list A) (f : A -> M unit) : M unit :=
  match l with
  | [] => ret tt
  | a :: l' => _ <-- f a ;;; forM_ l' f
  end.

(** [for x in l: s = f(s, x)]. *)
Fixpoint foldM {A S} (f : S -> A -> M S) (l : list A) (s : S) : M S :=
  match l with
  | [] => ret s
  | a :: l' => s' <-- f s a ;;; foldM f l' s'
  end.

Definition enumerate {A} (l : list A) : list (nat * A) :=
  combine (seq 0 (length l)) l.

(* ================================================================== *)
(** ** The candidate re-ranker *)
(* ================================================================== *)

Abbreviation table := (list (list npfloat)). (* [channels, len(seqRange)] *)

(** [row[lc] = v]. *)
Fixpoint set_nth {A} (i : nat) (v : A) (l : list A) : list A :=
  match l, i with
  | [], _ => []
  | _ :: l', 0 => v :: l'
  | a :: l', S i' => a :: set_nth i' v l'
  end.

(** [distMat[inds, lc] = vals]: IndexError when a row index is out of
    range. *)
Fixpoint assign_col (distMat : table) (inds : list nat) (lc : nat)
         (vals : list npfloat) : option table :=
  match inds, vals with
  | [], [] => Some distMat
  | c :: inds', v :: vals' =>
      r <- nth_error distMat c ;;
      assign_col (set_nth c (set_nth lc v r) distMat) inds' lc vals'
  | _, _ => None
  end.

(** One turn of the loop over the window ([for lc,k1 in enumerate(seqRange)]).
    The reference tensor and depth map of frame [k1] are read from the
    globals; the only in-place write, [distMat[inRangeInds,lc] = dists],
    goes to the table that the call created, which is passed along as a
    local value. *)
Definition matchData_frame (denseDescQuery : tensor) (kp2IndFlat : list nat)
           (c5ShapeIn : nat * nat) (mulFac : npfloat * npfloat) (depThresh : Q)
           (distMat : table) (lck1 : nat * Z) : M table :=
  let lc := fst lck1 in
  let k1 := snd lck1 in
  denseDescRef <-- bind (gets denseFtRefAll) (fun a => lift (getitem a k1)) ;;;
  kp1IndFlatRef <-- lift (argmax_axis0 denseDescRef) ;;;
  depImg <-- bind (gets depImgRefAll) (fun a => lift (getitem a k1)) ;;;
  kp1_depth <-- lift (getKpDep kp1IndFlatRef depImg c5ShapeIn mulFac) ;;;
  let inRangeInds := filterKPs_depth kp1_depth 0%Q depThresh in
  descRefSubset <-- lift (i1 <- take kp1IndFlatRef inRangeInds ;;
                          take denseDescRef i1) ;;;
  descQuerySubset <-- lift (i2 <- take kp2IndFlat inRangeInds ;;
                            take denseDescQuery i2) ;;;
  dists <-- lift (get_cosine_corresponding_vectors
                    (shape1 denseDescRef) (shape1 denseDescQuery)
                    descRefSubset descQuerySubset) ;;;
  lift (assign_col distMat inRangeInds lc dists).

(** The distance table of one candidate, after the loop over its window. *)
Definition matchData_table (denseDescQuery : tensor) (kp2IndFlat : list nat)
           (c5ShapeIn : nat * nat) (mulFac : npfloat * npfloat) (depThresh : Q)
           (seqRange : list Z) : M table :=
  let distMat :=
    repeat (repeat (Fin 100) (length seqRange)) (shape1 denseDescQuery) in
  foldM (matchData_frame denseDescQuery kp2IndFlat c5ShapeIn mulFac depThresh)
        (enumerate seqRange) distMat.

(** [minDists] of one candidate: the table collapsed across the window. *)
Definition matchData_minDists (denseDescQuery : tensor) (kp2IndFlat : list nat)
           (c5ShapeIn : nat * nat) (mulFac : npfloat * npfloat) (depThresh : Q)
           (seqRange : list Z) : M (list npfloat) :=
  distMat <-- matchData_table denseDescQuery kp2IndFlat c5ShapeIn mulFac
                              depThresh seqRange ;;;
  lift (np_min_axis1 (length seqRange) distMat).

(** The body of [for rIdx in topMatchIndsList]: the score [meanDist]. *)
Definition matchData_candidate (denseDescQuery : tensor) (kp2IndFlat : list nat)
           (c5ShapeIn : nat * nat) (mulFac : npfloat * npfloat) (numRefImgs_ : nat)
           (seqLen : Z) (depThresh : Q) (rIdx : nat) : M npfloat :=
  let seqRange := getRefSeqInfo (Z.of_nat rIdx) (Z.of_nat numRefImgs_) seqLen in
  minDists <-- matchData_minDists denseDescQuery kp2IndFlat c5ShapeIn mulFac
                                  depThresh seqRange ;;;
  let validInds1 := argwhere (fun d => fne d 100) minDists in
  distVals <-- lift (take minDists validInds1) ;;;
  let meanDist := np_mean distVals in
  ret meanDist.

Definition matchData (denseDescQuery : tensor) (topMatchIndsList : list nat)
           (c5ShapeIn : nat * nat) (mulFac : npfloat * npfloat)
           (numRefImgs_ numFmaps_ : nat) (seqLen : Z) (depThresh : Q)
  : M (list npfloat) :=
  kp2IndFlat <-- lift (argmax_axis0 denseDescQuery) ;;;
  forM topMatchIndsList
       (matchData_candidate denseDescQuery kp2IndFlat c5ShapeIn mulFac
                            numRefImgs_ seqLen depThresh).

(* ================================================================== *)
(** ** Batch driver *)
(* ================================================================== *)

Fixpoint chunk (k n : nat) (l : list Q) : list (list Q) :=
  match k with
  | 0 => []
  | S k' => firstn n l :: chunk k' n (skipn n l)
  end.

(** [a.reshape([-1, n])]. *)
Definition reshape_rows (n : nat) (a : tensor) : option tensor :=
  let flat := concat a in
  if n =? 0 then None
  else if length flat mod n =? 0 then Some (chunk (length flat / n) n flat)
  else None.

Definition processQueryIndex (qIdx : nat) : M (list npfloat) :=
  topMatchIndsList <--
    bind (gets topMatches)
         (fun a => lift (omap (fun r => nth_error r qIdx) a)) ;;;
  denseFtQuery <-- bind (gets queryFiles) (fun a => lift (nth_error a qIdx)) ;;;
  nf <-- gets numFmaps ;;;
  denseDescQuery <-- lift (reshape_rows nf denseFtQuery) ;;;
  sh <-- gets c5Shape ;;;
  mf <-- gets mulFac_dep2c5 ;;;
  nr <-- gets numRefImgs ;;;
  sl <-- gets seqL ;;;
  dt <-- gets depT ;;;
  matchData denseDescQuery topMatchIndsList sh mf nr nf sl dt.

(** The cell of the sequential driver: [finalScores = []], then, unless
    [MULTITHREADING_ON], [for i in range(numQueryImgs)] with
    [finalScores.append(s)]. *)
Definition cell_sequential (MULTITHREADING_ON : bool) : M unit :=
  _ <-- modify (set_finalScores []) ;;;
  if negb MULTITHREADING_ON then
    n <-- gets numQueryImgs ;;;
    forM_ (seq 0 n)
          (fun i => s <-- processQueryIndex i ;;;
                    modify (fun g => set_finalScores (finalScores g ++ [s]) g))
  else ret tt.

(** [range(0, n, step)]; ValueError when [step] is zero. *)
Definition range_step (n step : nat) : option (list nat) :=
  if step =? 0 then None
  else Some (map (fun j => j * step) (seq 0 ((n + step - 1) / step))).

Fixpoint lookup_slot {B} (p : nat) (done : list (nat * B)) : option B :=
  match done with
  | [] => None
  | (p', b) :: done' => if p =? p' then Some b else lookup_slot p done'
  end.

(** [pool.map(f, tasks)]: the tasks complete in the order [order] (positions
    in [tasks]); each result goes to the slot of its task, and the slots are
    returned in task order.  A task is run as a whole: the worker threads
    share the module-level state, and a task that only reads it (as
    [processQueryIndex] does) is not affected by the steps of the others. *)
Definition pool_map {B} (f : nat -> M B) (tasks : list nat) (order : list nat)
  : M (list B) :=
  done <-- forM order
             (fun p => t <-- lift (nth_error tasks p) ;;;
                       b <-- f t ;;;
                       ret (p, b)) ;;;
  lift (omap (fun p => lookup_slot p done) (seq 0 (length tasks))).

(** [np.concatenate]: ValueError on an empty list of arrays. *)
Definition np_concatenate {A} (arrays : list (list A)) : option (list A) :=
  match arrays with
  | [] => None
  | _ => Some (concat arrays)
  end.

(** The cell of the parallel driver, with [numT] workers ([numT = 4] in
    the notebook); [sched i] is the completion order of the batch that
    starts at query [i]. *)
Definition cell_multithreading (MULTITHREADING_ON : bool) (numT : nat)
           (sched : nat -> list nat) : M unit :=
  if MULTITHREADING_ON then
    _ <-- modify (set_scores []) ;;;
    n <-- gets numQueryImgs ;;;
    starts <-- lift (range_step n numT) ;;;
    _ <-- forM_ starts
            (fun i => s <-- pool_map processQueryIndex
                                     (seq i (Nat.min (i + numT) n - i))
                                     (sched i) ;;;
                      modify (fun g => set_scores (scores g ++ [s]) g)) ;;;
    sc <-- gets scores ;;;
    fs <-- lift (np_concatenate sc) ;;;
    modify (set_finalScores fs)
  else ret tt.

(** The two driver cells, run one after the other as in the notebook. *)
Definition run_drivers (MULTITHREADING_ON : bool) (numT : nat)
           (sched : nat -> list nat) : M unit :=
  _ <-- cell_sequential MULTITHREADING_ON ;;;
  cell_multithreading MULTITHREADING_ON numT sched.

(** The list [finalScores] a computation leaves behind. *)
Definition finalScores_after (m : M unit) (g : Globals)
  : option (list (list npfloat)) :=
  match m g with
  | Some (_, g') => Some (finalScores g')
  | None => None
  end.

(* ================================================================== *)
(** ** Output stage *)
(* ================================================================== *)

(** [np.argmin(finalScores, axis=1)]: needs a non-empty rectangular array. *)
Definition np_argmin_axis1 (m : list (list npfloat)) : option (list nat) :=
  match m with
  | [] => None
  | r :: _ =>
      if forallb (fun r' => length r' =? length r) m
      then omap np_argmin m else None
  end.

(** [topMatches[np.argmin(finalScores,axis=1), np.arange(numQueryImgs)]].
    The two index arrays are paired position by position; they have one
    length in every run (one score row per query), and the model raises
    otherwise (numpy would first try to broadcast a length-1 array). *)
Definition bestMatch_of (topMatches_ : list (list nat))
           (finalScores : list (list npfloat)) (numQueryImgs_ : nat)
  : option (list nat) :=
  am <- np_argmin_axis1 finalScores ;;
  if length am =? numQueryImgs_
  then omap (fun pq => r <- nth_error topMatches_ (fst pq) ;;
                       nth_error r (snd pq))
            (combine am (seq 0 numQueryImgs_))
  else None.

(** [np.vstack([np.arange(len(b)), v]).transpose()]: rows [(i, v[i])]. *)
Definition index_table (n : nat) (v : list nat) : option (list (nat * nat)) :=
  if length v =? n then Some (combine (seq 0 n) v) else None.

(** The two tables written by [np.savetxt]. *)
Definition matchesOut (bestMatch : list nat) : option (list (nat * nat)) :=
  index_table (length bestMatch) bestMatch.

Definition matchesBaseline (topMatches_ : list (list nat)) (bestMatch : list nat)
  : option (list (nat * nat)) :=
  r0 <- nth_error topMatches_ 0 ;;
  index_table (length bestMatch) r0.

(* ================================================================== *)
(** ** Global retrieval *)
(* ================================================================== *)

(** [np.argsort] of a one-dimensional array, as a stable insertion sort of
    the positions.  numpy's default sort may order tied positions
    differently; what is proved below holds for every ordering
    that sorts the values ([is_argsort]). *)
Fixpoint insert_index (col : list Q) (i : nat) (sorted : list nat) : list nat :=
  match sorted with
  | [] => [i]
  | j :: rest =>
      if Qle_bool (nth i col 0%Q) (nth j col 0%Q) then i :: j :: rest
      else j :: insert_index col i rest
  end.

Definition argsort (col : list Q) : list nat :=
  fold_right (insert_index col) [] (seq 0 (length col)).

(** [np.argsort(distMat, axis=0)]: every column sorted on its own. *)
Definition argsort_axis0 (distMat : list (list Q)) : list (list nat) :=
  map (fun i => map (fun q => nth i (argsort (column 0%Q distMat q)) 0)
                    (seq 0 (shape1 distMat)))
      (seq 0 (length distMat)).

(** [np.argsort(distMat,axis=0)[:topN,:]]. *)
Definition topMatches_of (distMat : list (list Q)) (topN : nat)
  : list (list nat) :=
  firstn topN (argsort_axis0 distMat).

(* ================================================================== *)
(** ** Vocabulary of the specification *)
(* ================================================================== *)

(** The scale factor of one axis, as the notebook computes it once for
    [mulFac_dep2c5]: the binary64 quotient of the two sizes. *)
Definition axis_scale (full grid : nat) : npfloat :=
  fdiv (float_of_int (Z.of_nat full)) (float_of_int (Z.of_nat grid)).

(** The pixel coordinate that [getKP2d] computes for the grid coordinate
    [k] with the factor [s]. *)
Definition kp_coord (s : npfloat) (k : nat) : Z :=
  astype_int (fmul s (float_of_int (Z.of_nat k))).

Definition kp_x (gridCols : nat) (mulFac : npfloat * npfloat) (f : nat) : Z :=
  kp_coord (snd mulFac) (f mod gridCols).

Definition kp_y (gridCols : nat) (mulFac : npfloat * npfloat) (f : nat) : Z :=
  kp_coord (fst mulFac) (f / gridCols).

(** The scale factor and the pixel of a flat grid index as section 4.1 of
    the spec gives them: an exact quotient, an exact product, a floor. *)
Definition spec_scale (full grid : nat) : Q :=
  (inject_Z (Z.of_nat full) / inject_Z (Z.of_nat grid))%Q.

Definition pixel_x (gridCols : nat) (scaleCol : Q) (f : nat) : Z :=
  Qfloor (inject_Z (Z.of_nat (f mod gridCols)) * scaleCol).

Definition pixel_y (gridCols : nat) (scaleRow : Q) (f : nat) : Z :=
  Qfloor (inject_Z (Z.of_nat (f / gridCols)) * scaleRow).

(** The keypoint of channel [c] in a dense tensor: the spatial cell of
    maximal response. *)
Definition keypoint (t : tensor) (c : nat) : nat :=
  match argmax (column 0%Q t c) with Some i => i | None => 0 end.

(** Its descriptor: the tensor row at that cell. *)
Definition keypoint_descriptor (t : tensor) (c : nat) : row :=
  nth (keypoint t c) t [].

(** Its depth: the depth-map entry at the pixel the projector returns. *)
Definition keypoint_depth (gridCols : nat) (mulFac : npfloat * npfloat)
           (t : tensor) (depImg : depthmap) (c : nat) : Q :=
  let f := keypoint t c in
  nth (Z.to_nat (kp_x gridCols mulFac f))
      (nth (Z.to_nat (kp_y gridCols mulFac f)) depImg []) 0%Q.

Definition ref_frame (g : Globals) (k : Z) : tensor :=
  nth (Z.to_nat k) (denseFtRefAll g) [].

Definition ref_depth (g : Globals) (k : Z) : depthmap :=
  nth (Z.to_nat k) (depImgRefAll g) [].

(** Channel [c] passes the depth filter in reference frame [k]. *)
Definition passes (g : Globals) (gridCols : nat) (mulFac : npfloat * npfloat)
           (depThresh : Q) (k : Z) (c : nat) : bool :=
  let d := keypoint_depth gridCols mulFac (ref_frame g k) (ref_depth g k) c in
  Qltb d depThresh && Qltb 0 d.

(** Cosine distance between the reference keypoint of channel [c] in
    frame [k] and the query keypoint of the same channel. *)
Definition frame_distance (g : Globals) (q : tensor) (k : Z) (c : nat)
  : npfloat :=
  cosine_distance (keypoint_descriptor (ref_frame g k) c)
                  (keypoint_descriptor q c).

(** The minimum of a non-empty list; NaN stands for "no value". *)
Definition min_or_nan (l : list npfloat) : npfloat :=
  match np_min l with Some m => m | None => NaN end.

(** The channels that pass the filter in at least one frame of the window. *)
Definition valid_channels (g : Globals) (gridCols : nat)
           (mulFac : npfloat * npfloat)
           (depThresh : Q) (window : list Z) (C : nat) : list nat :=
  filter (fun c => existsb (fun k => passes g gridCols mulFac depThresh k c)
                           window)
         (seq 0 C).

(** The best distance of channel [c]: the minimum over the frames in which
    it passes the filter. *)
Definition best_distance (g : Globals) (q : tensor) (gridCols : nat)
           (mulFac : npfloat * npfloat) (depThresh : Q) (window : list Z)
           (c : nat) : npfloat :=
  min_or_nan (map (fun k => frame_distance g q k c)
                  (filter (fun k => passes g gridCols mulFac depThresh k c)
                          window)).

(** The score: the mean, over the valid channels, of their best
    distances. *)
Definition seq2single_score (g : Globals) (q : tensor) (gridCols : nat)
           (mulFac : npfloat * npfloat) (depThresh : Q) (window : list Z)
           (C : nat) : npfloat :=
  np_mean (map (best_distance g q gridCols mulFac depThresh window)
               (valid_channels g gridCols mulFac depThresh window C)).

(** What [matchData] computes for one candidate, in closed form: the
    entry of the table for channel [c] and frame [k] after the loop over
    the window, the minimum of a table row, and the mean of the row minima
    that differ from the sentinel. *)
Definition table_cell (g : Globals) (q : tensor) (gridCols : nat)
           (mulFac : npfloat * npfloat) (depThresh : Q) (k : Z) (c : nat)
  : npfloat :=
  if passes g gridCols mulFac depThresh k c then frame_distance g q k c
  else Fin 100.

Definition row_min (g : Globals) (q : tensor) (gridCols : nat)
           (mulFac : npfloat * npfloat) (depThresh : Q) (window : list Z)
           (c : nat) : npfloat :=
  min_or_nan (map (fun k => table_cell g q gridCols mulFac depThresh k c)
                  window).

Definition table_score (g : Globals) (q : tensor) (gridCols : nat)
           (mulFac : npfloat * npfloat) (depThresh : Q) (window : list Z)
           (C : nat) : npfloat :=
  np_mean (filter (fun d => fne d 100)
                  (map (row_min g q gridCols mulFac depThresh window)
                       (seq 0 C))).

(** The same notions with the pixel of the spec in place of the pixel of
    the projector. *)
Definition spec_keypoint_depth (gridCols : nat) (scale : Q * Q) (t : tensor)
           (depImg : depthmap) (c : nat) : Q :=
  let f := keypoint t c in
  nth (Z.to_nat (pixel_x gridCols (snd scale) f))
      (nth (Z.to_nat (pixel_y gridCols (fst scale) f)) depImg []) 0%Q.

Definition spec_passes (g : Globals) (gridCols : nat) (scale : Q * Q)
           (depThresh : Q) (k : Z) (c : nat) : bool :=
  let d := spec_keypoint_depth gridCols scale (ref_frame g k) (ref_depth g k) c in
  Qltb d depThresh && Qltb 0 d.

Definition spec_valid_channels (g : Globals) (gridCols : nat) (scale : Q * Q)
           (depThresh : Q) (window : list Z) (C : nat) : list nat :=
  filter (fun c => existsb (fun k => spec_passes g gridCols scale depThresh k c)
                           window)
         (seq 0 C).

Definition spec_score (g : Globals) (q : tensor) (gridCols : nat)
           (scale : Q * Q) (depThresh : Q) (window : list Z) (C : nat)
  : npfloat :=
  np_mean (map (fun c =>
                  min_or_nan
                    (map (fun k => frame_distance g q k c)
                         (filter (fun k => spec_passes g gridCols scale
                                                       depThresh k c)
                                 window)))
               (spec_valid_channels g gridCols scale depThresh window C)).

Set Implicit Arguments.

(** The shapes of one run: [numRef] reference tensors of [cells x C]
    entries on a grid of [gridRows x gridCols] cells, as many depth maps of
    [fullRows x fullCols] pixels, and a query tensor with [C] channels.
    The sizes are such that index times scale is computed in binary64
    with an error below one grid step. *)
Record well_shaped (g : Globals) (q : tensor)
       (gridRows gridCols fullRows fullCols cells C numRef : nat) : Prop := {
  ws_query_rows : 0 < length q;
  ws_query_cols : Forall (fun r => length r = C) q;
  ws_ref_count : length (denseFtRefAll g) = numRef;
  ws_dep_count : length (depImgRefAll g) = numRef;
  ws_ref : Forall (fun t => length t = cells /\
                            Forall (fun r => length r = C) t)
                  (denseFtRefAll g);
  ws_cells : 0 < cells <= gridRows * gridCols;
  ws_dep : Forall (fun d => length d = fullRows /\
                            Forall (fun r => length r = fullCols) d)
                  (depImgRefAll g);
  ws_full : 0 < fullRows /\ 0 < fullCols;
  ws_sizes : (Z.of_nat (fullRows * gridRows) <= 2 ^ 51)%Z /\
             (Z.of_nat (fullCols * gridCols) <= 2 ^ 51)%Z
}.

Unset Implicit Arguments.

(** What any correct [argsort] of [col] returns: the positions of [col],
    each once, in an order in which the values do not decrease. *)
Definition is_argsort (col : list Q) (idx : list nat) : Prop :=
  Permutation idx (seq 0 (length col)) /\
  StronglySorted (fun i j => (nth i col 0 <= nth j col 0)%Q) idx.

(** [v] is NaN or strictly below [b]. *)
Definition below (b : Q) (v : npfloat) : Prop :=
  match v with
  | NaN | NInf => True
  | PInf => False
  | Fin x => (x < b)%Q
  end.

(** What [np.argmin] selects: a position [p] of the array such that, if
    the array holds a NaN, [p] is the position of the first one, and
    otherwise the value at [p] is strictly below every earlier value and
    no value is below it. *)
Definition argmin_spec (l : list npfloat) (p : nat) : Prop :=
  exists vp,
    nth_error l p = Some vp /\
    (is_nan vp = true ->
     forall j v, j < p -> nth_error l j = Some v -> is_nan v = false) /\
    (is_nan vp = false ->
     (forall v, In v l -> is_nan v = false /\ fltb v vp = false) /\
     (forall j v, j < p -> nth_error l j = Some v -> fltb vp v = true)).

(** [m] never changes the globals. *)
Definition readonly {A} (m : M A) : Prop :=
  forall g a g', m g = Some (a, g') -> g' = g.

(** The value a read-only computation returns from state [g]. *)
Definition value_of {A} (m : M A) (g : Globals) : option A :=
  match m g with Some (a, _) => Some a | None => None end.

Definition with_state {A} (g : Globals) (o : option A) : option (A * Globals) :=
  match o with Some a => Some (a, g) | None => None end.

(** Two states with the same inputs: they differ at most in the lists
    that the driver cells build. *)
Definition same_inputs (g1 g2 : Globals) : Prop :=
  set_scores [] (set_finalScores [] g1) = set_scores [] (set_finalScores [] g2).

(** [m] writes [scores] and [finalScores] and nothing else. *)
Definition keeps_inputs {A} (m : M A) : Prop :=
  forall g a g', m g = Some (a, g') -> same_inputs g' g.

(** The value of [m] depends on the inputs only. *)
Definition input_determined {A} (m : M A) : Prop :=
  forall g1 g2, same_inputs g1 g2 -> value_of m g1 = value_of m g2.

(* ================================================================== *)
(** ** A small data set

    Three reference images and two queries; tensors of 2 cells by 2
    channels on a 1 x 2 grid, depth maps of 2 x 2 pixels.  Reference 1 has
    all its depths outside the valid range.  [ex_globals_no_query] is the
    same reference set with no query image. *)
(* ================================================================== *)

Definition ex_q0 : tensor := [[1; 2]; [3; 1]]%Q.
Definition ex_q1 : tensor := [[2; 1]; [1; 1]]%Q.

Definition ex_globals : Globals := {|
  imgDescRef := [[1; 0]; [0; 1]; [1; 1]]%Q;
  imgDescQuery := [[0; 1]; [1; 0]]%Q;
  topMatches := [[1; 0]; [0; 2]];
  numRefImgs := 3;
  numQueryImgs := 2;
  denseFtRefAll := [ [[1; 0]; [0; 1]]; [[3; 4]; [1; 2]]; [[0; 2]; [5; 1]] ]%Q;
  numFmaps := 2;
  depImgRefAll := [ [[10; 20]; [30; 40]];
                    [[200; 200]; [200; 200]];
                    [[50; 0]; [1; 1]] ]%Q;
  c5Shape := (1, 2);
  mulFac_dep2c5 := (axis_scale 2 1, axis_scale 2 2);
  queryFiles := [ex_q0; ex_q1];
  seqL := 1%Z;
  depT := 98%Q;
  scores := [];
  finalScores := []
|}.

Definition ex_globals_no_query : Globals := {|
  imgDescRef := imgDescRef ex_globals;
  imgDescQuery := [];
  topMatches := [[]; []];
  numRefImgs := 3;
  numQueryImgs := 0;
  denseFtRefAll := denseFtRefAll ex_globals;
  numFmaps := 2;
  depImgRefAll := depImgRefAll ex_globals;
  c5Shape := (1, 2);
  mulFac_dep2c5 := (axis_scale 2 1, axis_scale 2 2);
  queryFiles := [];
  seqL := 1%Z;
  depT := 98%Q;
  scores := [];
  finalScores := []
|}.

(** Two reference images of one cell and one channel.  The descriptor of
    reference 0 is so small that its square is zero in binary64; the depth
    of reference 1 is out of range. *)
Definition tiny_q : tensor := [[-1]]%Q.

Definition tiny_globals : Globals := {|
  imgDescRef := [[1]; [1]]%Q;
  imgDescQuery := [[1]]%Q;
  topMatches := [[1]];
  numRefImgs := 2;
  numQueryImgs := 1;
  denseFtRefAll := [ [[pow2 (-600)]]; [[1]] ]%Q;
  numFmaps := 1;
  depImgRefAll := [ [[10]]; [[200]] ]%Q;
  c5Shape := (1, 1);
  mulFac_dep2c5 := (axis_scale 1 1, axis_scale 1 1);
  queryFiles := [tiny_q];
  seqL := 2%Z;
  depT := 98%Q;
  scores := [];
  finalScores := []
|}.

(** One reference image on a grid of 1 x 14 cells with a depth map of
    1 x 122 pixels.  The keypoint of its only channel is the cell of
    column 7; the depth is in range at pixel column 60 and out of range
    everywhere else. *)
Definition wide_q : tensor :=
  map (fun i => [if i =? 7 then 1 else 0]%Q) (seq 0 14).

Definition wide_globals : Globals := {|
  imgDescRef := [[1]]%Q;
  imgDescQuery := [[1]]%Q;
  topMatches := [[0]];
  numRefImgs := 1;
  numQueryImgs := 1;
  denseFtRefAll := [wide_q];
  numFmaps := 1;
  depImgRefAll := [ [map (fun i => if i =? 60 then 10 else 200)%Q (seq 0 122)] ];
  c5Shape := (1, 14);
  mulFac_dep2c5 := (axis_scale 1 1, axis_scale 122 14);
  queryFiles := [wide_q];
  seqL := 1%Z;
  depT := 98%Q;
  scores := [];
  finalScores := []
|}.

(* ================================================================== *)
(** * Properties *)
(* ================================================================== *)

(** ** The error monad and the numpy primitives *)

Lemma Qltb_lt (x y : Q) : Qltb x y = true <-> (x < y)%Q.
Proof.
  unfold Qltb. rewrite negb_true_iff.
  split; intros H.
  - apply Qnot_le_lt. intros Hle. apply Qle_bool_iff in Hle. congruence.
  - destruct (Qle_bool y x) eqn:E; [|reflexivity].
    apply Qle_bool_iff in E. exfalso. exact (Qlt_not_le _ _ H E).
Qed.

Lemma omap_length {A B} (f : A -> option B) l bs :
  omap f l = Some bs -> length bs = length l.
Proof.
  revert bs. induction l as [|a l IH]; simpl; intros bs H.
  - injection H as <-. reflexivity.
  - destruct (f a); [|discriminate].
    destruct (omap f l); [|discriminate].
    injection H as <-. simpl. f_equal. now apply IH.
Qed.

Lemma omap_nth_error {A B} (f : A -> option B) l bs i a :
  omap f l = Some bs -> nth_error l i = Some a ->
  exists b, f a = Some b /\ nth_error bs i = Some b.
Proof.
  revert bs i. induction l as [|x l IH]; simpl; intros bs i H Hi.
  - destruct i; discriminate.
  - destruct (f x) eqn:Fx; [|discriminate].
    destruct (omap f l) eqn:Fl; [|discriminate].
    injection H as <-. destruct i; simpl in *.
    + injection Hi as <-. eauto.
    + eapply IH; eauto.
Qed.

Lemma omap_total {A B} (f : A -> option B) (g : A -> B) l :
  (forall a, In a l -> f a = Some (g a)) -> omap f l = Some (map g l).
Proof.
  induction l as [|x l IH]; simpl; intros H; [reflexivity|].
  rewrite (H x (or_introl eq_refl)), IH; auto.
Qed.

Lemma omap_ext {A B} (f g : A -> option B) l :
  (forall a, In a l -> f a = g a) -> omap f l = omap g l.
Proof.
  induction l as [|x l IH]; simpl; intros H; [reflexivity|].
  rewrite (H x (or_introl eq_refl)), IH; auto.
Qed.

Lemma omap_map {A B C} (f : B -> option C) (h : A -> B) l :
  omap f (map h l) = omap (fun a => f (h a)) l.
Proof.
  induction l as [|x l IH]; simpl; [reflexivity|]. now rewrite IH.
Qed.

Lemma argwhere_from_In {A} (p : A -> bool) l s i :
  In i (argwhere_from p s l) <->
  s <= i /\ exists a, nth_error l (i - s) = Some a /\ p a = true.
Proof.
  revert s. induction l as [|x l IH]; intros s; simpl.
  - split; [tauto|]. intros [_ [a [H _]]]. destruct (i - s); discriminate.
  - assert (Hstep : In i (argwhere_from p (S s) l) <->
                    S s <= i /\ exists a, nth_error (x :: l) (i - s) = Some a
                                          /\ p a = true).
    { rewrite IH. split; intros [Hle [a [Hn Hp]]]; (split; [exact Hle|]);
        exists a; (split; [|exact Hp]).
      - replace (i - s) with (S (i - S s)) by lia. exact Hn.
      - replace (i - s) with (S (i - S s)) in Hn by lia. exact Hn. }
    destruct (p x) eqn:Px; simpl; rewrite Hstep.
    + split.
      * intros [<- | [Hle H]]; [|split; [lia|exact H]].
        split; [lia|]. exists x. rewrite Nat.sub_diag. auto.
      * intros [Hle [a [Hn Hp]]].
        destruct (Nat.eq_dec s i) as [->|Hne]; [now left|right].
        split; [lia|]. eauto.
    + split.
      * intros [Hle H]. split; [lia|exact H].
      * intros [Hle [a [Hn Hp]]].
        destruct (Nat.eq_dec s i) as [->|Hne].
        -- rewrite Nat.sub_diag in Hn. simpl in Hn. congruence.
        -- split; [lia|]. eauto.
Qed.

Lemma argwhere_In {A} (p : A -> bool) l i :
  In i (argwhere p l) <-> exists a, nth_error l i = Some a /\ p a = true.
Proof.
  unfold argwhere. rewrite argwhere_from_In, Nat.sub_0_r.
  split; [tauto|]. intros H. split; [lia|exact H].
Qed.

Lemma argwhere_from_sorted {A} (p : A -> bool) l s :
  StronglySorted lt (argwhere_from p s l).
Proof.
  revert s. induction l as [|x l IH]; intros s; simpl; [constructor|].
  destruct (p x); [|apply IH].
  constructor; [apply IH|].
  apply Forall_forall. intros j Hj. apply argwhere_from_In in Hj. lia.
Qed.

Lemma argwhere_sorted {A} (p : A -> bool) l :
  StronglySorted lt (argwhere p l).
Proof. apply argwhere_from_sorted. Qed.

Lemma arange_In lb ub k : In k (arange lb ub) <-> (lb <= k < ub)%Z.
Proof.
  unfold arange. rewrite in_map_iff. split.
  - intros [i [<- Hi]]. apply in_seq in Hi. lia.
  - intros H. exists (Z.to_nat (k - lb)). split; [lia|].
    apply in_seq. lia.
Qed.

Lemma arange_length lb ub : length (arange lb ub) = Z.to_nat (ub - lb).
Proof. unfold arange. now rewrite length_map, length_seq. Qed.

Lemma arange_sorted lb ub : StronglySorted Z.lt (arange lb ub).
Proof.
  unfold arange. generalize (Z.to_nat (ub - lb)) as n. intros n.
  assert (H : forall s, StronglySorted Z.lt
                (map (fun i => (lb + Z.of_nat i)%Z) (seq s n))).
  { induction n as [|n IH]; intros s; simpl; constructor; [apply IH|].
    apply Forall_forall. intros z Hz. apply in_map_iff in Hz.
    destruct Hz as [i [<- Hi]]. apply in_seq in Hi. lia. }
  apply H.
Qed.

(* ------------------------------------------------------------------ *)
(** ** Sequence Window Builder *)

(** C2, as stated, fails: with window length 0 the builder returns the
    empty range, for a valid reference index. *)
Lemma getRefSeqInfo_length0_empty :
  (0 <= 0 < 1)%Z /\
  ~ (getRefSeqInfo 0 1 0 <> [] /\
     StronglySorted Z.lt (getRefSeqInfo 0 1 0) /\
     (forall k, In k (getRefSeqInfo 0 1 0) -> (0 <= k < 1)%Z) /\
     (Z.of_nat (length (getRefSeqInfo 0 1 0)) <= 0)%Z).
Proof.
  split; [lia|]. intros [H _]. apply H. reflexivity.
Qed.

(** C2 (amended): for a reference index [0 <= r < count] and a window
    length [L >= 1], [getRefSeqInfo] returns exactly the integer range
    [[max(r - floor(L/2), 0), min(r + ceil(L/2), count))], in increasing
    order; this output is non-empty, strictly increasing, within
    [[0, count)] and of length at most [L]. *)
Theorem getRefSeqInfo_window (r count L : Z) :
  (0 <= r < count)%Z -> (1 <= L)%Z ->
  let w := getRefSeqInfo r count L in
  (forall k, In k w <->
             (Z.max (r - L / 2) 0 <= k < Z.min (r + (L + 1) / 2) count)%Z) /\
  w <> [] /\
  StronglySorted Z.lt w /\
  (forall k, In k w -> (0 <= k < count)%Z) /\
  (Z.of_nat (length w) <= L)%Z.
Proof.
  intros Hr HL w.
  assert (Hceil : (- (- L / 2) = (L + 1) / 2)%Z).
  { pose proof (Z.div_mod (- L) 2 ltac:(lia)).
    pose proof (Z.div_mod (L + 1) 2 ltac:(lia)).
    pose proof (Z.mod_pos_bound (- L) 2 ltac:(lia)).
    pose proof (Z.mod_pos_bound (L + 1) 2 ltac:(lia)). lia. }
  assert (Hfl : (0 <= L / 2)%Z) by (apply Z.div_pos; lia).
  assert (Hce : (1 <= (L + 1) / 2)%Z).
  { apply Z.div_le_lower_bound; lia. }
  assert (Hsum : (L / 2 + (L + 1) / 2 = L)%Z).
  { pose proof (Z.div_mod L 2 ltac:(lia)).
    pose proof (Z.div_mod (L + 1) 2 ltac:(lia)).
    pose proof (Z.mod_pos_bound L 2 ltac:(lia)).
    pose proof (Z.mod_pos_bound (L + 1) 2 ltac:(lia)). lia. }
  assert (Hin : forall k, In k w <->
             (Z.max (r - L / 2) 0 <= k < Z.min (r + (L + 1) / 2) count)%Z).
  { intros k. unfold w, getRefSeqInfo. rewrite arange_In, Hceil. reflexivity. }
  split; [exact Hin|]. split; [|split; [|split]].
  - intros Hnil. assert (Hrw : In r w) by (apply Hin; lia).
    rewrite Hnil in Hrw. exact Hrw.
  - apply arange_sorted.
  - intros k Hk. apply Hin in Hk. lia.
  - unfold w, getRefSeqInfo. rewrite arange_length, Hceil. lia.
Qed.

Lemma getRefSeqInfo_window_witness :
  let w := getRefSeqInfo 5 10 4 in
  (forall k, In k w <->
             (Z.max (5 - 4 / 2) 0 <= k < Z.min (5 + (4 + 1) / 2) 10)%Z) /\
  w <> [] /\
  StronglySorted Z.lt w /\
  (forall k, In k w -> (0 <= k < 10)%Z) /\
  (Z.of_nat (length w) <= 4)%Z.
Proof. apply (getRefSeqInfo_window 5 10 4); lia. Defined.

(* ------------------------------------------------------------------ *)
(** ** Depth Filter *)

Lemma filterKPs_depth_In d minD maxD i :
  In i (filterKPs_depth d minD maxD) <->
  exists v, nth_error d i = Some v /\ (minD < v)%Q /\ (v < maxD)%Q.
Proof.
  unfold filterKPs_depth. rewrite argwhere_In.
  split; intros [v [Hn Hp]]; exists v; (split; [exact Hn|]).
  - apply andb_true_iff in Hp. destruct Hp as [H1 H2].
    split; now apply Qltb_lt.
  - apply andb_true_iff. destruct Hp as [H1 H2].
    split; now apply Qltb_lt.
Qed.

(** C3: [filterKPs_depth d minD maxD] is exactly the set of positions [i]
    of [d] with [minD < d[i] < maxD], both comparisons strict, listed in
    increasing order; every returned index is below the input length. *)
Theorem filterKPs_depth_spec (d : list Q) (minD maxD : Q) :
  (forall i, In i (filterKPs_depth d minD maxD) <->
             exists v, nth_error d i = Some v /\ (minD < v)%Q /\ (v < maxD)%Q) /\
  (forall i, In i (filterKPs_depth d minD maxD) -> i < length d) /\
  StronglySorted lt (filterKPs_depth d minD maxD).
Proof.
  split; [apply filterKPs_depth_In|]. split.
  - intros i Hi. apply filterKPs_depth_In in Hi. destruct Hi as [v [Hn _]].
    apply nth_error_Some. congruence.
  - apply argwhere_sorted.
Qed.

(* ------------------------------------------------------------------ *)
(** ** Rounding to binary64 *)

Section Rounding.
Local Open Scope Q_scope.

Lemma pow2_pos e : 0 < pow2 e.
Proof. apply Qpower_0_lt. reflexivity. Qed.

Lemma pow2_plus a b : pow2 (a + b) == pow2 a * pow2 b.
Proof. apply Qpower_plus. discriminate. Qed.

Lemma pow2_succ e : pow2 (e + 1) == 2 * pow2 e.
Proof. rewrite pow2_plus. change (pow2 1) with 2. ring. Qed.

Lemma pow2_pred e : pow2 (e - 1) == pow2 e * (1 # 2).
Proof.
  replace (e - 1)%Z with (e + -1)%Z by lia. rewrite pow2_plus.
  change (pow2 (-1)) with (/ 2). reflexivity.
Qed.

Lemma pow2_le a b : (a <= b)%Z -> pow2 a <= pow2 b.
Proof. intros H. apply Qpower_le_compat_l; [exact H|discriminate]. Qed.

Lemma pow2_Z n : (0 <= n)%Z -> inject_Z (2 ^ n) == pow2 n.
Proof. intros H. unfold pow2. now rewrite Zpower_Qpower. Qed.

Lemma ilog2_spec q : 0 < q -> pow2 (ilog2 q) <= q /\ q < pow2 (ilog2 q + 1).
Proof.
  intros Hq. destruct q as [n d]. unfold ilog2. cbn [Qnum Qden].
  assert (Hn : (0 < n)%Z).
  { unfold Qlt in Hq. simpl in Hq. lia. }
  set (ln := Z.log2 n). set (ld := Z.log2 (Z.pos d)).
  destruct (Z.log2_spec n Hn) as [Hn1 Hn2]. fold ln in Hn1, Hn2.
  destruct (Z.log2_spec (Z.pos d) (Pos2Z.is_pos d)) as [Hd1 Hd2].
  fold ld in Hd1, Hd2.
  assert (Hln : (0 <= ln)%Z) by apply Z.log2_nonneg.
  assert (Hld : (0 <= ld)%Z) by apply Z.log2_nonneg.
  assert (Hq' : n # d == inject_Z n / inject_Z (Z.pos d)) by apply Qmake_Qdiv.
  assert (Hdpos : 0 < inject_Z (Z.pos d)) by (rewrite <- (Zlt_Qlt 0); lia).
  (* the two outer bounds *)
  assert (Hup : n # d < pow2 (ln - ld + 1)).
  { rewrite Hq'. apply Qlt_shift_div_r; [exact Hdpos|].
    apply Qlt_le_trans with (pow2 (ln + 1)).
    - rewrite <- pow2_Z by lia. rewrite <- Zlt_Qlt. replace (ln + 1)%Z with (Z.succ ln) by lia. exact Hn2.
    - replace (ln + 1)%Z with ((ln - ld + 1) + ld)%Z by lia.
      rewrite pow2_plus. apply Qmult_le_l; [apply pow2_pos|].
      rewrite <- pow2_Z by lia. rewrite <- Zle_Qle. exact Hd1. }
  assert (Hlo : pow2 (ln - ld - 1) < n # d).
  { rewrite Hq'. apply Qlt_shift_div_l; [exact Hdpos|].
    apply Qlt_le_trans with (pow2 ln).
    - replace ln with ((ln - ld - 1) + (ld + 1))%Z at 2 by lia.
      rewrite pow2_plus. apply Qmult_lt_l; [apply pow2_pos|].
      rewrite <- pow2_Z by lia. rewrite <- Zlt_Qlt.
      replace (ld + 1)%Z with (Z.succ ld) by lia. exact Hd2.
    - rewrite <- pow2_Z by lia. rewrite <- Zle_Qle. exact Hn1. }
  destruct (Qle_bool (pow2 (ln - ld)) (n # d)) eqn:E.
  - apply Qle_bool_iff in E. split; assumption.
  - split; [apply Qlt_le_weak; exact Hlo|].
    replace (ln - ld - 1 + 1)%Z with (ln - ld)%Z by lia.
    apply Qnot_le_lt. intros H. apply Qle_bool_iff in H. congruence.
Qed.


Lemma round_half_even_bounds x :
  inject_Z (round_half_even x) - x <= 1 # 2 /\
  x - inject_Z (round_half_even x) <= 1 # 2.
Proof.
  unfold round_half_even.
  pose proof (Qfloor_le x) as H1. pose proof (Qlt_floor x) as H2.
  rewrite inject_Z_plus in H2. change (inject_Z 1) with 1 in H2.
  destruct (Qcompare (x - inject_Z (Qfloor x)) (1 # 2)) eqn:E.
  - apply Qeq_alt in E.
    destruct (Z.even (Qfloor x)).
    + split; lra.
    + rewrite inject_Z_plus. change (inject_Z 1) with 1. split; lra.
  - apply Qlt_alt in E. split; lra.
  - apply Qgt_alt in E. rewrite inject_Z_plus. change (inject_Z 1) with 1.
    split; lra.
Qed.

Lemma round_half_even_Z x n : x == inject_Z n -> round_half_even x = n.
Proof.
  intros H. unfold round_half_even.
  rewrite (Qfloor_comp _ _ H), Qfloor_Z.
  assert (E : Qcompare (x - inject_Z n) (1 # 2) = Lt).
  { apply Qlt_alt.
    assert (Hz : x - inject_Z n == 0) by (rewrite H; ring).
    rewrite Hz. reflexivity. }
  now rewrite E.
Qed.

Lemma round_half_even_comp x y :
  x == y -> round_half_even x = round_half_even y.
Proof.
  intros H. unfold round_half_even. rewrite (Qfloor_comp _ _ H).
  assert (E : Qcompare (x - inject_Z (Qfloor y)) (1 # 2) =
              Qcompare (y - inject_Z (Qfloor y)) (1 # 2)).
  { apply Qcompare_comp; [now rewrite H|reflexivity]. }
  now rewrite E.
Qed.

Lemma ilog2_ge q e : 0 < q -> pow2 e <= q -> (e <= ilog2 q)%Z.
Proof.
  intros Hq H. destruct (ilog2_spec q Hq) as [_ Hup].
  destruct (Z_lt_le_dec (ilog2 q) e) as [Hlt|Hle]; [|exact Hle].
  exfalso. apply (Qlt_irrefl q).
  apply Qlt_le_trans with (pow2 (ilog2 q + 1)); [exact Hup|].
  apply Qle_trans with (pow2 e); [apply pow2_le; lia|exact H].
Qed.

Lemma ilog2_lt q e : 0 < q -> q < pow2 e -> (ilog2 q < e)%Z.
Proof.
  intros Hq H. destruct (ilog2_spec q Hq) as [Hlo _].
  destruct (Z_lt_le_dec (ilog2 q) e) as [Hlt|Hle]; [exact Hlt|].
  exfalso. apply (Qlt_irrefl q).
  apply Qlt_le_trans with (pow2 e); [exact H|].
  apply Qle_trans with (pow2 (ilog2 q)); [apply pow2_le; lia|exact Hlo].
Qed.

Lemma Qabs_of_pos q : 0 < q -> Qabs q = q.
Proof.
  destruct q as [n d]. unfold Qlt. simpl. intros H.
  unfold Qabs. f_equal. lia.
Qed.

Lemma Qred_pos q : 0 < q -> 0 < Qred q.
Proof. intros H. now rewrite Qred_correct. Qed.

(** The value of [fl] on a positive number of the normal range. *)
Lemma fl_normal q :
  pow2 (-1022) <= q ->
  let e := ilog2 (Qred q) in
  pow2 e <= q /\ q < pow2 (e + 1) /\
  fl q == inject_Z (round_half_even (q / pow2 (e - 52))) * pow2 (e - 52).
Proof.
  intros Hn e.
  assert (Hq : 0 < q).
  { eapply Qlt_le_trans; [apply (pow2_pos (-1022))|exact Hn]. }
  pose proof (Qred_pos q Hq) as Hq'.
  destruct (ilog2_spec (Qred q) Hq') as [Hlo Hup]. fold e in Hlo, Hup.
  rewrite Qred_correct in Hlo, Hup.
  split; [exact Hlo|]. split; [exact Hup|].
  assert (He : (-1022 <= e)%Z).
  { apply ilog2_ge; [exact Hq'|]. now rewrite Qred_correct. }
  unfold fl. cbv zeta.
  destruct (Qeq_bool (Qred q) 0) eqn:E0.
  { apply Qeq_bool_iff in E0. rewrite E0 in Hq'. discriminate. }
  rewrite Qred_correct. unfold quantum. rewrite (Qabs_of_pos _ Hq').
  fold e. rewrite Z.max_l by lia.
  rewrite (round_half_even_comp (Qred q / pow2 (e - 52)) (q / pow2 (e - 52)))
    by (now rewrite Qred_correct).
  reflexivity.
Qed.


Lemma fl_error q :
  pow2 (-1022) <= q ->
  fl q - q <= q * pow2 (-53) /\ q - fl q <= q * pow2 (-53).
Proof.
  intros Hn. destruct (fl_normal q Hn) as [Hlo [_ Hfl]].
  set (e := ilog2 (Qred q)) in *.
  set (p := pow2 (e - 52)) in *.
  assert (Hp : 0 < p) by apply pow2_pos.
  set (x := q / p) in *.
  destruct (round_half_even_bounds x) as [B1 B2].
  set (m := inject_Z (round_half_even x)) in *.
  assert (Hx : x * p == q).
  { unfold x. field. intros E. rewrite E in Hp. discriminate. }
  assert (Hhalf : p * (1 # 2) <= q * pow2 (-53)).
  { assert (E : p * (1 # 2) == pow2 e * pow2 (-53)).
    { unfold p. replace (e - 52)%Z with (e + -52)%Z by lia.
      rewrite pow2_plus.
      assert (E53 : pow2 (-52) * (1 # 2) == pow2 (-53)) by reflexivity.
      rewrite <- E53. ring. }
    rewrite E. apply Qmult_le_compat_r; [exact Hlo|].
    apply Qlt_le_weak, pow2_pos. }
  assert (U1 : (m - x) * p <= (1 # 2) * p).
  { apply Qmult_le_compat_r; [exact B1|now apply Qlt_le_weak]. }
  assert (U2 : (x - m) * p <= (1 # 2) * p).
  { apply Qmult_le_compat_r; [exact B2|now apply Qlt_le_weak]. }
  rewrite Hfl. fold m. split.
  - setoid_replace (m * p - q) with ((m - x) * p) by (rewrite <- Hx; ring).
    lra.
  - setoid_replace (q - m * p) with ((x - m) * p) by (rewrite <- Hx; ring).
    lra.
Qed.

Lemma fl_reduced q : fl q = Qred (fl q).
Proof.
  unfold fl. cbv zeta. destruct (Qeq_bool (Qred q) 0); [reflexivity|].
  symmetry. apply Qred_complete, Qred_correct.
Qed.

Lemma fl_comp q q' : q == q' -> fl q = fl q'.
Proof. intros H. unfold fl. now rewrite (Qred_complete _ _ H). Qed.

Lemma Qred_inject_Z n : Qred (inject_Z n) = inject_Z n.
Proof.
  pose proof (Qred_correct (inject_Z n)) as E.
  pose proof (gcd_Qred (inject_Z n)) as G.
  destruct (Qred (inject_Z n)) as [a d]. unfold Qeq in E. simpl in E, G.
  rewrite Z.mul_1_r in E. subst a.
  rewrite Z.gcd_comm, (Z.mul_comm n), Z.gcd_mul_diag_l in G by lia.
  unfold inject_Z. assert (d = 1%positive) by lia. subst d.
  f_equal. lia.
Qed.

Lemma fl_exact n : (0 < n < 2 ^ 53)%Z -> fl (inject_Z n) = inject_Z n.
Proof.
  intros Hn.
  assert (H1 : 1 <= inject_Z n) by (rewrite <- (Zle_Qle 1); lia).
  assert (Hnorm : pow2 (-1022) <= inject_Z n).
  { eapply Qle_trans; [|exact H1]. apply (pow2_le (-1022) 0). lia. }
  destruct (fl_normal _ Hnorm) as [Hlo [Hup Hfl]].
  set (e := ilog2 (Qred (inject_Z n))) in *.
  assert (Hpos : 0 < Qred (inject_Z n)).
  { apply Qred_pos. lra. }
  assert (He0 : (0 <= e)%Z).
  { apply ilog2_ge; [exact Hpos|]. rewrite Qred_correct. exact H1. }
  assert (He53 : (e < 53)%Z).
  { apply ilog2_lt; [exact Hpos|]. rewrite Qred_correct.
    rewrite <- pow2_Z by lia. rewrite <- Zlt_Qlt. lia. }
  assert (Hp : pow2 (e - 52) * inject_Z (2 ^ (52 - e)) == 1).
  { rewrite pow2_Z by lia. rewrite <- pow2_plus.
    replace (e - 52 + (52 - e))%Z with 0%Z by lia. reflexivity. }
  assert (Hinv : / pow2 (e - 52) == inject_Z (2 ^ (52 - e))).
  { rewrite pow2_Z by lia. unfold pow2. rewrite <- Qpower_opp.
    replace (- (e - 52))%Z with (52 - e)%Z by lia. reflexivity. }
  assert (Hx : inject_Z n / pow2 (e - 52) == inject_Z (n * 2 ^ (52 - e))).
  { unfold Qdiv. now rewrite Hinv, inject_Z_mult. }
  rewrite (round_half_even_Z _ _ Hx) in Hfl.
  transitivity (Qred (inject_Z n)); [|apply Qred_inject_Z].
  rewrite fl_reduced. apply Qred_complete.
  rewrite Hfl, inject_Z_mult.
  rewrite <- Qmult_assoc, (Qmult_comm (inject_Z (2 ^ (52 - e)))), Hp. ring.
Qed.

End Rounding.

(* ------------------------------------------------------------------ *)
(** ** Keypoint Projector *)

Section ProjectorRounding.
Local Open Scope Q_scope.

Lemma rnd_Fin q : 0 <= fl q -> fl q < pow2 1024 -> rnd q = Fin (fl q).
Proof.
  intros H0 H1. unfold rnd. cbv zeta.
  destruct (Qle_bool (pow2 1024) (Qabs (fl q))) eqn:E; [|reflexivity].
  apply Qle_bool_iff in E. rewrite Qabs_pos in E by exact H0.
  exfalso. apply (Qlt_irrefl (fl q)). eapply Qlt_le_trans; eassumption.
Qed.

Lemma fl_zero q : q == 0 -> fl q = 0.
Proof. intros H. now rewrite (fl_comp q 0 H). Qed.

Lemma float_of_int_exact n :
  (0 <= n < 2 ^ 53)%Z -> float_of_int n = Fin (inject_Z n).
Proof.
  intros Hn. unfold float_of_int.
  assert (Hfl : fl (inject_Z n) = inject_Z n).
  { destruct (Z.eq_dec n 0) as [->|Hz]; [reflexivity|].
    apply fl_exact. lia. }
  rewrite rnd_Fin; rewrite Hfl; [reflexivity| |].
  - rewrite <- (Zle_Qle 0). lia.
  - apply Qlt_le_trans with (inject_Z (2 ^ 53)).
    + rewrite <- Zlt_Qlt. lia.
    + rewrite pow2_Z by lia. apply pow2_le. lia.
Qed.


Definition u53 : Q := pow2 (-53).

Lemma u53_small : 0 < u53 /\ u53 <= 1 # 8.
Proof. split; [apply pow2_pos|]. unfold u53. vm_compute. discriminate. Qed.

Lemma pow2_1024_big : inject_Z (2 ^ 54) <= pow2 1024.
Proof. rewrite pow2_Z by lia. apply pow2_le. lia. Qed.

Lemma pow2_small : pow2 (-1022) <= pow2 (-53).
Proof. apply pow2_le. lia. Qed.

(** A positive exact result of moderate size and its binary64 value. *)
Lemma rnd_moderate q :
  pow2 (-53) <= q -> q <= inject_Z (2 ^ 53) ->
  rnd q = Fin (fl q) /\ 0 < fl q /\
  fl q - q <= q * u53 /\ q - fl q <= q * u53.
Proof.
  intros Hlo Hhi.
  assert (Hq : 0 < q).
  { eapply Qlt_le_trans; [apply (pow2_pos (-53))|exact Hlo]. }
  destruct (fl_error q) as [E1 E2].
  { eapply Qle_trans; [apply pow2_small|exact Hlo]. }
  fold u53 in E1, E2. destruct u53_small as [U0 U1].
  assert (Hqu : q * u53 <= q * (1 # 8)).
  { apply Qmult_le_l; assumption. }
  assert (Hpos : 0 < fl q) by lra.
  split; [|split; [exact Hpos|split; assumption]].
  apply rnd_Fin; [lra|].
  apply Qlt_le_trans with (inject_Z (2 ^ 54)); [|apply pow2_1024_big].
  assert (H54 : inject_Z (2 ^ 54) == 2 * inject_Z (2 ^ 53)) by reflexivity.
  rewrite H54. lra.
Qed.

Lemma axis_scale_value (F G : nat) :
  (1 <= F)%nat -> (1 <= G)%nat -> (Z.of_nat (F * G) <= 2 ^ 51)%Z ->
  let q := inject_Z (Z.of_nat F) / inject_Z (Z.of_nat G) in
  exists a, axis_scale F G = Fin a /\ 0 < a /\
            a - q <= q * u53 /\ q - a <= q * u53.
Proof.
  intros HF HG Hsz q.
  assert (HF51 : (Z.of_nat F <= 2 ^ 51)%Z) by nia.
  assert (HG51 : (Z.of_nat G <= 2 ^ 51)%Z) by nia.
  unfold axis_scale.
  rewrite !float_of_int_exact by lia. unfold fdiv.
  assert (HGq : 1 <= inject_Z (Z.of_nat G)) by (rewrite <- (Zle_Qle 1); lia).
  assert (HFq : 1 <= inject_Z (Z.of_nat F)) by (rewrite <- (Zle_Qle 1); lia).
  assert (HG0 : Qeq_bool (inject_Z (Z.of_nat G)) 0 = false).
  { destruct (Qeq_bool _ 0) eqn:E; [|reflexivity].
    apply Qeq_bool_iff in E. lra. }
  rewrite HG0. fold q.
  assert (Hq1 : q * inject_Z (Z.of_nat G) == inject_Z (Z.of_nat F)).
  { unfold q. field. lra. }
  assert (HGhi : inject_Z (Z.of_nat G) <= inject_Z (2 ^ 51))
    by (rewrite <- Zle_Qle; lia).
  assert (HFhi : inject_Z (Z.of_nat F) <= inject_Z (2 ^ 51))
    by (rewrite <- Zle_Qle; lia).
  assert (Hqpos : 0 < q).
  { unfold q. apply Qlt_shift_div_l; lra. }
  assert (Hqlo : pow2 (-53) <= q).
  { apply Qle_trans with (/ inject_Z (2 ^ 51)); [vm_compute; discriminate|].
    apply Qle_shift_inv_r; [reflexivity|].
    assert (1 <= q * inject_Z (2 ^ 51)); [|lra].
    apply Qle_trans with (q * inject_Z (Z.of_nat G)); [lra|].
    apply Qmult_le_l; assumption. }
  assert (Hqhi : q <= inject_Z (2 ^ 53)).
  { apply Qle_trans with (inject_Z (Z.of_nat F)).
    - rewrite <- Hq1. rewrite <- (Qmult_1_r q) at 1.
      apply Qmult_le_l; assumption.
    - apply Qle_trans with (inject_Z (2 ^ 51)); [exact HFhi|].
      rewrite <- Zle_Qle. lia. }
  destruct (rnd_moderate q Hqlo Hqhi) as [R [P [E1 E2]]].
  exists (fl q). rewrite R. repeat split; assumption.
Qed.


(** The product of the scale of an axis with an index of the grid: the
    binary64 value [c] that [getKP2d] truncates, against the exact
    [t = k * F / G]. *)
Lemma scaled_index (F G k : nat) :
  (1 <= F)%nat -> (k < G)%nat -> (Z.of_nat (F * G) <= 2 ^ 51)%Z ->
  let t := inject_Z (Z.of_nat (k * F)) / inject_Z (Z.of_nat G) in
  exists c, fmul (axis_scale F G) (float_of_int (Z.of_nat k)) = Fin c /\
            0 <= c /\ c - t <= 3 * u53 * t /\ t - c <= 3 * u53 * t.
Proof.
  intros HF Hk Hsz t.
  assert (HG : (1 <= G)%nat) by lia.
  destruct (axis_scale_value F G HF HG Hsz) as [a [Ha [Hapos [A1 A2]]]].
  set (q := inject_Z (Z.of_nat F) / inject_Z (Z.of_nat G)) in *.
  assert (HG51 : (Z.of_nat G <= 2 ^ 51)%Z) by nia.
  assert (HF51 : (Z.of_nat F <= 2 ^ 51)%Z) by nia.
  rewrite Ha, float_of_int_exact by lia. unfold fmul.
  destruct u53_small as [U0 U1].
  assert (HGq : 1 <= inject_Z (Z.of_nat G)) by (rewrite <- (Zle_Qle 1); lia).
  assert (Ht : t == inject_Z (Z.of_nat k) * q).
  { unfold t, q. rewrite Nat2Z.inj_mul, inject_Z_mult. field. lra. }
  destruct k as [|k'].
  - exists 0. assert (Ht0 : t == 0) by (rewrite Ht; simpl; ring).
    assert (Hz : fl (a * inject_Z (Z.of_nat 0)) = 0).
    { apply fl_zero. simpl. ring. }
    rewrite rnd_Fin; rewrite Hz; [|apply Qle_refl|apply pow2_pos].
    rewrite Ht0. repeat split; lra.
  - set (k := S k') in *. set (kq := inject_Z (Z.of_nat k)) in *.
    assert (Hk1 : 1 <= kq) by (unfold kq; rewrite <- (Zle_Qle 1); lia).
    assert (Hqpos : 0 < q).
    { unfold q. apply Qlt_shift_div_l; [lra|].
      rewrite Qmult_0_l, <- (Zlt_Qlt 0). lia. }
    assert (Htpos : 0 < t) by (rewrite Ht; nra).
    assert (HtF : t <= inject_Z (2 ^ 51)).
    { apply Qle_trans with (inject_Z (Z.of_nat F)); [|rewrite <- Zle_Qle; lia].
      unfold t. apply Qle_shift_div_r; [lra|].
      rewrite <- inject_Z_mult, <- Zle_Qle. nia. }
    assert (Hqu : q * u53 <= q * (1 # 8)) by (apply Qmult_le_l; assumption).
    (* the exact product of the rounded scale *)
    assert (P1 : a * kq - t <= u53 * t).
    { rewrite Ht. setoid_replace (a * kq - kq * q) with (kq * (a - q)) by ring.
      setoid_replace (u53 * (kq * q)) with (kq * (q * u53)) by ring.
      apply Qmult_le_l; lra. }
    assert (P2 : t - a * kq <= u53 * t).
    { rewrite Ht. setoid_replace (kq * q - a * kq) with (kq * (q - a)) by ring.
      setoid_replace (u53 * (kq * q)) with (kq * (q * u53)) by ring.
      apply Qmult_le_l; lra. }
    assert (Htu : u53 * t <= (1 # 8) * t).
    { apply Qmult_le_compat_r; lra. }
    assert (Hlo : pow2 (-53) <= a * kq).
    { apply Qle_trans with ((1 # 2) * q).
      - apply Qle_trans with ((1 # 2) * / inject_Z (2 ^ 51));
          [vm_compute; discriminate|].
        apply Qmult_le_l; [reflexivity|].
        apply Qle_shift_inv_r; [reflexivity|].
        assert (Hq1 : q * inject_Z (Z.of_nat G) == inject_Z (Z.of_nat F)).
        { unfold q. field. lra. }
        assert (1 <= inject_Z (Z.of_nat F)) by (rewrite <- (Zle_Qle 1); lia).
        assert (inject_Z (Z.of_nat G) <= inject_Z (2 ^ 51))
          by (rewrite <- Zle_Qle; lia).
        apply Qle_trans with (q * inject_Z (Z.of_nat G)); [lra|].
        apply Qmult_le_l; assumption.
      - apply Qle_trans with (a * 1); [lra|].
        apply Qmult_le_l; assumption. }
    assert (Hhi : a * kq <= inject_Z (2 ^ 53)).
    { apply Qle_trans with (2 * inject_Z (2 ^ 51)); [lra|].
      vm_compute. discriminate. }
    destruct (rnd_moderate (a * kq) Hlo Hhi) as [R [P [E1 E2]]].
    fold kq. exists (fl (a * kq)). rewrite R.
    assert (Hmu : a * kq * u53 <= (t + u53 * t) * u53).
    { apply Qmult_le_compat_r; lra. }
    assert (Huu : u53 * t * u53 <= u53 * t).
    { rewrite <- (Qmult_1_r (u53 * t)) at 2.
      apply Qmult_le_l; [nra|lra]. }
    repeat split; [lra| |].
    + setoid_replace (3 * u53 * t) with (u53 * t + u53 * t + u53 * t) by ring.
      setoid_replace ((t + u53 * t) * u53) with (u53 * t + u53 * t * u53)
        in Hmu by ring.
      lra.
    + setoid_replace (3 * u53 * t) with (u53 * t + u53 * t + u53 * t) by ring.
      setoid_replace ((t + u53 * t) * u53) with (u53 * t + u53 * t * u53)
        in Hmu by ring.
      lra.
Qed.


Lemma astype_int_floor c :
  0 <= c -> c < inject_Z (2 ^ 63) -> astype_int (Fin c) = Qfloor c.
Proof.
  intros H0 H1. unfold astype_int.
  assert (Hq : Z.quot (Qnum c) (Z.pos (Qden c)) = Qfloor c).
  { destruct c as [n d]. unfold Qle in H0. simpl in *.
    apply Z.quot_div_nonneg; lia. }
  rewrite Hq.
  assert (Hlo : (0 <= Qfloor c)%Z).
  { change 0%Z with (Qfloor 0). now apply Qfloor_resp_le. }
  assert (Hhi : (Qfloor c < 2 ^ 63)%Z).
  { rewrite Zlt_Qlt. eapply Qle_lt_trans; [apply Qfloor_le|exact H1]. }
  unfold int64_min.
  destruct (Z.leb_spec (- 2 ^ 63) (Qfloor c)); [|lia].
  destruct (Z.ltb_spec (Qfloor c) (2 ^ 63)); [reflexivity|lia].
Qed.

(** The grid coordinate [k] on an axis of [G] cells, projected on [F]
    pixels: the code's pixel [x] satisfies [x * G <= k * F <= (x + 1) * G]. *)
Lemma kp_coord_bracket (F G k : nat) :
  (1 <= F)%nat -> (k < G)%nat -> (Z.of_nat (F * G) <= 2 ^ 51)%Z ->
  let x := kp_coord (axis_scale F G) k in
  (0 <= x)%Z /\
  (x * Z.of_nat G <= Z.of_nat (k * F))%Z /\
  (Z.of_nat (k * F) <= (x + 1) * Z.of_nat G)%Z.
Proof.
  intros HF Hk Hsz x.
  destruct (scaled_index F G k HF Hk Hsz) as [c [Hc [Hc0 [C1 C2]]]].
  set (t := inject_Z (Z.of_nat (k * F)) / inject_Z (Z.of_nat G)) in *.
  set (gq := inject_Z (Z.of_nat G)).
  set (Tq := inject_Z (Z.of_nat (k * F))).
  assert (Hg : 1 <= gq) by (unfold gq; rewrite <- (Zle_Qle 1); lia).
  assert (HT0 : 0 <= Tq) by (unfold Tq; rewrite <- (Zle_Qle 0); lia).
  assert (HT51 : Tq <= inject_Z (2 ^ 51)).
  { unfold Tq. rewrite <- Zle_Qle. nia. }
  assert (Ht : t * gq == Tq).
  { unfold t. fold gq Tq. field. lra. }
  assert (Hd : 3 * u53 * t * gq <= 3 # 4).
  { setoid_replace (3 * u53 * t * gq) with (3 * u53 * (t * gq)) by ring.
    rewrite Ht.
    apply Qle_trans with (3 * u53 * inject_Z (2 ^ 51));
      [|vm_compute; discriminate].
    apply Qmult_le_l; [|exact HT51].
    destruct u53_small. lra. }
  assert (U1 : (c - t) * gq <= 3 * u53 * t * gq).
  { apply Qmult_le_compat_r; lra. }
  assert (U2 : (t - c) * gq <= 3 * u53 * t * gq).
  { apply Qmult_le_compat_r; lra. }
  assert (B1 : c * gq <= Tq + (3 # 4)).
  { setoid_replace (c * gq) with ((c - t) * gq + t * gq) by ring. lra. }
  assert (B2 : Tq - (3 # 4) <= c * gq).
  { setoid_replace (c * gq) with (t * gq - (t - c) * gq) by ring. lra. }
  assert (Hc63 : c < inject_Z (2 ^ 63)).
  { apply Qle_lt_trans with (c * gq).
    - assert (Hm : 0 <= c * (gq - 1)) by (apply Qmult_le_0_compat; lra).
      setoid_replace (c * gq) with (c + c * (gq - 1)) by ring. lra.
    - apply Qle_lt_trans with (inject_Z (2 ^ 51) + (3 # 4)); [lra|].
      vm_compute. reflexivity. }
  unfold x, kp_coord. rewrite Hc, astype_int_floor by assumption.
  set (z := Qfloor c).
  pose proof (Qfloor_le c) as Z1. pose proof (Qlt_floor c) as Z2.
  fold z in Z1, Z2. rewrite inject_Z_plus in Z2.
  change (inject_Z 1) with 1 in Z2.
  assert (Z1g : inject_Z z * gq <= c * gq).
  { apply Qmult_le_compat_r; lra. }
  assert (Z2g : c * gq < (inject_Z z + 1) * gq).
  { apply Qmult_lt_r; lra. }
  split; [|split].
  - change 0%Z with (Qfloor 0). now apply Qfloor_resp_le.
  - apply Z.lt_succ_r. rewrite Zlt_Qlt.
    unfold Z.succ. rewrite inject_Z_plus, inject_Z_mult.
    fold gq Tq. change (inject_Z 1) with 1. lra.
  - apply Z.lt_succ_r. rewrite Zlt_Qlt.
    unfold Z.succ. rewrite inject_Z_plus, inject_Z_mult, inject_Z_plus.
    fold gq Tq. change (inject_Z 1) with 1. lra.
Qed.


Lemma kp_coord_bounds (F G k : nat) :
  (1 <= F)%nat -> (k < G)%nat -> (Z.of_nat (F * G) <= 2 ^ 51)%Z ->
  (0 <= kp_coord (axis_scale F G) k < Z.of_nat F)%Z.
Proof.
  intros HF Hk Hsz.
  destruct (kp_coord_bracket F G k HF Hk Hsz) as [H0 [H1 _]].
  split; [exact H0|]. nia.
Qed.


Lemma kp_coord_identity (F k : nat) :
  (1 <= F)%nat -> (Z.of_nat k < 2 ^ 53)%Z -> (Z.of_nat F < 2 ^ 53)%Z ->
  kp_coord (axis_scale F F) k = Z.of_nat k.
Proof.
  intros HF Hk HF53. unfold kp_coord, axis_scale.
  rewrite !float_of_int_exact by lia. unfold fdiv.
  assert (HFq : (1 <= inject_Z (Z.of_nat F))%Q) by (rewrite <- (Zle_Qle 1); lia).
  assert (HF0 : Qeq_bool (inject_Z (Z.of_nat F)) 0 = false).
  { destruct (Qeq_bool _ 0) eqn:E; [|reflexivity].
    apply Qeq_bool_iff in E. lra. }
  rewrite HF0.
  assert (H1 : rnd (inject_Z (Z.of_nat F) / inject_Z (Z.of_nat F)) = Fin 1).
  { unfold rnd.
    rewrite (fl_comp _ 1) by (field; lra). reflexivity. }
  rewrite H1. unfold fmul.
  assert (Hk' : rnd (1 * inject_Z (Z.of_nat k)) = Fin (inject_Z (Z.of_nat k))).
  { unfold rnd. rewrite (fl_comp _ (inject_Z (Z.of_nat k))) by ring.
    apply (float_of_int_exact (Z.of_nat k)). lia. }
  rewrite Hk'. rewrite astype_int_floor.
  - apply Qfloor_Z.
  - rewrite <- (Zle_Qle 0). lia.
  - rewrite <- Zlt_Qlt. lia.
Qed.

End ProjectorRounding.


Lemma getKP2d_pixels gridRows gridCols (mulFac : npfloat * npfloat) kpInds :
  Forall (fun f => f < gridRows * gridCols) kpInds ->
  getKP2d kpInds (gridRows, gridCols) mulFac =
  Some (map (fun f => (kp_x gridCols mulFac f, kp_y gridCols mulFac f)) kpInds).
Proof.
  intros Hin. unfold getKP2d. apply omap_total. intros f Hf.
  rewrite Forall_forall in Hin. specialize (Hin f Hf).
  unfold unravel_index.
  destruct (Nat.ltb_spec f (gridRows * gridCols)); [|lia]. reflexivity.
Qed.

Lemma getKpDep_lookup gridRows gridCols (mulFac : npfloat * npfloat) kpInds
      depImg :
  Forall (fun f => f < gridRows * gridCols) kpInds ->
  getKpDep kpInds depImg (gridRows, gridCols) mulFac =
  omap (fun f => getitem2 depImg (kp_y gridCols mulFac f)
                          (kp_x gridCols mulFac f)) kpInds.
Proof.
  intros Hin. unfold getKpDep.
  rewrite (getKP2d_pixels gridRows gridCols mulFac kpInds Hin).
  simpl. rewrite omap_map. reflexivity.
Qed.

Lemma getitem_in_range {A} (l : list A) (i : Z) d :
  (0 <= i < Z.of_nat (length l))%Z ->
  getitem l i = Some (nth (Z.to_nat i) l d).
Proof.
  intros H. unfold getitem, py_index.
  destruct (Z.leb_spec 0 i); [|lia].
  destruct (Z.ltb_spec i (Z.of_nat (length l))); [|lia]. simpl.
  apply nth_error_nth'. lia.
Qed.

(** The pixels of the cells of a grid, for sizes within the bound. *)
Lemma kp_pixel_bounds gridRows gridCols fullRows fullCols f :
  f < gridRows * gridCols ->
  0 < fullRows -> 0 < fullCols ->
  (Z.of_nat (fullRows * gridRows) <= 2 ^ 51)%Z ->
  (Z.of_nat (fullCols * gridCols) <= 2 ^ 51)%Z ->
  let mulFac := (axis_scale fullRows gridRows, axis_scale fullCols gridCols) in
  (0 <= kp_x gridCols mulFac f < Z.of_nat fullCols)%Z /\
  (0 <= kp_y gridCols mulFac f < Z.of_nat fullRows)%Z.
Proof.
  intros Hf HfR HfC HsR HsC mulFac.
  assert (HgC : 0 < gridCols) by (destruct gridCols; lia).
  assert (Hc : f mod gridCols < gridCols) by (apply Nat.mod_upper_bound; lia).
  assert (Hr : f / gridCols < gridRows).
  { apply Nat.Div0.div_lt_upper_bound. lia. }
  split.
  - apply (kp_coord_bounds fullCols gridCols (f mod gridCols)); assumption.
  - apply (kp_coord_bounds fullRows gridRows (f / gridCols)); assumption.
Qed.

(** With [mulFac_dep2c5] and a depth map of the full extent, every
    projected keypoint is a pixel of the map. *)
Lemma getKpDep_entries gridRows gridCols fullRows fullCols kpInds
      (depImg : depthmap) :
  Forall (fun f => f < gridRows * gridCols) kpInds ->
  length depImg = fullRows ->
  Forall (fun r => length r = fullCols) depImg ->
  0 < fullRows -> 0 < fullCols ->
  (Z.of_nat (fullRows * gridRows) <= 2 ^ 51)%Z ->
  (Z.of_nat (fullCols * gridCols) <= 2 ^ 51)%Z ->
  let mulFac := (axis_scale fullRows gridRows, axis_scale fullCols gridCols) in
  getKpDep kpInds depImg (gridRows, gridCols) mulFac =
  Some (map (fun f => nth (Z.to_nat (kp_x gridCols mulFac f))
                          (nth (Z.to_nat (kp_y gridCols mulFac f))
                               depImg []) 0%Q) kpInds).
Proof.
  intros Hin Hrows Hcols HfR HfC HsR HsC mulFac.
  rewrite getKpDep_lookup by exact Hin.
  apply omap_total. intros f Hf.
  rewrite Forall_forall in Hin. specialize (Hin f Hf).
  destruct (kp_pixel_bounds gridRows gridCols fullRows fullCols f
              Hin HfR HfC HsR HsC) as [Hx Hy].
  fold mulFac in Hx, Hy.
  unfold getitem2.
  rewrite (getitem_in_range depImg _ []) by lia. simpl.
  assert (Hlen : length (nth (Z.to_nat (kp_y gridCols mulFac f))
                             depImg []) = fullCols).
  { rewrite Forall_forall in Hcols. apply Hcols. apply nth_In. lia. }
  apply getitem_in_range. lia.
Qed.




(* ------------------------------------------------------------------ *)
(** ** Global Retrieval *)

Lemma insert_index_perm col i sorted :
  Permutation (insert_index col i sorted) (i :: sorted).
Proof.
  induction sorted as [|j rest IH]; simpl; [apply Permutation_refl|].
  destruct (Qle_bool (nth i col 0%Q) (nth j col 0%Q)).
  - apply Permutation_refl.
  - eapply Permutation_trans; [apply perm_skip, IH|apply perm_swap].
Qed.

Lemma insert_index_sorted col i sorted :
  StronglySorted (fun a b => (nth a col 0 <= nth b col 0)%Q) sorted ->
  StronglySorted (fun a b => (nth a col 0 <= nth b col 0)%Q)
                 (insert_index col i sorted).
Proof.
  induction sorted as [|j rest IH]; simpl; intros Hs.
  - repeat constructor.
  - inversion Hs as [|? ? Hrest Hall]; subst.
    destruct (Qle_bool (nth i col 0%Q) (nth j col 0%Q)) eqn:E.
    + apply Qle_bool_iff in E. constructor; [exact Hs|].
      constructor; [exact E|].
      eapply Forall_impl; [|exact Hall]. intros a Ha.
      eapply Qle_trans; eassumption.
    + assert (Hji : (nth j col 0 <= nth i col 0)%Q).
      { apply Qlt_le_weak. apply Qnot_le_lt. intros Hle.
        apply Qle_bool_iff in Hle. congruence. }
      constructor; [apply IH; exact Hrest|].
      apply Forall_forall. intros a Ha.
      apply (Permutation_in _ (insert_index_perm col i rest)) in Ha.
      destruct Ha as [<- | Ha]; [exact Hji|].
      rewrite Forall_forall in Hall. now apply Hall.
Qed.

Lemma argsort_is_argsort col : is_argsort col (argsort col).
Proof.
  unfold is_argsort, argsort. generalize (seq 0 (length col)) as l.
  intros l. induction l as [|i l [IHp IHs]]; simpl.
  - split; constructor.
  - split.
    + eapply Permutation_trans; [apply insert_index_perm|].
      now apply perm_skip.
    + now apply insert_index_sorted.
Qed.

Lemma In_firstn {A} (x : A) n l : In x (firstn n l) -> In x l.
Proof.
  intros H. rewrite <- (firstn_skipn n l). apply in_or_app. now left.
Qed.

Lemma StronglySorted_firstn {A} (R : A -> A -> Prop) n l :
  StronglySorted R l -> StronglySorted R (firstn n l).
Proof.
  revert n. induction l as [|a l IH]; intros [|n] Hs; simpl; try constructor.
  - inversion Hs; subst. now apply IH.
  - inversion Hs as [|? ? _ Hall]; subst.
    apply Forall_forall. intros b Hb. rewrite Forall_forall in Hall.
    apply Hall. eapply In_firstn. exact Hb.
Qed.

(** The first [topN] entries of any argsort of a column. *)
Lemma is_argsort_firstn col idx topN :
  is_argsort col idx ->
  let top := firstn topN idx in
  length top = Nat.min topN (length col) /\
  (forall i, In i top -> i < length col) /\
  NoDup top /\
  StronglySorted (fun i j => (nth i col 0 <= nth j col 0)%Q) top /\
  (forall i j, In i top -> j < length col -> ~ In j top ->
               (nth i col 0 <= nth j col 0)%Q) /\
  (forall i0, nth_error top 0 = Some i0 ->
              forall j, j < length col -> (nth i0 col 0 <= nth j col 0)%Q) /\
  (1 <= topN -> 1 <= length col -> exists i0, nth_error top 0 = Some i0).
Proof.
  intros [Hp Hs] top.
  assert (Hlen : length idx = length col).
  { rewrite (Permutation_length Hp). apply length_seq. }
  assert (Hnd : NoDup idx).
  { eapply Permutation_NoDup; [apply Permutation_sym; exact Hp|].
    apply seq_NoDup. }
  assert (Hall : forall j, j < length col -> In j idx).
  { intros j Hj. eapply Permutation_in; [apply Permutation_sym; exact Hp|].
    apply in_seq. lia. }
  assert (Hsplit : idx = top ++ skipn topN idx)
    by (symmetry; apply firstn_skipn).
  assert (Hcross : forall i j, In i top -> In j (skipn topN idx) ->
                               (nth i col 0 <= nth j col 0)%Q).
  { rewrite Hsplit in Hs. clear - Hs. fold top.
    induction top as [|a t IH]; simpl in *; intros i j Hi Hj; [tauto|].
    inversion Hs as [|? ? Hrest Hfa]; subst.
    destruct Hi as [<- | Hi].
    - rewrite Forall_forall in Hfa. apply Hfa. apply in_or_app. now right.
    - now apply IH. }
  split; [|split; [|split; [|split; [|split; [|split]]]]].
  - unfold top. rewrite length_firstn, Hlen. reflexivity.
  - intros i Hi. apply In_firstn in Hi.
    apply (Permutation_in _ Hp) in Hi. apply in_seq in Hi. lia.
  - rewrite Hsplit in Hnd. eapply NoDup_app_remove_r. exact Hnd.
  - now apply StronglySorted_firstn.
  - intros i j Hi Hj Hnj. apply Hcross; [exact Hi|].
    specialize (Hall j Hj). rewrite Hsplit in Hall.
    apply in_app_or in Hall. tauto.
  - intros i0 H0 j Hj.
    destruct top as [|a t] eqn:Et; [discriminate|].
    simpl in H0. injection H0 as <-.
    specialize (Hall j Hj). rewrite Hsplit in Hall.
    apply in_app_or in Hall. destruct Hall as [[<- | Hjt] | Hjs].
    + apply Qle_refl.
    + assert (Hst : StronglySorted (fun i j => (nth i col 0 <= nth j col 0)%Q)
                                   (a :: t)).
      { rewrite <- Et. now apply StronglySorted_firstn. }
      inversion Hst as [|? ? _ Hfa]; subst.
      rewrite Forall_forall in Hfa. now apply Hfa.
    + apply Hcross; [now left|exact Hjs].
  - intros HN HR. unfold top. destruct idx as [|a idx'].
    + simpl in Hlen. lia.
    + destruct topN; [lia|]. simpl. eauto.
Qed.

Lemma nth_map_seq {A} (F : nat -> A) n q d :
  q < n -> nth q (map F (seq 0 n)) d = F q.
Proof.
  intros H. rewrite (nth_indep _ d (F 0)) by (now rewrite length_map, length_seq).
  rewrite map_nth, seq_nth by exact H. reflexivity.
Qed.

Lemma map_nth_seq {A} (l : list A) d :
  map (fun i => nth i l d) (seq 0 (length l)) = l.
Proof.
  induction l as [|a l IH]; [reflexivity|].
  simpl. f_equal. rewrite <- seq_shift, map_map. exact IH.
Qed.

Lemma column_topMatches_of distMat topN q :
  q < shape1 distMat ->
  column 0 (topMatches_of distMat topN) q =
  firstn topN (argsort (column 0%Q distMat q)).
Proof.
  intros Hq. unfold topMatches_of, column at 1.
  rewrite <- firstn_map. f_equal. unfold argsort_axis0.
  rewrite map_map.
  set (idx := argsort (column 0%Q distMat q)).
  assert (Hlen : length idx = length distMat).
  { destruct (argsort_is_argsort (column 0%Q distMat q)) as [Hp _].
    fold idx in Hp. rewrite (Permutation_length Hp), length_seq.
    unfold column. apply length_map. }
  rewrite <- Hlen.
  rewrite <- (map_nth_seq idx 0) at 2.
  apply map_ext_in. intros i _.
  rewrite nth_map_seq by exact Hq. reflexivity.
Qed.

(** C6, as stated, fails: with fewer reference rows than [topN] the
    extracted list is shorter than [topN]. *)
Lemma topMatches_of_fewer_than_topN :
  let distMat := [[1%Q]] in
  0 < shape1 distMat /\
  column 0 (topMatches_of distMat 2) 0 = [0] /\
  length (column 0 (topMatches_of distMat 2) 0) <> 2.
Proof. simpl. repeat split; [lia|discriminate]. Qed.

(** C6 (amended): for every query column [q] of the distance matrix, the
    candidate list [topMatches[:, q]] holds [min(topN, R)] distinct
    reference row indices ([topN] of them when the matrix has at least
    [topN] rows), their distances are sorted ascending and are the smallest
    of the column, and when [topN >= 1] and [R >= 1] the index at position 0
    exists and attains the minimum distance of the column. *)
Theorem topMatches_of_column_spec (distMat : list (list Q)) (topN q : nat) :
  q < shape1 distMat ->
  let col := column 0%Q distMat q in
  let top := column 0 (topMatches_of distMat topN) q in
  length top = Nat.min topN (length distMat) /\
  (forall i, In i top -> i < length distMat) /\
  NoDup top /\
  StronglySorted (fun i j => (nth i col 0 <= nth j col 0)%Q) top /\
  (forall i j, In i top -> j < length distMat -> ~ In j top ->
               (nth i col 0 <= nth j col 0)%Q) /\
  (forall i0, nth_error top 0 = Some i0 ->
              forall j, j < length distMat -> (nth i0 col 0 <= nth j col 0)%Q) /\
  (1 <= topN -> 1 <= length distMat -> exists i0, nth_error top 0 = Some i0).
Proof.
  intros Hq col top. unfold top. rewrite (column_topMatches_of distMat topN q Hq).
  fold col.
  assert (Hlen : length col = length distMat) by apply length_map.
  rewrite <- Hlen.
  apply is_argsort_firstn. apply argsort_is_argsort.
Qed.

Lemma topMatches_of_column_spec_witness :
  let distMat := [[3; 1]; [1; 2]; [2; 3]]%Q in
  column 0 (topMatches_of distMat 2) 0 = [1; 2] /\
  length (column 0 (topMatches_of distMat 2) 0) = Nat.min 2 (length distMat).
Proof.
  intros distMat.
  assert (Hq : 0 < shape1 distMat) by (simpl; lia).
  destruct (topMatches_of_column_spec distMat 2 0 Hq) as [Hlen _].
  split; [reflexivity|exact Hlen].
Defined.

(* ------------------------------------------------------------------ *)
(** ** Pairwise Descriptor Distance *)

Lemma rnd_comp q q' : (q == q')%Q -> rnd q = rnd q'.
Proof. intros H. unfold rnd. now rewrite (fl_comp q q' H). Qed.

Lemma fmul_comm a b : fmul a b = fmul b a.
Proof.
  destruct a as [| | |x], b as [| | |y]; try reflexivity.
  simpl. apply rnd_comp. ring.
Qed.

Lemma zip_with_comm {A B} (f : A -> A -> B) l1 l2 :
  (forall a b, f a b = f b a) -> zip_with f l1 l2 = zip_with f l2 l1.
Proof.
  intros Hf. revert l2. induction l1 as [|a l1 IH]; intros [|b l2];
    try reflexivity.
  simpl. now rewrite Hf, IH.
Qed.

Lemma dotQ_sym a b : dotQ a b = dotQ b a.
Proof.
  unfold dotQ. f_equal. apply zip_with_comm. intros x y. apply fmul_comm.
Qed.

Lemma cosine_distance_sym a b : cosine_distance a b = cosine_distance b a.
Proof.
  unfold cosine_distance. now rewrite dotQ_sym, fmul_comm.
Qed.

Lemma broadcast_shape_same n : broadcast_shape n n = Some n.
Proof. unfold broadcast_shape. now rewrite Nat.eqb_refl. Qed.

Lemma broadcast_shape_comm n1 n2 :
  broadcast_shape n1 n2 = broadcast_shape n2 n1.
Proof.
  unfold broadcast_shape. rewrite (Nat.eqb_sym n2 n1).
  destruct (Nat.eqb_spec n1 n2) as [->|Hne]; [reflexivity|].
  destruct (Nat.eqb_spec n1 1) as [->|H1];
    destruct (Nat.eqb_spec n2 1) as [->|H2]; congruence.
Qed.

Lemma broadcast_to_same {A} n (l : list A) :
  length l = n -> broadcast_to n l = Some l.
Proof. intros H. unfold broadcast_to. now rewrite H, Nat.eqb_refl. Qed.

(** Two arrays of one shape: one distance per pair of rows. *)
Lemma get_cosine_same_shape w (d1 d2 : list row) :
  length d1 = length d2 ->
  Forall (fun r => length r = w) d1 ->
  Forall (fun r => length r = w) d2 ->
  get_cosine_corresponding_vectors w w d1 d2 =
  Some (map (fun p => cosine_distance (fst p) (snd p)) (combine d1 d2)).
Proof.
  intros Hlen H1 H2. unfold get_cosine_corresponding_vectors.
  rewrite Hlen, !broadcast_shape_same. cbn [obind].
  rewrite (broadcast_to_same (length d2) d1 Hlen).
  rewrite (broadcast_to_same (length d2) d2 eq_refl). cbn [obind].
  apply omap_total. intros [a b] Hab. cbn [fst snd].
  rewrite Forall_forall in H1, H2.
  rewrite (broadcast_to_same w a (H1 a (in_combine_l _ _ _ _ Hab))).
  rewrite (broadcast_to_same w b (H2 b (in_combine_r _ _ _ _ Hab))).
  reflexivity.
Qed.

(* ------------------------------------------------------------------ *)
(** ** Minimum across the window and the sentinel *)

Lemma Qle_bool_false x y : Qle_bool x y = false -> (y < x)%Q.
Proof.
  intros H. apply Qnot_le_lt. intros L. apply Qle_bool_iff in L. congruence.
Qed.

Ltac qbool :=
  repeat match goal with
         | H : Qle_bool _ _ = true |- _ => apply Qle_bool_iff in H
         | H : Qle_bool _ _ = false |- _ => apply Qle_bool_false in H
         | H : Qeq_bool _ _ = true |- _ => apply Qeq_bool_iff in H
         | H : Qeq_bool _ _ = false |- _ => apply Qeq_bool_neq in H
         end.

Section Sentinel.
Local Open Scope Q_scope.

Lemma fmin_sentinel_r v : below 100 v -> fmin v (Fin 100) = v.
Proof.
  destruct v as [| | |x]; simpl; intros H; try reflexivity; [contradiction|].
  assert (E : Qle_bool x 100 = true).
  { apply Qle_bool_iff. now apply Qlt_le_weak. }
  now rewrite E.
Qed.

Lemma fmin_sentinel_l v : below 100 v -> fmin (Fin 100) v = v.
Proof.
  destruct v as [| | |x]; simpl; intros H; try reflexivity; [contradiction|].
  destruct (Qle_bool 100 x) eqn:E; [|reflexivity].
  apply Qle_bool_iff in E. exfalso. exact (Qlt_not_le _ _ H E).
Qed.

Lemma below_fmin b a x : below b a -> below b (fmin a x).
Proof.
  destruct a as [| | |u], x as [| | |w]; simpl; try tauto.
  intros H. destruct (Qle_bool u w) eqn:E; simpl; [exact H|].
  destruct (Qlt_le_dec w u) as [L|L].
  - eapply Qlt_trans; eassumption.
  - apply Qle_bool_iff in L. congruence.
Qed.

Lemma below_fold b l a : below b a -> below b (fold_left fmin l a).
Proof.
  revert a. induction l as [|x l IH]; intros a H; simpl; [exact H|].
  apply IH. now apply below_fmin.
Qed.

Lemma fold_cells_filter {K} (p : K -> bool) (v : K -> npfloat) window a :
  (forall k, In k window -> p k = true -> below 100 (v k)) ->
  below 100 a ->
  fold_left fmin (map (fun k => if p k then v k else Fin 100) window) a =
  fold_left fmin (map v (filter p window)) a.
Proof.
  revert a. induction window as [|k w IH]; intros a Hv Ha; simpl;
    [reflexivity|].
  destruct (p k) eqn:E; simpl.
  - apply IH; [intros; apply Hv; auto; now right|].
    now apply below_fmin.
  - rewrite fmin_sentinel_r by exact Ha.
    apply IH; [intros; apply Hv; auto; now right|exact Ha].
Qed.

Lemma fold_cells_sentinel {K} (p : K -> bool) (v : K -> npfloat) window :
  (forall k, In k window -> p k = true -> below 100 (v k)) ->
  fold_left fmin (map (fun k => if p k then v k else Fin 100) window)
            (Fin 100) =
  match filter p window with
  | [] => Fin 100
  | _ => min_or_nan (map v (filter p window))
  end.
Proof.
  induction window as [|k w IH]; intros Hv; [reflexivity|].
  cbn [map fold_left filter]. destruct (p k) eqn:E.
  - rewrite fmin_sentinel_l by (apply Hv; auto; now left).
    rewrite fold_cells_filter;
      [reflexivity|intros; apply Hv; auto; now right|].
    apply Hv; auto. now left.
  - change (fmin (Fin 100) (Fin 100)) with (Fin 100).
    apply IH. intros; apply Hv; auto. now right.
Qed.

(** The minimum of a table row: the best distance over the frames in
    which the channel is valid, or the sentinel if there is none, as long
    as every distance of a valid frame is NaN or below the sentinel. *)
Lemma np_min_row {K} (p : K -> bool) (v : K -> npfloat) window :
  (forall k, In k window -> p k = true -> below 100 (v k)) ->
  window <> [] ->
  np_min (map (fun k => if p k then v k else Fin 100) window) =
  Some (match filter p window with
        | [] => Fin 100
        | _ => min_or_nan (map v (filter p window))
        end).
Proof.
  intros Hv Hne. destruct window as [|k w]; [congruence|].
  cbn [map np_min filter]. f_equal. destruct (p k) eqn:E.
  - rewrite fold_cells_filter;
      [reflexivity|intros; apply Hv; auto; now right|].
    apply Hv; auto. now left.
  - apply fold_cells_sentinel. intros; apply Hv; auto. now right.
Qed.

Lemma fne_sentinel : fne (Fin 100) 100 = false.
Proof. reflexivity. Qed.

Lemma fne_below v : below 100 v -> fne v 100 = true.
Proof.
  destruct v as [| | |x]; simpl; try reflexivity. intros H.
  destruct (Qeq_bool x 100) eqn:E; [|reflexivity].
  apply Qeq_bool_iff in E. rewrite E in H. discriminate H.
Qed.

Lemma min_or_nan_below b l :
  l <> [] -> Forall (below b) l -> below b (min_or_nan l).
Proof.
  destruct l as [|x l]; [congruence|]. intros _ H.
  unfold min_or_nan. simpl. apply below_fold. now inversion H.
Qed.

(** A minimum is at or above the sentinel when both arguments are. *)
Lemma fleb_fmin a x :
  fleb (Fin 100) (fmin a x) = fleb (Fin 100) a && fleb (Fin 100) x.
Proof.
  destruct a as [| | |u], x as [| | |w]; simpl; try reflexivity;
    try (now rewrite andb_true_r); try (now rewrite andb_false_r).
  destruct (Qle_bool u w) eqn:E1; simpl;
    destruct (Qle_bool 100 u) eqn:E2; destruct (Qle_bool 100 w) eqn:E3;
    try reflexivity; qbool; exfalso; lra.
Qed.

(** Among values at or above the sentinel, a minimum differs from it when
    both arguments do. *)
Lemma fne_fmin a x :
  fleb (Fin 100) a = true -> fleb (Fin 100) x = true ->
  fne (fmin a x) 100 = fne a 100 && fne x 100.
Proof.
  destruct a as [| | |u], x as [| | |w]; simpl; try discriminate;
    try reflexivity; try (now rewrite andb_true_r).
  intros Hu Hw.
  destruct (Qle_bool u w) eqn:E1; simpl;
    destruct (Qeq_bool u 100) eqn:E2; destruct (Qeq_bool w 100) eqn:E3;
    try reflexivity; qbool; exfalso;
    first [apply E2; lra | apply E3; lra | lra].
Qed.

Lemma fne_fleb v : fne v 100 = false -> fleb (Fin 100) v = true.
Proof.
  destruct v as [| | |x]; simpl; try discriminate. intros H.
  apply negb_false_iff in H. qbool. apply Qle_bool_iff. lra.
Qed.

Lemma fold_fmin_ge l a :
  fleb (Fin 100) (fold_left fmin l a) =
  fleb (Fin 100) a && forallb (fleb (Fin 100)) l.
Proof.
  revert a. induction l as [|x l IH]; intros a; cbn [fold_left forallb].
  - now rewrite andb_true_r.
  - now rewrite IH, fleb_fmin, andb_assoc.
Qed.

Lemma fold_fmin_ne l a :
  fleb (Fin 100) a = true -> forallb (fleb (Fin 100)) l = true ->
  fne (fold_left fmin l a) 100 =
  fne a 100 && forallb (fun e => fne e 100) l.
Proof.
  revert a. induction l as [|x l IH]; intros a Ha Hl; cbn [fold_left forallb].
  - now rewrite andb_true_r.
  - cbn [forallb] in Hl. apply andb_true_iff in Hl. destruct Hl as [Hx Hl].
    rewrite IH; [|rewrite fleb_fmin, Ha, Hx; reflexivity|exact Hl].
    now rewrite fne_fmin, andb_assoc by assumption.
Qed.

Lemma forallb_false_exists {A} (f : A -> bool) l :
  forallb f l = false <-> exists x, In x l /\ f x = false.
Proof.
  induction l as [|a l IH]; simpl.
  - split; [discriminate|intros [x [[] _]]].
  - destruct (f a) eqn:E; simpl.
    + rewrite IH. split; intros [x [Hx Hf]]; exists x.
      * split; [now right|exact Hf].
      * destruct Hx as [<-|Hx]; [congruence|]. now split.
    + split; [|reflexivity]. intros _. exists a. split; [now left|exact E].
Qed.

(** The minimum of a list is the sentinel exactly when no entry is NaN or
    below it, and one entry is the sentinel. *)
Lemma min_or_nan_sentinel l :
  fne (min_or_nan l) 100 = false <->
  forallb (fleb (Fin 100)) l = true /\
  exists e, In e l /\ fne e 100 = false.
Proof.
  destruct l as [|a l].
  - simpl. split; [discriminate|intros [_ [e [[] _]]]].
  - unfold min_or_nan, np_min. split.
    + intros H. pose proof (fne_fleb _ H) as Hge.
      rewrite fold_fmin_ge in Hge. split; [exact Hge|].
      apply andb_true_iff in Hge. destruct Hge as [Ha Hl].
      rewrite fold_fmin_ne in H by assumption.
      apply (forallb_false_exists (fun e => fne e 100) (a :: l)). exact H.
    + intros [Hge Hex]. cbn [forallb] in Hge. apply andb_true_iff in Hge.
      destruct Hge as [Ha Hl]. rewrite fold_fmin_ne by assumption.
      apply (forallb_false_exists (fun e => fne e 100) (a :: l)). exact Hex.
Qed.

(** Fewer valid frames: a row whose minimum is the sentinel keeps it. *)
Lemma row_sentinel_monotone {K} (p1 p2 : K -> bool) (v : K -> npfloat) window :
  (forall k, p1 k = true -> p2 k = true) ->
  fne (min_or_nan (map (fun k => if p2 k then v k else Fin 100) window)) 100
  = false ->
  fne (min_or_nan (map (fun k => if p1 k then v k else Fin 100) window)) 100
  = false.
Proof.
  intros Hp H. apply min_or_nan_sentinel in H. destruct H as [Hge [e [He Hne]]].
  apply min_or_nan_sentinel. split.
  - apply forallb_forall. intros x Hx. apply in_map_iff in Hx.
    destruct Hx as [k [<- Hk]].
    rewrite forallb_forall in Hge.
    destruct (p1 k) eqn:E1; [|reflexivity].
    specialize (Hge (if p2 k then v k else Fin 100)
                    (in_map (fun k => if p2 k then v k else Fin 100) _ k Hk)).
    now rewrite (Hp k E1) in Hge.
  - apply in_map_iff in He. destruct He as [k [<- Hk]].
    exists (if p1 k then v k else Fin 100). split.
    + exact (in_map (fun k => if p1 k then v k else Fin 100) _ k Hk).
    + destruct (p1 k) eqn:E1; [|reflexivity].
      now rewrite (Hp k E1) in Hne.
Qed.

End Sentinel.

(* ------------------------------------------------------------------ *)
(** ** Running computations *)

Lemma readonly_ret {A} (a : A) : readonly (ret a).
Proof. intros g a' g' H. unfold ret in H. congruence. Qed.

Lemma readonly_gets {A} (f : Globals -> A) : readonly (gets f).
Proof. intros g a' g' H. unfold gets in H. congruence. Qed.

Lemma readonly_lift {A} (o : option A) : readonly (lift o).
Proof. intros g a' g' H. unfold lift in H. destruct o; congruence. Qed.

Lemma readonly_bind {A B} (m : M A) (f : A -> M B) :
  readonly m -> (forall a, readonly (f a)) -> readonly (bind m f).
Proof.
  intros Hm Hf g b g' H. unfold bind in H.
  destruct (m g) as [[a g1]|] eqn:E; [|discriminate].
  apply Hm in E. subst g1. eapply Hf. exact H.
Qed.

Lemma readonly_forM {A B} (l : list A) (f : A -> M B) :
  (forall a, readonly (f a)) -> readonly (forM l f).
Proof.
  intros Hf. induction l as [|a l IH]; simpl.
  - apply readonly_ret.
  - apply readonly_bind; [apply Hf|]. intros b.
    apply readonly_bind; [exact IH|]. intros bs. apply readonly_ret.
Qed.

Lemma readonly_foldM {A S} (f : S -> A -> M S) (l : list A) (s : S) :
  (forall s a, readonly (f s a)) -> readonly (foldM f l s).
Proof.
  intros Hf. revert s. induction l as [|a l IH]; intros s; simpl.
  - apply readonly_ret.
  - apply readonly_bind; [apply Hf|]. intros s'. apply IH.
Qed.

Ltac readonly_step :=
  repeat first
    [ apply readonly_ret | apply readonly_gets | apply readonly_lift
    | apply readonly_forM; intros ?
    | apply readonly_foldM; intros ? ?
    | apply readonly_bind; [|intros ?] ].

Lemma readonly_matchData_frame q kp2 sh mf T distMat lck1 :
  readonly (matchData_frame q kp2 sh mf T distMat lck1).
Proof. unfold matchData_frame. readonly_step. Qed.

Lemma readonly_matchData_candidate q kp2 sh mf nr sl T rIdx :
  readonly (matchData_candidate q kp2 sh mf nr sl T rIdx).
Proof.
  unfold matchData_candidate, matchData_minDists, matchData_table.
  readonly_step.
Qed.

Lemma readonly_matchData q cands sh mf nr nf sl T :
  readonly (matchData q cands sh mf nr nf sl T).
Proof.
  unfold matchData. readonly_step.
Qed.

Lemma readonly_processQueryIndex qIdx : readonly (processQueryIndex qIdx).
Proof.
  unfold processQueryIndex. readonly_step.
Qed.

(* ------------------------------------------------------------------ *)
(** ** Candidate Re-ranker: [matchData] on well-shaped arrays *)

Lemma argmax_from_bound best bi i l :
  bi < i -> argmax_from best bi i l < i + length l.
Proof.
  revert best bi i. induction l as [|x l IH]; intros best bi i H; simpl.
  - lia.
  - destruct (Qltb best x).
    + specialize (IH x i (S i) ltac:(lia)). lia.
    + specialize (IH best bi (S i) ltac:(lia)). lia.
Qed.

Lemma keypoint_bound t c : 0 < length t -> keypoint t c < length t.
Proof.
  intros H. unfold keypoint, argmax, column.
  destruct t as [|r t]; [simpl in H; lia|]. simpl map.
  pose proof (argmax_from_bound (nth c r 0%Q) 0 1
                (map (fun r0 => nth c r0 0%Q) t) ltac:(lia)) as Hb.
  rewrite length_map in Hb.
  change (length (r :: t)) with (1 + length t). exact Hb.
Qed.

Lemma argmax_axis0_keypoints t C :
  0 < length t -> Forall (fun r => length r = C) t ->
  argmax_axis0 t = Some (map (keypoint t) (seq 0 C)).
Proof.
  intros Hlen Hcols. unfold argmax_axis0.
  destruct t as [|r t]; [simpl in Hlen; lia|].
  assert (Hs : shape1 (r :: t) = C) by (inversion Hcols; assumption).
  rewrite Hs. apply omap_total. intros c _. unfold keypoint.
  simpl. reflexivity.
Qed.

Lemma argwhere_from_map_seq {A} (p : A -> bool) (f : nat -> A) s n :
  argwhere_from p s (map f (seq s n)) = filter (fun c => p (f c)) (seq s n).
Proof.
  revert s. induction n as [|n IH]; intros s; simpl; [reflexivity|].
  rewrite IH. reflexivity.
Qed.

Lemma argwhere_map_seq {A} (p : A -> bool) (f : nat -> A) n :
  argwhere p (map f (seq 0 n)) = filter (fun c => p (f c)) (seq 0 n).
Proof. apply argwhere_from_map_seq. Qed.

Lemma take_map_seq {A} (F : nat -> A) n inds :
  Forall (fun c => c < n) inds ->
  take (map F (seq 0 n)) inds = Some (map F inds).
Proof.
  intros H. unfold take. apply omap_total. intros c Hc.
  rewrite Forall_forall in H. specialize (H c Hc).
  rewrite nth_error_map, nth_error_seq.
  destruct (Nat.ltb_spec c n); [reflexivity|lia].
Qed.

Lemma take_nth {A} (l : list A) (d : A) (F : nat -> nat) inds :
  (forall c, In c inds -> F c < length l) ->
  take l (map F inds) = Some (map (fun c => nth (F c) l d) inds).
Proof.
  intros H. unfold take. rewrite omap_map. apply omap_total.
  intros c Hc. apply nth_error_nth'. now apply H.
Qed.

Lemma cosine_of_maps w (A B : nat -> row) inds :
  (forall c, In c inds -> length (A c) = w /\ length (B c) = w) ->
  get_cosine_corresponding_vectors w w (map A inds) (map B inds) =
  Some (map (fun c => cosine_distance (A c) (B c)) inds).
Proof.
  intros H. rewrite get_cosine_same_shape.
  - f_equal. clear H. induction inds as [|c inds IH]; simpl; [reflexivity|].
    now rewrite IH.
  - now rewrite !length_map.
  - apply Forall_forall. intros r Hr. apply in_map_iff in Hr.
    destruct Hr as [c [<- Hc]]. now apply H.
  - apply Forall_forall. intros r Hr. apply in_map_iff in Hr.
    destruct Hr as [c [<- Hc]]. now apply H.
Qed.

Lemma set_nth_idem {A} i (v : A) l : set_nth i v (set_nth i v l) = set_nth i v l.
Proof.
  revert i. induction l as [|a l IH]; intros [|i]; simpl; auto.
  now rewrite IH.
Qed.

Lemma set_nth_app {A} (l1 : list A) x v l2 :
  set_nth (length l1) v (l1 ++ x :: l2) = l1 ++ v :: l2.
Proof. induction l1 as [|a l1 IH]; simpl; [reflexivity|]. now rewrite IH. Qed.

Lemma set_nth_map_seq {A} (R : nat -> A) x s n c0 :
  c0 < n ->
  set_nth c0 x (map R (seq s n)) =
  map (fun c => if c =? s + c0 then x else R c) (seq s n).
Proof.
  revert s c0. induction n as [|n IH]; intros s c0 H; [lia|].
  destruct c0 as [|c0]; simpl.
  - rewrite Nat.add_0_r, Nat.eqb_refl. f_equal.
    apply map_ext_in. intros c Hc. apply in_seq in Hc.
    destruct (Nat.eqb_spec c s); [lia|reflexivity].
  - destruct (Nat.eqb_spec s (s + S c0)); [lia|]. f_equal.
    rewrite IH by lia. apply map_ext. intros c.
    now replace (S s + c0) with (s + S c0) by lia.
Qed.

Lemma assign_col_seq (R : nat -> list npfloat) C inds lc (v : nat -> npfloat) :
  Forall (fun c => c < C) inds ->
  assign_col (map R (seq 0 C)) inds lc (map v inds) =
  Some (map (fun c => if existsb (Nat.eqb c) inds
                      then set_nth lc (v c) (R c) else R c) (seq 0 C)).
Proof.
  revert R. induction inds as [|c0 inds IH]; intros R Hin; simpl.
  - reflexivity.
  - inversion Hin as [|? ? Hc0 Hrest]; subst.
    rewrite nth_error_map, nth_error_seq.
    destruct (Nat.ltb_spec c0 C); [|lia]. simpl.
    rewrite set_nth_map_seq by exact Hc0. simpl.
    rewrite IH by exact Hrest. f_equal.
    apply map_ext. intros c.
    destruct (Nat.eqb_spec c c0) as [->|Hne]; simpl.
    + destruct (existsb (Nat.eqb c0) inds); [apply set_nth_idem|reflexivity].
    + reflexivity.
Qed.

Lemma existsb_eqb_filter (p : nat -> bool) C c :
  c < C -> existsb (Nat.eqb c) (filter p (seq 0 C)) = p c.
Proof.
  intros Hc. destruct (p c) eqn:Pc.
  - apply existsb_exists. exists c. split; [|apply Nat.eqb_refl].
    apply filter_In. split; [apply in_seq; lia|exact Pc].
  - destruct (existsb (Nat.eqb c) (filter p (seq 0 C))) eqn:E; [|reflexivity].
    apply existsb_exists in E. destruct E as [c' [Hin Heq]].
    apply Nat.eqb_eq in Heq. subst c'. apply filter_In in Hin.
    destruct Hin as [_ Hp]. congruence.
Qed.

Lemma Forall_filter_seq (p : nat -> bool) C :
  Forall (fun c => c < C) (filter p (seq 0 C)).
Proof.
  apply Forall_forall. intros c Hc. apply filter_In in Hc.
  destruct Hc as [Hc _]. apply in_seq in Hc. lia.
Qed.

Lemma repeat_map_seq {A} (x : A) s n : repeat x n = map (fun _ => x) (seq s n).
Proof.
  revert s. induction n as [|n IH]; intros s; simpl; [reflexivity|].
  now rewrite (IH (S s)).
Qed.

Section ReRanker.

Variable g : Globals.
Variable q : tensor.
Variables gridRows gridCols fullRows fullCols cells C numRef : nat.
Variable depThresh : Q.
Hypothesis WS : well_shaped g q gridRows gridCols fullRows fullCols cells C numRef.

Let mulFac : npfloat * npfloat :=
  (axis_scale fullRows gridRows, axis_scale fullCols gridCols).
Let valid (k : Z) (c : nat) : bool := passes g gridCols mulFac depThresh k c.
Let dist (k : Z) (c : nat) : npfloat := frame_distance g q k c.
Let kp2IndFlat : list nat := map (keypoint q) (seq 0 C).

Lemma ws_query_keypoints : argmax_axis0 q = Some kp2IndFlat.
Proof.
  apply argmax_axis0_keypoints; [apply (ws_query_rows WS)|apply (ws_query_cols WS)].
Qed.

Lemma ws_query_shape1 : shape1 q = C.
Proof.
  pose proof (ws_query_rows WS) as Hr. pose proof (ws_query_cols WS) as Hc.
  destruct q as [|r t]; [simpl in Hr; lia|]. now inversion Hc.
Qed.

Lemma ws_ref_frame k :
  (0 <= k < Z.of_nat numRef)%Z ->
  getitem (denseFtRefAll g) k = Some (ref_frame g k) /\
  length (ref_frame g k) = cells /\
  Forall (fun r => length r = C) (ref_frame g k).
Proof.
  intros Hk. pose proof (ws_ref_count WS) as Hn.
  split; [apply getitem_in_range; lia|].
  pose proof (ws_ref WS) as Hall. rewrite Forall_forall in Hall.
  apply Hall. apply nth_In. lia.
Qed.

Lemma ws_ref_depth k :
  (0 <= k < Z.of_nat numRef)%Z ->
  getitem (depImgRefAll g) k = Some (ref_depth g k) /\
  length (ref_depth g k) = fullRows /\
  Forall (fun r => length r = fullCols) (ref_depth g k).
Proof.
  intros Hk. pose proof (ws_dep_count WS) as Hn.
  split; [apply getitem_in_range; lia|].
  pose proof (ws_dep WS) as Hall. rewrite Forall_forall in Hall.
  apply Hall. apply nth_In. lia.
Qed.

(** One turn of the window loop writes, in column [lc], the distance of
    every channel that passes the depth filter in frame [k1], and leaves
    the other cells as they are. *)
Lemma matchData_frame_run (R : nat -> list npfloat) lc k1 :
  (0 <= k1 < Z.of_nat numRef)%Z ->
  matchData_frame q kp2IndFlat (gridRows, gridCols) mulFac depThresh
                  (map R (seq 0 C)) (lc, k1) g =
  Some (map (fun c => if valid k1 c then set_nth lc (dist k1 c) (R c) else R c)
            (seq 0 C), g).
Proof.
  intros Hk.
  destruct (ws_ref_frame k1 Hk) as [Hget [Hlen Hcols]].
  destruct (ws_ref_depth k1 Hk) as [Hgetd [Hrows Hdcols]].
  pose proof (ws_cells WS) as Hcells. pose proof (ws_full WS) as [HfR HfC].
  pose proof (ws_sizes WS) as [HsR HsC].
  set (t := ref_frame g k1) in *. set (dm := ref_depth g k1) in *.
  assert (Hkp : argmax_axis0 t = Some (map (keypoint t) (seq 0 C))).
  { apply argmax_axis0_keypoints; [lia|exact Hcols]. }
  assert (Hkpb : forall c, keypoint t c < length t).
  { intros c. apply keypoint_bound. lia. }
  assert (Hdep : getKpDep (map (keypoint t) (seq 0 C)) dm (gridRows, gridCols)
                          mulFac =
                 Some (map (keypoint_depth gridCols mulFac t dm) (seq 0 C))).
  { unfold mulFac.
    rewrite (getKpDep_entries gridRows gridCols fullRows fullCols);
      try assumption.
    - rewrite map_map. reflexivity.
    - apply Forall_forall. intros f Hf. apply in_map_iff in Hf.
      destruct Hf as [c [<- _]]. specialize (Hkpb c). lia. }
  set (inds := filter (valid k1) (seq 0 C)).
  assert (Hinds : filterKPs_depth
                    (map (keypoint_depth gridCols mulFac t dm) (seq 0 C))
                    0%Q depThresh = inds).
  { unfold filterKPs_depth. rewrite argwhere_map_seq. reflexivity. }
  assert (Hlt : Forall (fun c => c < C) inds) by apply Forall_filter_seq.
  assert (Hst : shape1 t = C).
  { destruct t as [|r t']; [simpl in Hlen; lia|]. now inversion Hcols. }
  unfold matchData_frame, bind, gets, lift. simpl fst. simpl snd.
  rewrite Hget, Hkp, Hgetd, Hdep, Hinds.
  rewrite (take_map_seq (keypoint t) C inds Hlt). simpl obind.
  rewrite (take_nth t [] (keypoint t) inds) by (intros; apply Hkpb).
  unfold kp2IndFlat.
  rewrite (take_map_seq (keypoint q) C inds Hlt). simpl obind.
  rewrite (take_nth q [] (keypoint q) inds)
    by (intros; apply keypoint_bound, (ws_query_rows WS)).
  rewrite Hst, ws_query_shape1.
  rewrite cosine_of_maps.
  2:{ intros c _. split.
      - rewrite Forall_forall in Hcols. apply Hcols, nth_In, Hkpb.
      - pose proof (ws_query_cols WS) as Hq. rewrite Forall_forall in Hq.
        apply Hq, nth_In, keypoint_bound, (ws_query_rows WS). }
  rewrite (assign_col_seq R C inds lc
             (fun c => cosine_distance (nth (keypoint t c) t [])
                                       (nth (keypoint q c) q [])) Hlt).
  do 2 f_equal. apply map_ext_in. intros c Hc. apply in_seq in Hc.
  unfold inds. rewrite existsb_eqb_filter by lia. reflexivity.
Qed.

(** The table of a candidate after the loop over its window. *)
Lemma matchData_table_run window :
  Forall (fun k => (0 <= k < Z.of_nat numRef)%Z) window ->
  matchData_table q kp2IndFlat (gridRows, gridCols) mulFac depThresh window g =
  Some (map (fun c => map (fun k => if valid k c then dist k c else Fin 100)
                          window) (seq 0 C), g).
Proof.
  intros Hwin. unfold matchData_table. rewrite ws_query_shape1.
  set (cellv := fun c k => if valid k c then dist k c else Fin 100).
  set (T := fun (pre rest : list Z) (c : nat) =>
              map (cellv c) pre ++ repeat (Fin 100) (length rest)).
  assert (Hgen : forall rest pre,
             Forall (fun k => (0 <= k < Z.of_nat numRef)%Z) rest ->
             foldM (matchData_frame q kp2IndFlat (gridRows, gridCols) mulFac
                                    depThresh)
                   (combine (seq (length pre) (length rest)) rest)
                   (map (T pre rest) (seq 0 C)) g =
             Some (map (T (pre ++ rest) []) (seq 0 C), g)).
  { induction rest as [|k rest IH]; intros pre Hr.
    - simpl. rewrite app_nil_r. reflexivity.
    - inversion Hr as [|? ? Hk Hrest]; subst.
      cbn [length seq combine foldM]. unfold bind at 1.
      rewrite (matchData_frame_run (T pre (k :: rest)) (length pre) k Hk).
      replace (map (fun c => if valid k c
                             then set_nth (length pre) (dist k c)
                                          (T pre (k :: rest) c)
                             else T pre (k :: rest) c) (seq 0 C))
        with (map (T (pre ++ [k]) rest) (seq 0 C)).
      + specialize (IH (pre ++ [k]) Hrest).
        rewrite length_app in IH. simpl in IH.
        rewrite Nat.add_1_r in IH. rewrite IH.
        now rewrite <- app_assoc.
      + apply map_ext. intros c. unfold T. cbn [length repeat].
        rewrite map_app. cbn [map]. rewrite <- app_assoc. cbn [app].
        assert (Hc : cellv c k = if valid k c then dist k c else Fin 100)
          by reflexivity.
        rewrite Hc.
        destruct (valid k c); [|reflexivity].
        rewrite <- (length_map (cellv c) pre).
        now rewrite set_nth_app. }
  unfold enumerate. specialize (Hgen window [] Hwin).
  rewrite (repeat_map_seq (repeat (Fin 100) (length window)) 0 C).
  change (map (fun _ : nat => repeat (Fin 100) (length window)) (seq 0 C))
    with (map (T [] window) (seq 0 C)).
  change (length (@nil Z)) with 0 in Hgen.
  rewrite Hgen. do 2 f_equal.
  apply map_ext. intros c. unfold T. simpl. now rewrite app_nil_r.
Qed.

End ReRanker.

Lemma getRefSeqInfo_bounds r count L k :
  In k (getRefSeqInfo r count L) -> (0 <= k < count)%Z.
Proof. unfold getRefSeqInfo. rewrite arange_In. lia. Qed.

Lemma getRefSeqInfo_center r count L :
  (0 <= r < count)%Z -> (1 <= L)%Z -> In r (getRefSeqInfo r count L).
Proof.
  intros Hr HL. unfold getRefSeqInfo. rewrite arange_In.
  assert (0 <= L / 2)%Z by (apply Z.div_pos; lia).
  assert (- L / 2 <= -1)%Z.
  { apply Z.lt_succ_r. apply Z.div_lt_upper_bound; lia. }
  lia.
Qed.

Lemma filter_nil_existsb {A} (p : A -> bool) l :
  filter p l = [] <-> existsb p l = false.
Proof.
  induction l as [|a l IH]; simpl; [tauto|].
  destruct (p a); simpl; [split; discriminate|exact IH].
Qed.

Lemma forM_run {A B} (f : A -> M B) (F : A -> B) l g :
  (forall a, In a l -> f a g = Some (F a, g)) ->
  forM l f g = Some (map F l, g).
Proof.
  induction l as [|a l IH]; intros H; simpl; [reflexivity|].
  unfold bind. rewrite (H a (or_introl eq_refl)).
  rewrite IH by (intros; apply H; now right). reflexivity.
Qed.

Lemma filter_map_comm {A B} (p : B -> bool) (F : A -> B) l :
  filter p (map F l) = map F (filter (fun a => p (F a)) l).
Proof.
  induction l as [|a l IH]; simpl; [reflexivity|].
  destruct (p (F a)); simpl; now rewrite IH.
Qed.

Section Score.

Variable g : Globals.
Variable q : tensor.
Variables gridRows gridCols fullRows fullCols cells C numRef : nat.
Variable depThresh : Q.
Hypothesis WS : well_shaped g q gridRows gridCols fullRows fullCols cells C numRef.

Let mulFac : npfloat * npfloat :=
  (axis_scale fullRows gridRows, axis_scale fullCols gridCols).
Let valid (k : Z) (c : nat) : bool := passes g gridCols mulFac depThresh k c.
Let dist (k : Z) (c : nat) : npfloat := frame_distance g q k c.

(** Row minima of the finished table. *)
Lemma table_minima window :
  window <> [] ->
  np_min_axis1 (length window)
    (map (fun c => map (fun k => if valid k c then dist k c else Fin 100)
                       window) (seq 0 C)) =
  Some (map (row_min g q gridCols mulFac depThresh window) (seq 0 C)).
Proof.
  intros Hne. unfold np_min_axis1.
  destruct (Nat.eqb_spec (length window) 0) as [E|_].
  { destruct window; [congruence|discriminate]. }
  rewrite omap_map. apply omap_total. intros c _.
  destruct window as [|k w]; [congruence|]. reflexivity.
Qed.

(** The collapsed table of a non-empty window: the row minima. *)
Lemma matchData_minDists_run window :
  window <> [] ->
  Forall (fun k => (0 <= k < Z.of_nat numRef)%Z) window ->
  matchData_minDists q (map (keypoint q) (seq 0 C)) (gridRows, gridCols)
                     mulFac depThresh window g =
  Some (map (row_min g q gridCols mulFac depThresh window) (seq 0 C), g).
Proof.
  intros Hne Hwin. unfold matchData_minDists, bind, mulFac.
  rewrite (matchData_table_run g q gridRows gridCols fullRows fullCols cells C
             numRef depThresh WS window Hwin).
  fold mulFac. unfold lift.
  change (fun c : nat => map (fun k : Z =>
            if passes g gridCols mulFac depThresh k c
            then frame_distance g q k c else Fin 100) window)
    with (fun c : nat => map (fun k : Z =>
            if valid k c then dist k c else Fin 100) window).
  now rewrite (table_minima window Hne).
Qed.

Lemma getRefSeqInfo_in_range seqLen rIdx :
  Forall (fun k => (0 <= k < Z.of_nat numRef)%Z)
         (getRefSeqInfo (Z.of_nat rIdx) (Z.of_nat numRef) seqLen).
Proof.
  apply Forall_forall. intros k Hk.
  now apply (getRefSeqInfo_bounds (Z.of_nat rIdx) _ seqLen).
Qed.

(** The score of one candidate with a non-empty window. *)
Lemma matchData_candidate_run seqLen rIdx :
  let window := getRefSeqInfo (Z.of_nat rIdx) (Z.of_nat numRef) seqLen in
  window <> [] ->
  matchData_candidate q (map (keypoint q) (seq 0 C)) (gridRows, gridCols)
                      mulFac numRef seqLen depThresh rIdx g =
  Some (table_score g q gridCols mulFac depThresh window C, g).
Proof.
  intros window Hne. unfold matchData_candidate. fold window.
  unfold bind at 1.
  rewrite (matchData_minDists_run window Hne
             (getRefSeqInfo_in_range seqLen rIdx)).
  rewrite argwhere_map_seq. unfold bind, lift, ret.
  rewrite (take_map_seq (row_min g q gridCols mulFac depThresh window) C)
    by apply Forall_filter_seq.
  unfold table_score. now rewrite filter_map_comm.
Qed.

(** With an empty window the row minimum raises. *)
Lemma matchData_candidate_empty_window seqLen rIdx :
  getRefSeqInfo (Z.of_nat rIdx) (Z.of_nat numRef) seqLen = [] ->
  matchData_candidate q (map (keypoint q) (seq 0 C)) (gridRows, gridCols)
                      mulFac numRef seqLen depThresh rIdx g = None.
Proof.
  intros Hnil. unfold matchData_candidate, matchData_minDists. rewrite Hnil.
  unfold bind, mulFac.
  rewrite (matchData_table_run g q gridRows gridCols fullRows fullCols cells C
             numRef depThresh WS [] (Forall_nil _)).
  reflexivity.
Qed.

(** The whole score vector. *)
Lemma matchData_run cands nf seqLen :
  (forall r, In r cands ->
             getRefSeqInfo (Z.of_nat r) (Z.of_nat numRef) seqLen <> []) ->
  matchData q cands (gridRows, gridCols) mulFac numRef nf seqLen depThresh g =
  Some (map (fun r => table_score g q gridCols mulFac depThresh
                        (getRefSeqInfo (Z.of_nat r) (Z.of_nat numRef) seqLen) C)
            cands, g).
Proof.
  intros Hw. unfold matchData, bind at 1, lift.
  rewrite (ws_query_keypoints g q gridRows gridCols fullRows fullCols cells C
             numRef WS).
  apply forM_run. intros r Hr. apply matchData_candidate_run. now apply Hw.
Qed.

End Score.

(* ------------------------------------------------------------------ *)
(** ** Reading the table: valid channels and best distances *)

Section Reading.

Variable g : Globals.
Variable q : tensor.
Variable gridCols : nat.
Variable mulFac : npfloat * npfloat.
Variable T : Q.
Variable window : list Z.

Let valid (k : Z) (c : nat) : bool := passes g gridCols mulFac T k c.

(** As long as the distances of the valid frames of channel [c] are NaN
    or below the sentinel, the row minimum is the best distance over the
    valid frames, and the sentinel when there is none. *)
Lemma row_min_sentinel c :
  window <> [] ->
  (forall k, In k window -> valid k c = true ->
             below 100 (frame_distance g q k c)) ->
  row_min g q gridCols mulFac T window c =
  if existsb (fun k => valid k c) window
  then best_distance g q gridCols mulFac T window c
  else Fin 100.
Proof.
  intros Hne Hb. unfold row_min, min_or_nan, table_cell, best_distance.
  pose proof (np_min_row (fun k => valid k c)
                (fun k => frame_distance g q k c) window Hb Hne) as E.
  unfold valid in *. rewrite E. clear E.
  destruct (filter (fun k => passes g gridCols mulFac T k c) window) eqn:F.
  - apply filter_nil_existsb in F. now rewrite F.
  - destruct (existsb (fun k => passes g gridCols mulFac T k c) window) eqn:E;
      [reflexivity|].
    apply filter_nil_existsb in E. congruence.
Qed.

Lemma best_distance_below c :
  existsb (fun k => valid k c) window = true ->
  (forall k, In k window -> valid k c = true ->
             below 100 (frame_distance g q k c)) ->
  below 100 (best_distance g q gridCols mulFac T window c).
Proof.
  intros E Hb. unfold best_distance. apply min_or_nan_below.
  - intros Hnil. apply map_eq_nil in Hnil.
    apply filter_nil_existsb in Hnil. unfold valid in E. congruence.
  - apply Forall_forall. intros v Hv. apply in_map_iff in Hv.
    destruct Hv as [k [<- Hk]]. apply filter_In in Hk. now apply Hb.
Qed.

(** Under the same condition on every channel, the mean of the row minima
    that differ from the sentinel is the mean of the best distances of the
    valid channels. *)
Lemma table_score_seq2single C :
  window <> [] ->
  (forall k c, In k window -> c < C -> valid k c = true ->
               below 100 (frame_distance g q k c)) ->
  table_score g q gridCols mulFac T window C =
  seq2single_score g q gridCols mulFac T window C.
Proof.
  intros Hne Hb. unfold table_score, seq2single_score, valid_channels.
  rewrite filter_map_comm. f_equal.
  assert (Hf : filter (fun c => fne (row_min g q gridCols mulFac T window c) 100)
                      (seq 0 C) =
               filter (fun c => existsb (fun k => valid k c) window) (seq 0 C)).
  { apply filter_ext_in. intros c Hc. apply in_seq in Hc.
    rewrite row_min_sentinel by (auto; intros; apply Hb; auto; lia).
    destruct (existsb (fun k => valid k c) window) eqn:E;
      [|apply fne_sentinel].
    apply fne_below, best_distance_below; [exact E|].
    intros; apply Hb; auto; lia. }
  rewrite Hf. apply map_ext_in. intros c Hc. apply filter_In in Hc.
  destruct Hc as [Hc E]. apply in_seq in Hc.
  rewrite row_min_sentinel by (auto; intros; apply Hb; auto; lia).
  unfold valid. now rewrite E.
Qed.

End Reading.

(* ------------------------------------------------------------------ *)
(** ** The small data set is well shaped *)

Lemma ex_well_shaped (q : tensor) :
  q = ex_q0 \/ q = ex_q1 -> well_shaped ex_globals q 1 2 2 2 2 2 3.
Proof.
  intros [-> | ->]; constructor; simpl; try lia; repeat constructor.
Qed.

Lemma ex_windows (cands : list nat) :
  Forall (fun r => r < 3) cands ->
  forall r, In r cands -> getRefSeqInfo (Z.of_nat r) (Z.of_nat 3) 1 <> [].
Proof.
  intros H r Hr. rewrite Forall_forall in H. specialize (H r Hr).
  intros Hnil.
  pose proof (getRefSeqInfo_center (Z.of_nat r) (Z.of_nat 3) 1
                ltac:(lia) ltac:(lia)) as Hin.
  rewrite Hnil in Hin. exact Hin.
Qed.

(** The executable parts of the pipeline on the small data set, and the
    projector on the shapes of the notebook (grid 20 x 31, depth maps of
    640 x 1024 pixels). *)

Example ex_window_even : getRefSeqInfo 5 10 4 = [3; 4; 5; 6]%Z.
Proof. reflexivity. Qed.

Example ex_window_clamped : getRefSeqInfo 0 10 4 = [0; 1]%Z.
Proof. reflexivity. Qed.

Example ex_projector :
  getKP2d [0; 30; 31; 619] (20, 31) (axis_scale 640 20, axis_scale 1024 31) =
  Some [(0, 0); (990, 0); (0, 32); (990, 608)]%Z.
Proof. reflexivity. Qed.

Example ex_query_keypoints : argmax_axis0 ex_q0 = Some [1; 0].
Proof. reflexivity. Qed.

Example ex_frame_depths :
  map (fun k => getKpDep (map (keypoint (ref_frame ex_globals k)) [0; 1])
                         (ref_depth ex_globals k) (1, 2)
                         (axis_scale 2 1, axis_scale 2 2))
      [0; 1; 2]%Z =
  [Some [10; 20]; Some [200; 200]; Some [0; 50]]%Q.
Proof. reflexivity. Qed.

Example ex_valid_channels :
  map (fun r => valid_channels ex_globals 2 (axis_scale 2 1, axis_scale 2 2) 98
                               (getRefSeqInfo r 3 1) 2)
      [0; 1; 2]%Z =
  [[0; 1]; []; [1]].
Proof. reflexivity. Qed.

Example ex_valid_channels_window3 :
  valid_channels ex_globals 2 (axis_scale 2 1, axis_scale 2 2) 98
                 (getRefSeqInfo 1 3 3) 2 = [0; 1].
Proof. reflexivity. Qed.

Example ex_topMatches :
  topMatches_of [[3; 1]; [1; 2]; [2; 3]]%Q 2 = [[1; 0]; [2; 1]].
Proof. reflexivity. Qed.

(* ------------------------------------------------------------------ *)
(** ** Frame: the re-ranker only reads *)

(** C10: a scoring call leaves the reference-side data as it found it.
    Whenever [matchData], or [processQueryIndex] around it, returns, the
    dense reference tensors, the reference depth maps, the two global
    descriptor arrays and the candidate-list matrix (indeed all module-level
    state, the lists [scores] and [finalScores] of the drivers included) are
    the ones the call started with. *)
Theorem matchData_frame_effect :
  (forall q cands sh mf nr nf sl T g scores g',
      matchData q cands sh mf nr nf sl T g = Some (scores, g') ->
      denseFtRefAll g' = denseFtRefAll g /\
      depImgRefAll g' = depImgRefAll g /\
      imgDescRef g' = imgDescRef g /\
      imgDescQuery g' = imgDescQuery g /\
      topMatches g' = topMatches g /\
      g' = g) /\
  (forall qIdx g scores g',
      processQueryIndex qIdx g = Some (scores, g') ->
      denseFtRefAll g' = denseFtRefAll g /\
      depImgRefAll g' = depImgRefAll g /\
      imgDescRef g' = imgDescRef g /\
      imgDescQuery g' = imgDescQuery g /\
      topMatches g' = topMatches g /\
      g' = g).
Proof.
  split.
  - intros q cands sh mf nr nf sl T g scores g' H.
    apply readonly_matchData in H. subst g'. repeat split.
  - intros qIdx g scores g' H.
    apply readonly_processQueryIndex in H. subst g'. repeat split.
Qed.

Lemma matchData_frame_effect_witness :
  exists scores g',
    matchData ex_q0 [1; 0] (1, 2) (axis_scale 2 1, axis_scale 2 2) 3 2 1 98%Q
              ex_globals = Some (scores, g') /\
    denseFtRefAll g' = denseFtRefAll ex_globals /\
    depImgRefAll g' = depImgRefAll ex_globals /\
    topMatches g' = topMatches ex_globals.
Proof.
  pose proof (matchData_run ex_globals ex_q0 1 2 2 2 2 2 3 98%Q
                (ex_well_shaped ex_q0 (or_introl eq_refl)) [1; 0] 2 1%Z
                (ex_windows [1; 0] ltac:(repeat constructor))) as Hrun.
  eexists. exists ex_globals. split; [exact Hrun|].
  destruct matchData_frame_effect as [Hm _].
  destruct (Hm _ _ _ _ _ _ _ _ _ _ _ Hrun) as [H1 [H2 [_ [_ [H5 _]]]]].
  repeat split; assumption.
Defined.

(* ------------------------------------------------------------------ *)
(** ** The score of a candidate *)

Lemma window_nonempty numRef seqLen r :
  r < numRef -> (1 <= seqLen)%Z ->
  getRefSeqInfo (Z.of_nat r) (Z.of_nat numRef) seqLen <> [].
Proof.
  intros Hr HL Hnil.
  pose proof (getRefSeqInfo_center (Z.of_nat r) (Z.of_nat numRef) seqLen
                ltac:(lia) HL) as Hin.
  rewrite Hnil in Hin. exact Hin.
Qed.

(** C1, as stated, fails.  In [tiny_globals] the only channel passes the
    depth filter in frame 0 of the window [0; 1] of candidate 1 and in no
    other frame, and every query row has norm 1.  The norm of the
    reference descriptor [2^-600] is computed as 0, the quotient is
    [-inf] and the distance [+inf].  The mean over the valid channels of
    the minimum over the valid frames is therefore [+inf]; but in the
    table the row of the channel is [+inf; 100], its minimum is the
    sentinel, the channel is dropped, and the score is the mean of nothing,
    NaN. *)
Lemma matchData_score_overflow :
  matchData tiny_q [1] (1, 1) (axis_scale 1 1, axis_scale 1 1) 2 1 2 98%Q
            tiny_globals = Some ([NaN], tiny_globals) /\
  getRefSeqInfo 1 2 2 = [0; 1]%Z /\
  norm [-1]%Q = Fin 1 /\
  valid_channels tiny_globals 1 (axis_scale 1 1, axis_scale 1 1) 98%Q
                 [0; 1]%Z 1 = [0] /\
  filter (fun k => passes tiny_globals 1 (axis_scale 1 1, axis_scale 1 1)
                          98%Q k 0) [0; 1]%Z = [0%Z] /\
  frame_distance tiny_globals tiny_q 0 0 = PInf /\
  seq2single_score tiny_globals tiny_q 1 (axis_scale 1 1, axis_scale 1 1)
                   98%Q [0; 1]%Z 1 = PInf.
Proof. vm_compute. repeat split; reflexivity. Qed.

(** The depth filter itself is the second reason.  In [wide_globals] the
    projector sends the keypoint (grid column 7) to pixel column 60, where
    the depth is in range: the channel is valid and the score is the
    distance 0.  At the pixel that section 4.1 of the spec describes,
    column 61, the depth is out of range: with that pixel no channel is
    valid and the mean is NaN. *)
Example matchData_score_pixel :
  matchData wide_q [0] (1, 14) (axis_scale 1 1, axis_scale 122 14) 1 1 1 98%Q
            wide_globals = Some ([Fin 0], wide_globals) /\
  kp_x 14 (axis_scale 1 1, axis_scale 122 14) (keypoint wide_q 0) = 60%Z /\
  pixel_x 14 (spec_scale 122 14) (keypoint wide_q 0) = 61%Z /\
  spec_valid_channels wide_globals 14 (spec_scale 1 1, spec_scale 122 14)
                      98%Q [0%Z] 1 = [] /\
  spec_score wide_globals wide_q 14 (spec_scale 1 1, spec_scale 122 14)
             98%Q [0%Z] 1 = NaN.
Proof. vm_compute. repeat split; reflexivity. Qed.

(** C1 (amended): on well-shaped arrays, for a window length of at least 1
    and candidates that are reference indices, [matchData] returns one
    score per candidate.  Say that channel [c] passes the depth filter in
    frame [k] when the depth at the pixel [getKP2d] computes for the
    keypoint of [c] in [k] (binary64 product, truncated) lies strictly
    between 0 and the threshold, and let the distance of [c] in [k] be the
    cosine distance as the code computes it in binary64.  If each distance
    of a channel in a window frame where it passes the filter is NaN or
    below the sentinel 100, the score of candidate [r] is the mean, over
    exactly the channels that pass the filter in at least one frame of the
    window, of the minimum over those frames of the distance between the
    reference row at the frame's per-channel argmax cell and the query row
    at the query's per-channel argmax cell.  Channels that are valid in no
    frame keep the sentinel and do not enter the mean; if there is none
    that is valid, the mean is that of the empty list. *)
Theorem matchData_score_spec
        (g : Globals) (q : tensor)
        (gridRows gridCols fullRows fullCols cells C numRef numFmaps_ : nat)
        (depThresh : Q) (seqLen : Z) (cands : list nat) :
  well_shaped g q gridRows gridCols fullRows fullCols cells C numRef ->
  (1 <= seqLen)%Z ->
  Forall (fun r => r < numRef) cands ->
  let mulFac := (axis_scale fullRows gridRows, axis_scale fullCols gridCols) in
  let distance k c :=
    cosine_distance (keypoint_descriptor (ref_frame g k) c)
                    (keypoint_descriptor q c) in
  let window r := getRefSeqInfo (Z.of_nat r) (Z.of_nat numRef) seqLen in
  (forall r k c,
      In r cands -> In k (window r) -> c < C ->
      passes g gridCols mulFac depThresh k c = true ->
      below 100 (distance k c)) ->
  exists scores,
    matchData q cands (gridRows, gridCols) mulFac numRef numFmaps_ seqLen
              depThresh g = Some (scores, g) /\
    length scores = length cands /\
    forall i r,
      nth_error cands i = Some r ->
      let valid := filter (fun c => existsb (fun k =>
                              passes g gridCols mulFac depThresh k c)
                                            (window r))
                          (seq 0 C) in
      nth_error scores i =
      Some (np_mean
              (map (fun c =>
                      min_or_nan
                        (map (fun k => distance k c)
                             (filter (fun k => passes g gridCols mulFac
                                                      depThresh k c)
                                     (window r))))
                   valid)).
Proof.
  intros WS HL Hc mulFac distance window Hb.
  assert (Hw : forall r, In r cands -> window r <> []).
  { intros r Hr. rewrite Forall_forall in Hc.
    apply window_nonempty; [now apply Hc|exact HL]. }
  eexists. split; [|split].
  - exact (matchData_run g q gridRows gridCols fullRows fullCols cells C
             numRef depThresh WS cands numFmaps_ seqLen Hw).
  - apply length_map.
  - intros i r Hi valid.
    assert (Hr : In r cands) by (eapply nth_error_In; eassumption).
    rewrite nth_error_map, Hi. cbn [option_map]. f_equal.
    fold (window r). fold mulFac.
    rewrite (table_score_seq2single g q gridCols mulFac depThresh (window r) C
               (Hw r Hr)).
    + reflexivity.
    + intros k c Hk Hlt Hp. exact (Hb r k c Hr Hk Hlt Hp).
Qed.

Lemma matchData_score_spec_witness :
  exists scores,
    matchData ex_q0 [1; 2] (1, 2) (axis_scale 2 1, axis_scale 2 2) 3 2 3 98%Q
              ex_globals = Some (scores, ex_globals) /\
    getRefSeqInfo 1 3 3 = [0; 1; 2]%Z /\
    getRefSeqInfo 2 3 3 = [1; 2]%Z /\
    nth_error scores 0 =
      Some (np_mean
              (map (fun c =>
                      min_or_nan
                        (map (fun k =>
                                cosine_distance
                                  (keypoint_descriptor (ref_frame ex_globals k) c)
                                  (keypoint_descriptor ex_q0 c))
                             (filter (fun k =>
                                        passes ex_globals 2
                                               (axis_scale 2 1, axis_scale 2 2)
                                               98%Q k c) [0; 1; 2]%Z)))
                   [0; 1])) /\
    nth_error scores 1 =
      Some (np_mean
              (map (fun c =>
                      min_or_nan
                        (map (fun k =>
                                cosine_distance
                                  (keypoint_descriptor (ref_frame ex_globals k) c)
                                  (keypoint_descriptor ex_q0 c))
                             (filter (fun k =>
                                        passes ex_globals 2
                                               (axis_scale 2 1, axis_scale 2 2)
                                               98%Q k c) [1; 2]%Z)))
                   [1])).
Proof.
  assert (Hc : Forall (fun r => r < 3) [1; 2]) by (repeat constructor).
  assert (Hb : forall r k c,
             In r [1; 2] ->
             In k (getRefSeqInfo (Z.of_nat r) (Z.of_nat 3) 3) -> c < 2 ->
             passes ex_globals 2 (axis_scale 2 1, axis_scale 2 2) 98%Q k c
             = true ->
             below 100 (cosine_distance
                          (keypoint_descriptor (ref_frame ex_globals k) c)
                          (keypoint_descriptor ex_q0 c))).
  { intros r k c Hr Hk Hlt.
    destruct c as [|[|c]]; [| |lia];
      destruct Hr as [<-|[<-|[]]]; vm_compute in Hk;
      repeat (destruct Hk as [<-|Hk]); try contradiction;
      vm_compute; intros; first [reflexivity | exact I | discriminate]. }
  destruct (matchData_score_spec ex_globals ex_q0 1 2 2 2 2 2 3 2 98%Q 3%Z
              [1; 2] (ex_well_shaped ex_q0 (or_introl eq_refl))
              ltac:(lia) Hc Hb) as [scores [Hrun [_ Hscore]]].
  exists scores. split; [exact Hrun|].
  split; [reflexivity|]. split; [reflexivity|].
  split; [exact (Hscore 0 1 eq_refl)|exact (Hscore 1 2 eq_refl)].
Defined.

(* ------------------------------------------------------------------ *)
(** ** Monotonicity in the depth threshold *)

Lemma passes_monotone g gridCols mulFac t1 t2 k c :
  (t1 <= t2)%Q ->
  passes g gridCols mulFac t1 k c = true ->
  passes g gridCols mulFac t2 k c = true.
Proof.
  unfold passes. intros Ht H. apply andb_true_iff in H.
  destruct H as [H1 H2]. apply andb_true_iff. split; [|exact H2].
  apply Qltb_lt. apply Qltb_lt in H1. eapply Qlt_le_trans; eassumption.
Qed.

Lemma existsb_passes_monotone g gridCols mulFac t1 t2 window c :
  (t1 <= t2)%Q ->
  existsb (fun k => passes g gridCols mulFac t1 k c) window = true ->
  existsb (fun k => passes g gridCols mulFac t2 k c) window = true.
Proof.
  intros Ht H. apply existsb_exists in H. destruct H as [k [Hk Hp]].
  apply existsb_exists. exists k. split; [exact Hk|].
  eapply passes_monotone; eassumption.
Qed.

(** Under the larger threshold a row minimum that is the sentinel was the
    sentinel under the stricter one. *)
Lemma row_min_sentinel_monotone g q gridCols mulFac t1 t2 window c :
  (t1 <= t2)%Q ->
  fne (row_min g q gridCols mulFac t2 window c) 100 = false ->
  fne (row_min g q gridCols mulFac t1 window c) 100 = false.
Proof.
  intros Ht. unfold row_min, table_cell.
  apply (row_sentinel_monotone
           (fun k => passes g gridCols mulFac t1 k c)
           (fun k => passes g gridCols mulFac t2 k c)
           (fun k => frame_distance g q k c)).
  intros k. now apply passes_monotone.
Qed.

(** C7: raising the upper depth bound only adds indices to the Depth
    Filter's output; consequently, for a fixed candidate and window, the
    channels whose collapsed table value is still the sentinel under the
    larger threshold [t2] are among those under the stricter [t1] (and the
    valid channels under [t1] are among those under [t2]). *)
Theorem depth_threshold_monotone :
  (forall (d : list Q) (minD t1 t2 : Q),
      (t1 <= t2)%Q ->
      incl (filterKPs_depth d minD t1) (filterKPs_depth d minD t2)) /\
  (forall (g : Globals) (q : tensor)
          (gridRows gridCols fullRows fullCols cells C numRef : nat)
          (seqLen : Z) (r : nat) (t1 t2 : Q),
      well_shaped g q gridRows gridCols fullRows fullCols cells C numRef ->
      r < numRef -> (1 <= seqLen)%Z ->
      (t1 <= t2)%Q ->
      let mulFac := (axis_scale fullRows gridRows, axis_scale fullCols gridCols) in
      let window := getRefSeqInfo (Z.of_nat r) (Z.of_nat numRef) seqLen in
      let sentinel := argwhere (fun d => negb (fne d 100)) in
      let valid := argwhere (fun d => fne d 100) in
      exists minDists1 minDists2 kp2IndFlat,
        argmax_axis0 q = Some kp2IndFlat /\
        matchData_minDists q kp2IndFlat (gridRows, gridCols) mulFac t1 window g
          = Some (minDists1, g) /\
        matchData_minDists q kp2IndFlat (gridRows, gridCols) mulFac t2 window g
          = Some (minDists2, g) /\
        incl (sentinel minDists2) (sentinel minDists1) /\
        incl (valid minDists1) (valid minDists2)).
Proof.
  split.
  - intros d minD t1 t2 Ht i Hi.
    apply filterKPs_depth_In in Hi. apply filterKPs_depth_In.
    destruct Hi as [v [Hn [H1 H2]]]. exists v. repeat split; try assumption.
    eapply Qlt_le_trans; eassumption.
  - intros g q gridRows gridCols fullRows fullCols cells C numRef seqLen r
           t1 t2 WS Hr HL Ht mulFac window sentinel valid.
    assert (Hne : window <> []).
    { intros Hnil.
      pose proof (getRefSeqInfo_center (Z.of_nat r) (Z.of_nat numRef) seqLen
                    ltac:(lia) HL) as Hin.
      fold window in Hin. rewrite Hnil in Hin. exact Hin. }
    pose proof (getRefSeqInfo_in_range numRef seqLen r) as Hwin.
    fold window in Hwin.
    eexists. eexists. eexists. split; [|split; [|split; [|split]]].
    + exact (ws_query_keypoints g q gridRows gridCols fullRows fullCols cells C
               numRef WS).
    + exact (matchData_minDists_run g q gridRows gridCols fullRows fullCols
               cells C numRef t1 WS window Hne Hwin).
    + exact (matchData_minDists_run g q gridRows gridCols fullRows fullCols
               cells C numRef t2 WS window Hne Hwin).
    + unfold sentinel. rewrite !argwhere_map_seq.
      intros c Hc. apply filter_In in Hc. destruct Hc as [Hseq Hc].
      apply filter_In. split; [exact Hseq|].
      apply negb_true_iff in Hc. apply negb_true_iff.
      now apply (row_min_sentinel_monotone g q gridCols mulFac t1 t2).
    + unfold valid. rewrite !argwhere_map_seq.
      intros c Hc. apply filter_In in Hc. destruct Hc as [Hseq Hc].
      apply filter_In. split; [exact Hseq|].
      fold mulFac in Hc |- *.
      destruct (fne (row_min g q gridCols mulFac t2 window c) 100) eqn:E;
        [reflexivity|].
      apply (row_min_sentinel_monotone g q gridCols mulFac t1 t2) in E;
        [congruence|exact Ht].
Qed.

Lemma depth_threshold_monotone_witness :
  incl (filterKPs_depth [50; 0; 10]%Q 0 40) (filterKPs_depth [50; 0; 10]%Q 0 98) /\
  let mulFac := (axis_scale 2 1, axis_scale 2 2) in
  let window := getRefSeqInfo 2 3 1 in
  exists minDists1 minDists2,
    matchData_minDists ex_q0 [1; 0] (1, 2) mulFac 40 window ex_globals
      = Some (minDists1, ex_globals) /\
    matchData_minDists ex_q0 [1; 0] (1, 2) mulFac 98 window ex_globals
      = Some (minDists2, ex_globals) /\
    incl (argwhere (fun d => negb (fne d 100)) minDists2)
         (argwhere (fun d => negb (fne d 100)) minDists1).
Proof.
  destruct depth_threshold_monotone as [Hfilter Htable].
  split.
  - apply Hfilter. unfold Qle. simpl. lia.
  - intros mulFac window.
    destruct (Htable ex_globals ex_q0 1 2 2 2 2 2 3 1%Z 2 40%Q 98%Q
                (ex_well_shaped ex_q0 (or_introl eq_refl))
                ltac:(lia) ltac:(lia) ltac:(unfold Qle; simpl; lia))
      as [m1 [m2 [kp [Hkp [H1 [H2 [H3 _]]]]]]].
    injection Hkp as <-.
    exists m1, m2. repeat split; assumption.
Defined.

(* ------------------------------------------------------------------ *)
(** ** Arg-min selection *)

Ltac fcases :=
  simpl; try discriminate; try reflexivity; intros;
  repeat match goal with
         | H : negb _ = true |- _ => apply negb_true_iff in H
         | H : negb _ = false |- _ => apply negb_false_iff in H
         end;
  rewrite ?negb_true_iff, ?negb_false_iff;
  try discriminate; try reflexivity;
  repeat match goal with
         | |- Qle_bool ?a ?b = _ => destruct (Qle_bool a b) eqn:?
         end;
  try reflexivity; qbool; exfalso; lra.

Lemma fltb_irrefl x : fltb x x = false.
Proof. destruct x as [| | |a]; fcases. Qed.

(** A value strictly below [best] is not above anything [best] is not
    above, and strictly below anything [best] is not above. *)
Lemma fltb_below_all v best x :
  is_nan v = false -> is_nan x = false ->
  fltb v best = false -> fltb x best = true -> fltb v x = false.
Proof.
  destruct v as [| | |a], best as [| | |b], x as [| | |c]; fcases.
Qed.

Lemma fltb_below_earlier v best x :
  is_nan v = false ->
  fltb v best = false -> fltb x best = true -> fltb x v = true.
Proof.
  destruct v as [| | |a], best as [| | |b], x as [| | |c]; fcases.
Qed.

Lemma argmin_from_spec l pre best bi :
  nth_error pre bi = Some best ->
  (is_nan best = true ->
   forall j v, j < bi -> nth_error pre j = Some v -> is_nan v = false) ->
  (is_nan best = false ->
   (forall v, In v pre -> is_nan v = false /\ fltb v best = false) /\
   (forall j v, j < bi -> nth_error pre j = Some v -> fltb best v = true)) ->
  argmin_spec (pre ++ l) (argmin_from best bi (length pre) l).
Proof.
  revert pre best bi. induction l as [|x l IH]; intros pre best bi Hb Hnan Hfin.
  - simpl. rewrite app_nil_r. exists best. auto.
  - assert (Hbi : bi < length pre) by (apply nth_error_Some; congruence).
    cbn [argmin_from]. destruct (is_nan best) eqn:Nb.
    + exists best. split; [|split].
      * rewrite nth_error_app1 by exact Hbi. exact Hb.
      * intros _ j v Hj Hv. rewrite nth_error_app1 in Hv by lia.
        eapply Hnan; eauto.
      * intros Hf. congruence.
    + destruct (Hfin eq_refl) as [Hall Hearlier].
      replace (pre ++ x :: l) with ((pre ++ [x]) ++ l)
        by (now rewrite <- app_assoc).
      replace (S (length pre)) with (length (pre ++ [x]))
        by (rewrite length_app; simpl; lia).
      destruct (is_nan x || fltb x best) eqn:Sw.
      * apply IH.
        -- rewrite nth_error_app2 by lia. now rewrite Nat.sub_diag.
        -- intros _ j v Hj Hv. rewrite nth_error_app1 in Hv by exact Hj.
           apply nth_error_In in Hv. now apply Hall.
        -- intros Nx. rewrite Nx in Sw. simpl in Sw. split.
           ++ intros v Hv. apply in_app_or in Hv.
              destruct Hv as [Hv | [<- | []]].
              ** destruct (Hall v Hv) as [Nv Lv]. split; [exact Nv|].
                 now apply (fltb_below_all v best x).
              ** split; [exact Nx|apply fltb_irrefl].
           ++ intros j v Hj Hv. rewrite nth_error_app1 in Hv by exact Hj.
              apply nth_error_In in Hv. destruct (Hall v Hv) as [Nv Lv].
              now apply (fltb_below_earlier v best x).
      * apply orb_false_iff in Sw. destruct Sw as [Nx Lx].
        apply IH.
        -- rewrite nth_error_app1 by exact Hbi. exact Hb.
        -- intros Hf. congruence.
        -- intros _. split.
           ++ intros v Hv. apply in_app_or in Hv.
              destruct Hv as [Hv | [<- | []]]; [now apply Hall|].
              split; assumption.
           ++ intros j v Hj Hv. rewrite nth_error_app1 in Hv by lia.
              eapply Hearlier; eauto.
Qed.

Lemma np_argmin_spec l :
  l <> [] -> exists p, np_argmin l = Some p /\ argmin_spec l p.
Proof.
  destruct l as [|x l]; [congruence|]. intros _.
  exists (argmin_from x 0 1 l). split; [reflexivity|].
  apply (argmin_from_spec l [x] x 0).
  - reflexivity.
  - intros _ j v Hj. lia.
  - intros Nx. split.
    + intros v [<- | []]. split; [exact Nx|apply fltb_irrefl].
    + intros j v Hj. lia.
Qed.

(** Nothing in the array is strictly below the selected value, and the
    selected position is inside the array. *)
Lemma argmin_spec_minimal l p :
  argmin_spec l p ->
  p < length l /\
  forall v, In v l -> fltb v (nth p l NaN) = false.
Proof.
  intros [vp [Hp [Hnan Hfin]]]. split.
  - apply nth_error_Some. congruence.
  - intros v Hv. rewrite (nth_error_nth _ _ _ Hp).
    destruct (is_nan vp) eqn:N.
    + destruct vp; try discriminate. destruct v; reflexivity.
    + now apply (Hfin eq_refl).
Qed.

(** With a NaN in the array, the selected position is that of the first
    NaN. *)
Lemma argmin_spec_nan l p i :
  argmin_spec l p -> nth_error l i = Some NaN ->
  p <= i /\ nth_error l p = Some NaN /\
  forall j v, j < p -> nth_error l j = Some v -> is_nan v = false.
Proof.
  intros [vp [Hp [Hnan Hfin]]] Hi.
  destruct (is_nan vp) eqn:N.
  - destruct vp; try discriminate. split; [|split; [exact Hp|]].
    + destruct (Nat.le_gt_cases p i) as [H|H]; [exact H|].
      specialize (Hnan eq_refl i NaN H Hi). discriminate.
    + now apply Hnan.
  - destruct (Hfin eq_refl) as [Hall _].
    apply nth_error_In in Hi. destruct (Hall NaN Hi). discriminate.
Qed.

(* ------------------------------------------------------------------ *)
(** ** The empty valid-channel set *)

Lemma np_mean_nil : np_mean [] = NaN.
Proof. reflexivity. Qed.

Lemma valid_channels_nil g gridCols mulFac T window C :
  (forall k c, In k window -> c < C ->
               passes g gridCols mulFac T k c = false) ->
  valid_channels g gridCols mulFac T window C = [].
Proof.
  intros H. unfold valid_channels.
  destruct (filter _ (seq 0 C)) as [|c l] eqn:F; [reflexivity|].
  assert (Hc : In c (c :: l)) by now left. rewrite <- F in Hc.
  apply filter_In in Hc. destruct Hc as [Hseq Hex].
  apply in_seq in Hseq. apply existsb_exists in Hex.
  destruct Hex as [k [Hk Hp]]. rewrite H in Hp by (assumption || lia).
  discriminate.
Qed.

(** A candidate none of whose channels is ever valid scores NaN: the mean
    of the empty array. *)
Lemma seq2single_score_empty g q gridCols mulFac T window C :
  (forall k c, In k window -> c < C ->
               passes g gridCols mulFac T k c = false) ->
  seq2single_score g q gridCols mulFac T window C = NaN.
Proof.
  intros H. unfold seq2single_score.
  rewrite (valid_channels_nil g gridCols mulFac T window C H).
  apply np_mean_nil.
Qed.

Lemma table_score_empty g q gridCols mulFac T window C :
  window <> [] ->
  (forall k c, In k window -> c < C ->
               passes g gridCols mulFac T k c = false) ->
  table_score g q gridCols mulFac T window C = NaN.
Proof.
  intros Hne H. rewrite table_score_seq2single.
  - now apply seq2single_score_empty.
  - exact Hne.
  - intros k c Hk Hc Hp. rewrite (H k c Hk Hc) in Hp. discriminate.
Qed.

(** C8, as stated, fails: reference 1 of the small data set has every
    depth outside the valid range; the call returns a score per candidate,
    but the entry of that candidate is NaN, not a number. *)
Lemma matchData_empty_valid_set_nan :
  let mulFac := (axis_scale 2 1, axis_scale 2 2) in
  (forall k c, In k (getRefSeqInfo 1 3 1) -> c < 2 ->
               passes ex_globals 2 mulFac 98 k c = false) /\
  exists scores,
    matchData ex_q0 [1; 0] (1, 2) mulFac 3 2 1 98%Q ex_globals =
      Some (scores, ex_globals) /\
    nth_error scores 0 = Some NaN /\
    ~ (exists x, nth_error scores 0 = Some (Fin x)).
Proof.
  intros mulFac.
  assert (Hemp : forall k c, In k (getRefSeqInfo 1 3 1) -> c < 2 ->
                             passes ex_globals 2 mulFac 98 k c = false).
  { intros k c [<- | []] Hc.
    destruct c as [|[|c]]; [reflexivity|reflexivity|lia]. }
  split; [exact Hemp|].
  eexists. split.
  - exact (matchData_run ex_globals ex_q0 1 2 2 2 2 2 3 98%Q
             (ex_well_shaped ex_q0 (or_introl eq_refl)) [1; 0] 2 1%Z
             (ex_windows [1; 0] ltac:(repeat constructor))).
  - cbn [map nth_error]. fold mulFac.
    rewrite (table_score_empty ex_globals ex_q0 2 mulFac 98
               (getRefSeqInfo (Z.of_nat 1) (Z.of_nat 3) 1) 2
               ltac:(discriminate) Hemp).
    split; [reflexivity|]. intros [x Hx]. discriminate.
Qed.

(** C8 (amended): on well-shaped arrays, for a window length of at least 1
    and candidates that are reference indices, when no channel of
    candidate [r] passes the depth filter in any frame of its window
    (the depth being read at the pixel [getKP2d] computes), [matchData]
    still returns a score vector with one entry per candidate; the entry
    of candidate [r] is NaN (the mean of an empty array), and [np.argmin]
    over the score vector still returns a position of the list: that of
    the first NaN entry, before which every score is not NaN. *)
Theorem matchData_empty_valid_set
        (g : Globals) (q : tensor)
        (gridRows gridCols fullRows fullCols cells C numRef numFmaps_ : nat)
        (depThresh : Q) (seqLen : Z) (cands : list nat) (i r : nat) :
  well_shaped g q gridRows gridCols fullRows fullCols cells C numRef ->
  (1 <= seqLen)%Z ->
  Forall (fun r' => r' < numRef) cands ->
  nth_error cands i = Some r ->
  let mulFac := (axis_scale fullRows gridRows, axis_scale fullCols gridCols) in
  (forall k c, In k (getRefSeqInfo (Z.of_nat r) (Z.of_nat numRef) seqLen) ->
               c < C -> passes g gridCols mulFac depThresh k c = false) ->
  exists scores p,
    matchData q cands (gridRows, gridCols) mulFac numRef numFmaps_ seqLen
              depThresh g = Some (scores, g) /\
    length scores = length cands /\
    nth_error scores i = Some NaN /\
    np_argmin scores = Some p /\
    p < length cands /\
    p <= i /\
    nth_error scores p = Some NaN /\
    forall j v, j < p -> nth_error scores j = Some v -> is_nan v = false.
Proof.
  intros WS HL Hc Hi mulFac Hemp.
  assert (Hw : forall r', In r' cands ->
                 getRefSeqInfo (Z.of_nat r') (Z.of_nat numRef) seqLen <> []).
  { intros r' Hr. rewrite Forall_forall in Hc.
    apply window_nonempty; [now apply Hc|exact HL]. }
  pose proof (matchData_run g q gridRows gridCols fullRows fullCols cells C
                numRef depThresh WS cands numFmaps_ seqLen Hw) as Hrun.
  fold mulFac in Hrun.
  set (scores := map (fun r0 => table_score g q gridCols mulFac depThresh
                       (getRefSeqInfo (Z.of_nat r0) (Z.of_nat numRef) seqLen) C)
                     cands) in *.
  assert (Hlen : length scores = length cands) by apply length_map.
  assert (Hnan : nth_error scores i = Some NaN).
  { unfold scores. rewrite nth_error_map, Hi. simpl.
    rewrite (table_score_empty g q gridCols mulFac depThresh _ C); auto.
    apply Hw. eapply nth_error_In; eassumption. }
  assert (Hne : scores <> []).
  { intros Hnil. rewrite Hnil in Hnan. destruct i; discriminate. }
  destruct (np_argmin_spec scores Hne) as [p [Hp Hspec]].
  destruct (argmin_spec_nan scores p i Hspec Hnan) as [Hle [Hpn Hfirst]].
  exists scores, p. repeat split; try assumption.
  rewrite <- Hlen. apply nth_error_Some. congruence.
Qed.

Lemma matchData_empty_valid_set_witness :
  exists scores p,
    matchData ex_q0 [0; 1] (1, 2) (axis_scale 2 1, axis_scale 2 2) 3 2 1 98%Q
              ex_globals = Some (scores, ex_globals) /\
    nth_error scores 1 = Some NaN /\
    np_argmin scores = Some p /\
    nth_error scores p = Some NaN /\
    forall j v, j < p -> nth_error scores j = Some v -> is_nan v = false.
Proof.
  assert (Hemp : forall k c, In k (getRefSeqInfo (Z.of_nat 1) (Z.of_nat 3) 1) ->
                             c < 2 ->
                             passes ex_globals 2
                                    (axis_scale 2 1, axis_scale 2 2) 98 k c
                             = false).
  { intros k c [<- | []] Hc.
    destruct c as [|[|c]]; [reflexivity|reflexivity|lia]. }
  destruct (matchData_empty_valid_set ex_globals ex_q0 1 2 2 2 2 2 3 2 98%Q
              1%Z [0; 1] 1 1 (ex_well_shaped ex_q0 (or_introl eq_refl))
              ltac:(lia) ltac:(repeat constructor) eq_refl Hemp)
    as [scores [p [Hrun [_ [Hnan [Hp [_ [_ [Hpn Hfirst]]]]]]]]].
  exists scores, p. repeat split; assumption.
Defined.

(* ------------------------------------------------------------------ *)
(** ** Output stage *)

Lemma nth_error_combine {A B} (l1 : list A) (l2 : list B) i a b :
  nth_error l1 i = Some a -> nth_error l2 i = Some b ->
  nth_error (combine l1 l2) i = Some (a, b).
Proof.
  revert l2 i. induction l1 as [|x l1 IH]; intros [|y l2] [|i] H1 H2;
    simpl in *; try discriminate.
  - congruence.
  - now apply IH.
Qed.

Lemma np_argmin_axis1_run (m : list (list npfloat)) nc :
  m <> [] -> 0 < nc -> Forall (fun s => length s = nc) m ->
  exists am,
    np_argmin_axis1 m = Some am /\ length am = length m /\
    forall q s, nth_error m q = Some s ->
                exists p, nth_error am q = Some p /\ np_argmin s = Some p /\
                          argmin_spec s p.
Proof.
  intros Hne Hnc Hall. unfold np_argmin_axis1.
  destruct m as [|r m']; [congruence|]. set (m := r :: m') in *.
  assert (Hr : length r = nc) by (inversion Hall; assumption).
  assert (Hlens : forallb (fun r' => length r' =? length r) m = true).
  { apply forallb_forall. intros s Hs. rewrite Forall_forall in Hall.
    rewrite (Hall s Hs), Hr. apply Nat.eqb_refl. }
  rewrite Hlens.
  destruct (omap np_argmin m) as [am|] eqn:E.
  - exists am. split; [reflexivity|]. split; [now apply omap_length in E|].
    intros q s Hq.
    destruct (omap_nth_error np_argmin m am q s E Hq) as [p [Hp Hn]].
    exists p. repeat split; try assumption.
    assert (Hs : s <> []).
    { intros ->. discriminate. }
    destruct (np_argmin_spec s Hs) as [p' [Hp' Hspec]]. congruence.
  - exfalso. clear - E Hall Hnc. induction m as [|s m IH]; [discriminate|].
    simpl in E. inversion Hall as [|? ? Hs Hrest]; subst.
    destruct s as [|x s]; [simpl in Hnc; lia|]. simpl in E.
    destruct (omap np_argmin m); [discriminate|]. now apply IH.
Qed.

(** C5, as stated, fails: with the scores [NaN; 0] of query 0 the match is
    the candidate at position 0, whose score is NaN, and not the candidate
    at position 1, the only one with a score that is a number, hence the
    one of minimum score: [np.argmin] returns the position of the first
    NaN. *)
Lemma bestMatch_of_nan_first :
  bestMatch_of [[1; 0]; [0; 2]] [[NaN; Fin 0]; [NaN; Fin 1]] 2 = Some [1; 0] /\
  column 0 [[1; 0]; [0; 2]] 0 = [1; 0] /\
  np_argmin [NaN; Fin 0] = Some 0 /\
  fleb NaN (Fin 0) = false.
Proof. repeat split; reflexivity. Qed.

(** C5 (amended): for a score table with one row per query and one entry
    per candidate (at least one of each), and for every query index [q],
    the re-ranked match [bestMatch[q]] is the entry of [q]'s candidate list
    [topMatches[:, q]] at the position [p] that [np.argmin] selects in
    [q]'s score vector: the position of the first NaN if a score is NaN,
    and otherwise the first position of the minimum; in both cases no
    score is strictly below the score at [p].  The table [matchesOut]
    pairs [q] with this match, the table [matchesBaseline] pairs [q] with
    the unmodified position-0 candidate [topMatches[0, q]]. *)
Theorem bestMatch_spec (topMatches_ : list (list nat))
        (finalScores : list (list npfloat)) (nq nc : nat) :
  0 < nq -> 0 < nc ->
  length finalScores = nq ->
  Forall (fun s => length s = nc) finalScores ->
  length topMatches_ = nc ->
  Forall (fun r => length r = nq) topMatches_ ->
  exists bestMatch out base,
    bestMatch_of topMatches_ finalScores nq = Some bestMatch /\
    matchesOut bestMatch = Some out /\
    matchesBaseline topMatches_ bestMatch = Some base /\
    length bestMatch = nq /\ length out = nq /\ length base = nq /\
    forall q, q < nq ->
      let scores := nth q finalScores [] in
      let candidates := column 0 topMatches_ q in
      exists p,
        np_argmin scores = Some p /\
        p < nc /\
        (forall v, In v scores -> fltb v (nth p scores NaN) = false) /\
        argmin_spec scores p /\
        nth_error bestMatch q = Some (nth p candidates 0) /\
        nth_error out q = Some (q, nth p candidates 0) /\
        nth_error base q = Some (q, nth 0 candidates 0).
Proof.
  intros Hnq Hnc Hlen Hrows Htm Hcols.
  assert (Hne : finalScores <> []) by (destruct finalScores; simpl in *; [lia|discriminate]).
  destruct (np_argmin_axis1_run finalScores nc Hne Hnc Hrows)
    as [am [Ham [Hamlen Hamq]]].
  set (pick := fun pq : nat * nat => nth (snd pq) (nth (fst pq) topMatches_ []) 0).
  assert (Hq_am : forall q, q < nq ->
            exists p, nth_error am q = Some p /\
                      np_argmin (nth q finalScores []) = Some p /\
                      argmin_spec (nth q finalScores []) p /\ p < nc).
  { intros q Hq.
    assert (Hs : nth_error finalScores q = Some (nth q finalScores []))
      by (apply nth_error_nth'; lia).
    destruct (Hamq q _ Hs) as [p [Hp [Harg Hspec]]].
    exists p. repeat split; try assumption.
    destruct (argmin_spec_minimal _ _ Hspec) as [Hlt _].
    rewrite Forall_forall in Hrows.
    rewrite (Hrows (nth q finalScores [])) in Hlt; [exact Hlt|].
    apply nth_In. lia. }
  assert (Hbest : bestMatch_of topMatches_ finalScores nq =
                  Some (map pick (combine am (seq 0 nq)))).
  { unfold bestMatch_of. rewrite Ham. simpl obind.
    rewrite Hamlen, Hlen, Nat.eqb_refl.
    apply omap_total. intros [p q] Hpq. simpl fst. simpl snd.
    destruct (In_nth_error _ _ Hpq) as [i Hi].
    assert (Hil : i < nq).
    { assert (H : i < length (combine am (seq 0 nq)))
        by (apply nth_error_Some; congruence).
      rewrite length_combine, length_seq in H. lia. }
    destruct (Hq_am i Hil) as [p' [Hp' [_ [_ Hp'c]]]].
    assert (Hsi : nth_error (seq 0 nq) i = Some i).
    { rewrite nth_error_seq. destruct (Nat.ltb_spec i nq); [reflexivity|lia]. }
    rewrite (nth_error_combine am (seq 0 nq) i p' i Hp' Hsi) in Hi.
    injection Hi as <- <-.
    assert (Hrow : nth_error topMatches_ p' = Some (nth p' topMatches_ []))
      by (apply nth_error_nth'; lia).
    rewrite Hrow. simpl obind. unfold pick. simpl fst. simpl snd.
    apply nth_error_nth'.
    rewrite Forall_forall in Hcols. rewrite (Hcols (nth p' topMatches_ [])).
    - exact Hil.
    - apply nth_In. lia. }
  set (bestMatch := map pick (combine am (seq 0 nq))) in *.
  assert (Hbl : length bestMatch = nq).
  { unfold bestMatch. rewrite length_map, length_combine, length_seq. lia. }
  assert (Hr0 : nth_error topMatches_ 0 = Some (nth 0 topMatches_ []))
    by (apply nth_error_nth'; lia).
  assert (Hr0l : length (nth 0 topMatches_ []) = nq).
  { rewrite Forall_forall in Hcols. apply Hcols. apply nth_In. lia. }
  exists bestMatch, (combine (seq 0 nq) bestMatch),
         (combine (seq 0 nq) (nth 0 topMatches_ [])).
  split; [exact Hbest|]. split; [|split; [|split; [|split; [|split]]]].
  - unfold matchesOut, index_table. rewrite Hbl, Nat.eqb_refl. reflexivity.
  - unfold matchesBaseline, index_table. rewrite Hr0. simpl obind.
    rewrite Hbl, Hr0l, Nat.eqb_refl. reflexivity.
  - exact Hbl.
  - rewrite length_combine, length_seq. lia.
  - rewrite length_combine, length_seq. lia.
  - intros q Hq scores candidates.
    destruct (Hq_am q Hq) as [p [Hp [Harg [Hspec Hpc]]]].
    assert (Hsq : nth_error (seq 0 nq) q = Some q).
    { rewrite nth_error_seq. destruct (Nat.ltb_spec q nq); [reflexivity|lia]. }
    assert (Hcand : forall i, nth i candidates 0 = nth q (nth i topMatches_ []) 0).
    { intros i. unfold candidates, column.
      destruct (Nat.lt_ge_cases i (length topMatches_)) as [Hi|Hi].
      - rewrite (nth_indep _ 0 (nth q [] 0)) by (now rewrite length_map).
        now rewrite (map_nth (fun r => nth q r 0)).
      - rewrite (nth_overflow (map _ _)) by (rewrite length_map; lia).
        rewrite (nth_overflow topMatches_) by lia. now destruct q. }
    assert (Hbq : nth_error bestMatch q = Some (nth p candidates 0)).
    { unfold bestMatch. rewrite nth_error_map.
      rewrite (nth_error_combine am (seq 0 nq) q p q Hp Hsq). simpl.
      unfold pick. simpl. now rewrite Hcand. }
    exists p. split; [exact Harg|]. split; [exact Hpc|].
    split; [apply (argmin_spec_minimal _ _ Hspec)|].
    split; [exact Hspec|]. split; [exact Hbq|]. split.
    + apply nth_error_combine; assumption.
    + apply nth_error_combine; [exact Hsq|].
      rewrite Hcand. apply nth_error_nth'. lia.
Qed.

Lemma bestMatch_spec_witness :
  let topMatches_ := [[1; 0]; [0; 2]] in
  let finalScores := [[Fin 1; Fin 2]; [NaN; Fin 0]] in
  exists bestMatch out base,
    bestMatch_of topMatches_ finalScores 2 = Some bestMatch /\
    matchesOut bestMatch = Some out /\
    matchesBaseline topMatches_ bestMatch = Some base /\
    length bestMatch = 2.
Proof.
  intros topMatches_ finalScores.
  destruct (bestMatch_spec topMatches_ finalScores 2 2)
    as [bestMatch [out [base [H1 [H2 [H3 [H4 _]]]]]]];
    try lia; try reflexivity; try (repeat constructor).
  exists bestMatch, out, base. repeat split; assumption.
Defined.

(* ------------------------------------------------------------------ *)
(** ** Batch driver: sequential and parallel mode *)

Lemma readonly_run {A} (m : M A) g :
  readonly m -> m g = with_state g (value_of m g).
Proof.
  intros Hm. unfold value_of, with_state.
  destruct (m g) as [[a g']|] eqn:E; [|reflexivity].
  now rewrite (Hm g a g' E).
Qed.

Lemma forM_readonly {A B} (f : A -> M B) l g :
  (forall a, readonly (f a)) ->
  forM l f g = with_state g (omap (fun a => value_of (f a) g) l).
Proof.
  intros Hf. induction l as [|a l IH]; simpl; [reflexivity|].
  unfold bind. rewrite (readonly_run (f a) g (Hf a)).
  destruct (value_of (f a) g) as [b|]; simpl; [|reflexivity].
  rewrite IH. destruct (omap _ l); reflexivity.
Qed.

Lemma omap_None {A B} (f : A -> option B) l :
  omap f l = None <-> exists a, In a l /\ f a = None.
Proof.
  induction l as [|x l IH]; simpl.
  - split; [discriminate|]. intros [a [[] _]].
  - destruct (f x) eqn:Fx.
    + destruct (omap f l) eqn:Fl.
      * split; [discriminate|]. intros [a [[<- | Ha] Hn]]; [congruence|].
        assert (Hex : exists a', In a' l /\ f a' = None) by eauto.
        apply IH in Hex. discriminate.
      * split; [|reflexivity]. intros _.
        destruct (proj1 IH eq_refl) as [a [Ha Hn]]. eauto.
    + split; [|reflexivity]. intros _. exists x. auto.
Qed.

Lemma omap_app {A B} (f : A -> option B) l1 l2 :
  omap f (l1 ++ l2) =
  match omap f l1, omap f l2 with
  | Some b1, Some b2 => Some (b1 ++ b2)
  | _, _ => None
  end.
Proof.
  induction l1 as [|x l1 IH]; simpl.
  - destruct (omap f l2); reflexivity.
  - destruct (f x); [|reflexivity]. rewrite IH.
    destruct (omap f l1), (omap f l2); reflexivity.
Qed.

Lemma omap_concat {A B} (f : A -> option B) (ls : list (list A)) :
  omap f (concat ls) =
  match omap (omap f) ls with
  | Some bss => Some (concat bss)
  | None => None
  end.
Proof.
  induction ls as [|l ls IH]; simpl; [reflexivity|].
  rewrite omap_app, IH.
  destruct (omap f l); [|reflexivity].
  destruct (omap (omap f) ls); reflexivity.
Qed.

Lemma lookup_slot_map {B} (F : nat -> B) order p :
  In p order -> lookup_slot p (map (fun p' => (p', F p')) order) = Some (F p).
Proof.
  induction order as [|p' order IH]; simpl; [tauto|].
  intros H. destruct (Nat.eqb_spec p p') as [->|Hne]; [reflexivity|].
  destruct H as [->|H]; [congruence|]. now apply IH.
Qed.

(** Whatever the completion order, [pool.map] returns what a loop over the
    tasks returns, provided the tasks only read the shared state. *)
Lemma pool_map_forM {B} (f : nat -> M B) tasks order g :
  (forall t, readonly (f t)) ->
  Permutation order (seq 0 (length tasks)) ->
  pool_map f tasks order g = forM tasks f g.
Proof.
  intros Hf Hperm. unfold pool_map, bind at 1.
  set (inner := fun p => bind (lift (nth_error tasks p))
                              (fun t => bind (f t) (fun b => ret (p, b)))).
  assert (Hin : forall p, readonly (inner p)).
  { intros p. unfold inner. readonly_step. apply Hf. }
  rewrite (forM_readonly inner order g Hin).
  rewrite (forM_readonly f tasks g Hf).
  assert (Hval : forall p, value_of (inner p) g =
            match nth_error tasks p with
            | Some t => match value_of (f t) g with
                        | Some b => Some (p, b)
                        | None => None
                        end
            | None => None
            end).
  { intros p. unfold value_of, inner, bind, lift, ret.
    destruct (nth_error tasks p) as [t|]; [|reflexivity].
    destruct (f t g) as [[b g']|]; reflexivity. }
  destruct (omap (fun a => value_of (f a) g) tasks) as [bs|] eqn:E.
  - assert (Hlen : length bs = length tasks) by (now apply omap_length in E).
    destruct bs as [|b0 bs'] eqn:Ebs.
    + destruct tasks; [|discriminate]. simpl in Hperm.
      apply Permutation_sym, Permutation_nil in Hperm. subst order.
      reflexivity.
    + rewrite <- Ebs in *. clear Ebs bs'.
      assert (Hdone : omap (fun p => value_of (inner p) g) order =
                      Some (map (fun p => (p, nth p bs b0)) order)).
      { apply omap_total. intros p Hp. rewrite Hval.
        apply (Permutation_in _ Hperm) in Hp. apply in_seq in Hp.
        destruct (nth_error tasks p) as [t|] eqn:Et.
        - destruct (omap_nth_error _ tasks bs p t E Et) as [b [Hb Hn]].
          rewrite Hb. now rewrite (nth_error_nth _ _ b0 Hn).
        - apply nth_error_None in Et. lia. }
      rewrite Hdone. simpl with_state. unfold lift.
      rewrite (omap_total _ (fun p => nth p bs b0)).
      * rewrite <- Hlen, map_nth_seq. reflexivity.
      * intros p Hp. apply (lookup_slot_map (fun p' => nth p' bs b0)).
        apply (Permutation_in _ (Permutation_sym Hperm)). exact Hp.
  - apply omap_None in E. destruct E as [t [Ht Hn]].
    destruct (In_nth_error _ _ Ht) as [p Hp].
    assert (Hpo : In p order).
    { apply (Permutation_in _ (Permutation_sym Hperm)). apply in_seq.
      assert (p < length tasks) by (apply nth_error_Some; congruence). lia. }
    assert (Hnone : omap (fun p => value_of (inner p) g) order = None).
    { apply omap_None. exists p. split; [exact Hpo|].
      rewrite Hval, Hp, Hn. reflexivity. }
    rewrite Hnone. reflexivity.
Qed.

Lemma readonly_pool_map {B} (f : nat -> M B) tasks order :
  (forall t, readonly (f t)) -> readonly (pool_map f tasks order).
Proof.
  intros Hf. unfold pool_map. readonly_step. apply Hf.
Qed.

(** The batches of the parallel driver, one after the other, are the
    query indices in order. *)
Lemma concat_batches n numT m :
  concat (map (fun i => seq i (Nat.min (i + numT) n - i))
              (map (fun j => j * numT) (seq 0 m))) =
  seq 0 (Nat.min (m * numT) n).
Proof.
  induction m as [|m IH]; [reflexivity|].
  rewrite seq_S, !map_app, concat_app, IH. simpl.
  rewrite app_nil_r.
  destruct (Nat.le_gt_cases n (m * numT)) as [H|H].
  - replace (Nat.min (m * numT + numT) n - m * numT) with 0 by lia.
    simpl. rewrite app_nil_r. f_equal. lia.
  - replace (Nat.min (m * numT) n) with (m * numT) by lia.
    rewrite <- seq_app. f_equal. lia.
Qed.

Lemma range_step_covers n numT :
  0 < numT -> n <= (n + numT - 1) / numT * numT.
Proof.
  intros H.
  pose proof (Nat.div_mod_eq (n + numT - 1) numT) as Hdm.
  pose proof (Nat.mod_upper_bound (n + numT - 1) numT ltac:(lia)). nia.
Qed.


(** *** The score lists do not feed back into the scores *)

Lemma same_inputs_set_finalScores v g : same_inputs (set_finalScores v g) g.
Proof. reflexivity. Qed.

Lemma same_inputs_set_scores v g : same_inputs (set_scores v g) g.
Proof. reflexivity. Qed.

Lemma same_inputs_trans g1 g2 g3 :
  same_inputs g1 g2 -> same_inputs g2 g3 -> same_inputs g1 g3.
Proof. unfold same_inputs. congruence. Qed.

Lemma determined_ret {A} (a : A) : input_determined (ret a).
Proof. intros g1 g2 _. reflexivity. Qed.

Lemma determined_lift {A} (o : option A) : input_determined (lift o).
Proof. intros g1 g2 _. unfold value_of, lift. now destruct o. Qed.

Lemma determined_gets {A} (f : Globals -> A) :
  (forall g, f g = f (set_scores [] (set_finalScores [] g))) ->
  input_determined (gets f).
Proof.
  intros Hf g1 g2 H. unfold value_of, gets.
  rewrite (Hf g1), (Hf g2). unfold same_inputs in H. now rewrite H.
Qed.

Lemma determined_bind {A B} (m : M A) (f : A -> M B) :
  readonly m -> input_determined m -> (forall a, input_determined (f a)) ->
  input_determined (bind m f).
Proof.
  intros Hr Hm Hf g1 g2 H. specialize (Hm g1 g2 H).
  unfold value_of in *. unfold bind.
  destruct (m g1) as [[a g1']|] eqn:E1; destruct (m g2) as [[b g2']|] eqn:E2;
    try discriminate; try reflexivity.
  injection Hm as <-.
  rewrite (Hr g1 a g1' E1), (Hr g2 a g2' E2).
  exact (Hf a g1 g2 H).
Qed.

Lemma determined_forM {A B} (l : list A) (f : A -> M B) :
  (forall a, readonly (f a)) -> (forall a, input_determined (f a)) ->
  input_determined (forM l f).
Proof.
  intros Hr Hf. induction l as [|a l IH]; simpl.
  - apply determined_ret.
  - apply determined_bind; [apply Hr|apply Hf|]. intros b.
    apply determined_bind; [now apply readonly_forM|exact IH|].
    intros bs. apply determined_ret.
Qed.

Lemma determined_foldM {A S} (f : S -> A -> M S) (l : list A) (s : S) :
  (forall s a, readonly (f s a)) -> (forall s a, input_determined (f s a)) ->
  input_determined (foldM f l s).
Proof.
  intros Hr Hf. revert s. induction l as [|a l IH]; intros s; simpl.
  - apply determined_ret.
  - apply determined_bind; [apply Hr|apply Hf|]. intros s'. apply IH.
Qed.

Ltac determined_step :=
  repeat first
    [ apply determined_ret | apply determined_lift
    | apply determined_gets; intros []; reflexivity
    | apply determined_forM; intros ?
    | apply determined_foldM; intros ? ?
    | apply determined_bind; [| |intros ?]
    | progress readonly_step ].

Lemma determined_matchData_frame q kp2 sh mf T distMat lck1 :
  input_determined (matchData_frame q kp2 sh mf T distMat lck1).
Proof. unfold matchData_frame. determined_step. Qed.

Lemma determined_matchData q cands sh mf nr nf sl T :
  input_determined (matchData q cands sh mf nr nf sl T).
Proof.
  unfold matchData. apply determined_bind; [readonly_step|determined_step|].
  intros kp2. apply determined_forM; intros r.
  - apply readonly_matchData_candidate.
  - unfold matchData_candidate, matchData_minDists, matchData_table.
    apply determined_bind; [readonly_step| |intros ?; determined_step].
    apply determined_bind; [readonly_step| |intros ?; determined_step].
    apply determined_foldM; intros ? ?.
    + apply readonly_matchData_frame.
    + apply determined_matchData_frame.
Qed.

Lemma determined_processQueryIndex qIdx :
  input_determined (processQueryIndex qIdx).
Proof.
  unfold processQueryIndex.
  do 9 (apply determined_bind; [readonly_step|determined_step|intros ?]).
  apply determined_matchData.
Qed.

Lemma set_finalScores_same g : set_finalScores (finalScores g) g = g.
Proof. now destruct g. Qed.

Lemma set_scores_same g : set_scores (scores g) g = g.
Proof. now destruct g. Qed.

Lemma omap_value_same_inputs {A} (f : nat -> M A) l g1 g2 :
  (forall a, input_determined (f a)) -> same_inputs g1 g2 ->
  omap (fun a => value_of (f a) g1) l = omap (fun a => value_of (f a) g2) l.
Proof.
  intros Hf H. apply omap_ext. intros a _. now apply Hf.
Qed.

(** A loop that appends every result to [finalScores]. *)
Lemma append_finalScores_loop (f : nat -> M (list npfloat)) l g :
  (forall a, readonly (f a)) -> (forall a, input_determined (f a)) ->
  forM_ l (fun i => bind (f i) (fun s =>
             modify (fun g' => set_finalScores (finalScores g' ++ [s]) g'))) g =
  match omap (fun a => value_of (f a) g) l with
  | Some bs => Some (tt, set_finalScores (finalScores g ++ bs) g)
  | None => None
  end.
Proof.
  intros Hr Hd. revert g. induction l as [|a l IH]; intros g; simpl.
  - unfold ret. now rewrite app_nil_r, set_finalScores_same.
  - unfold bind at 1. unfold bind at 1.
    rewrite (readonly_run (f a) g (Hr a)).
    destruct (value_of (f a) g) as [s|]; [|reflexivity].
    simpl with_state. unfold modify at 1.
    set (g1 := set_finalScores (finalScores g ++ [s]) g).
    rewrite (IH g1).
    rewrite (omap_value_same_inputs f l g1 g Hd
               (same_inputs_set_finalScores _ g)).
    destruct (omap (fun a0 => value_of (f a0) g) l) as [bs|]; [|reflexivity].
    unfold g1. simpl finalScores. rewrite <- app_assoc. reflexivity.
Qed.

(** A loop that appends every batch to [scores]. *)
Lemma append_scores_loop (f : nat -> M (list (list npfloat))) l g :
  (forall a, readonly (f a)) -> (forall a, input_determined (f a)) ->
  forM_ l (fun i => bind (f i) (fun s =>
             modify (fun g' => set_scores (scores g' ++ [s]) g'))) g =
  match omap (fun a => value_of (f a) g) l with
  | Some bs => Some (tt, set_scores (scores g ++ bs) g)
  | None => None
  end.
Proof.
  intros Hr Hd. revert g. induction l as [|a l IH]; intros g; simpl.
  - unfold ret. now rewrite app_nil_r, set_scores_same.
  - unfold bind at 1. unfold bind at 1.
    rewrite (readonly_run (f a) g (Hr a)).
    destruct (value_of (f a) g) as [s|]; [|reflexivity].
    simpl with_state. unfold modify at 1.
    set (g1 := set_scores (scores g ++ [s]) g).
    rewrite (IH g1).
    rewrite (omap_value_same_inputs f l g1 g Hd (same_inputs_set_scores _ g)).
    destruct (omap (fun a0 => value_of (f a0) g) l) as [bs|]; [|reflexivity].
    unfold g1. simpl scores. rewrite <- app_assoc. reflexivity.
Qed.

Lemma value_of_with_state {A} (g : Globals) (o : option A) (m : M A) :
  m g = with_state g o -> value_of m g = o.
Proof.
  intros H. unfold value_of. rewrite H. now destruct o.
Qed.

Lemma determined_pool_map {B} (f : nat -> M B) tasks order :
  (forall t, readonly (f t)) -> (forall t, input_determined (f t)) ->
  input_determined (pool_map f tasks order).
Proof.
  intros Hr Hd. unfold pool_map.
  apply determined_bind; [|apply determined_forM; intros p|intros ?; determined_step].
  - readonly_step. apply Hr.
  - readonly_step. apply Hr.
  - apply determined_bind; [readonly_step|determined_step|intros t].
    apply determined_bind; [apply Hr|apply Hd|intros b]. apply determined_ret.
Qed.

(** What the sequential driver leaves in [finalScores]: the result of
    every query, in order. *)
Lemma run_drivers_sequential g numT sched :
  finalScores_after (run_drivers false numT sched) g =
  omap (fun q => value_of (processQueryIndex q) g) (seq 0 (numQueryImgs g)).
Proof.
  unfold finalScores_after, run_drivers, cell_sequential, cell_multithreading.
  unfold bind at 1. unfold bind at 1. unfold modify at 1.
  change (negb false) with true. cbv iota.
  unfold bind at 1. unfold gets at 1. cbv beta.
  rewrite (append_finalScores_loop processQueryIndex _ _
             readonly_processQueryIndex determined_processQueryIndex).
  rewrite (omap_value_same_inputs processQueryIndex _ _ g
             determined_processQueryIndex (same_inputs_set_finalScores [] g)).
  simpl numQueryImgs.
  destruct (omap _ (seq 0 (numQueryImgs g))); reflexivity.
Qed.

(** What the parallel driver leaves in [finalScores]: the concatenation of
    the batches, when there is one. *)
Lemma run_drivers_parallel g numT sched :
  0 < numT ->
  (forall j, j * numT < numQueryImgs g ->
             Permutation (sched (j * numT))
                         (seq 0 (Nat.min (j * numT + numT) (numQueryImgs g)
                                 - j * numT))) ->
  finalScores_after (run_drivers true numT sched) g =
  match omap (fun q => value_of (processQueryIndex q) g)
             (seq 0 (numQueryImgs g)) with
  | Some fs => if numQueryImgs g =? 0 then None else Some fs
  | None => None
  end.
Proof.
  intros HT Hsched. set (n := numQueryImgs g).
  set (res := fun t => value_of (processQueryIndex t) g).
  set (batch := fun i => seq i (Nat.min (i + numT) n - i)).
  set (m := (n + numT - 1) / numT).
  set (starts := map (fun j => j * numT) (seq 0 m)).
  pose proof (range_step_covers n numT HT) as Hcov. fold m in Hcov.
  set (g1 := set_scores [] (set_finalScores [] g)).
  assert (Hg1 : same_inputs g1 g) by reflexivity.
  set (F := fun i => pool_map processQueryIndex
                              (seq i (Nat.min (i + numT) n - i)) (sched i)).
  assert (HFr : forall i, readonly (F i)).
  { intros i. apply readonly_pool_map. apply readonly_processQueryIndex. }
  assert (HFd : forall i, input_determined (F i)).
  { intros i. apply determined_pool_map;
      [apply readonly_processQueryIndex|apply determined_processQueryIndex]. }
  assert (Hbatches : omap (fun i => value_of (F i) g1) starts =
                     omap (omap res) (map batch starts)).
  { rewrite omap_map. apply omap_ext. intros i Hi.
    rewrite (HFd i g1 g Hg1).
    apply value_of_with_state.
    unfold starts in Hi. apply in_map_iff in Hi.
    destruct Hi as [j [<- Hj]]. apply in_seq in Hj.
    assert (Hjn : j * numT < n).
    { pose proof (Nat.Div0.mul_div_le (n + numT - 1) numT) as Hle.
      fold m in Hle. nia. }
    unfold F. rewrite pool_map_forM.
    - apply forM_readonly. intros a. apply readonly_processQueryIndex.
    - intros t. apply readonly_processQueryIndex.
    - rewrite length_seq. apply Hsched. exact Hjn. }
  assert (Hcat : seq 0 n = concat (map batch starts)).
  { unfold starts, batch. rewrite concat_batches. f_equal. lia. }
  unfold finalScores_after, run_drivers, cell_sequential, cell_multithreading.
  unfold bind at 1. unfold bind at 1. unfold modify at 1.
  change (negb true) with false. cbv iota.
  unfold ret at 1. unfold bind at 1. unfold modify at 1.
  unfold bind at 1. unfold gets at 1.
  change (numQueryImgs (set_scores [] (set_finalScores [] g))) with n.
  unfold bind at 1. unfold lift at 1. unfold range_step.
  destruct (Nat.eqb_spec numT 0) as [E|_]; [lia|].
  fold m. fold starts. unfold bind at 1. fold g1.
  change (fun i => bind (pool_map processQueryIndex
                                  (seq i (Nat.min (i + numT) n - i)) (sched i))
                        (fun s => modify (fun g0 => set_scores (scores g0 ++ [s]) g0)))
    with (fun i => bind (F i)
                        (fun s => modify (fun g0 => set_scores (scores g0 ++ [s]) g0))).
  rewrite (append_scores_loop F starts g1 HFr HFd).
  rewrite Hbatches. fold res. rewrite Hcat, omap_concat.
  destruct (omap (omap res) (map batch starts)) as [bss|] eqn:E;
    [|reflexivity].
  unfold bind, gets, lift, modify. simpl scores.
  assert (Hlen : length bss = m).
  { apply omap_length in E. rewrite length_map in E. unfold starts in E.
    now rewrite length_map, length_seq in E. }
  destruct (Nat.eqb_spec n 0) as [Hn0|Hn0].
  - assert (Hm0 : m = 0).
    { unfold m. rewrite Hn0. apply Nat.div_small. lia. }
    destruct bss; [reflexivity|simpl in Hlen; lia].
  - destruct bss as [|bs bss']; [simpl in Hlen; nia|]. reflexivity.
Qed.

Lemma chunk_concat (t : tensor) n :
  Forall (fun r => length r = n) t -> chunk (length t) n (concat t) = t.
Proof.
  induction t as [|r t IH]; intros H; simpl; [reflexivity|].
  inversion H as [|? ? Hr Ht]; subst.
  rewrite firstn_app, Nat.sub_diag, firstn_all, firstn_O, app_nil_r.
  rewrite skipn_app, Nat.sub_diag, skipn_all, skipn_O. simpl.
  now rewrite IH.
Qed.

Lemma length_concat_rect (t : tensor) n :
  Forall (fun r => length r = n) t -> length (concat t) = length t * n.
Proof.
  induction t as [|r t IH]; intros H; simpl; [reflexivity|].
  inversion H; subst. rewrite length_app, IH by assumption. reflexivity.
Qed.

(** Reshaping a tensor that already has [n] columns changes nothing. *)
Lemma reshape_rows_id (t : tensor) n :
  0 < n -> Forall (fun r => length r = n) t -> reshape_rows n t = Some t.
Proof.
  intros Hn H. unfold reshape_rows.
  destruct (Nat.eqb_spec n 0); [lia|].
  rewrite (length_concat_rect t n H), Nat.Div0.mod_mul, Nat.eqb_refl.
  rewrite Nat.div_mul by lia. now rewrite chunk_concat.
Qed.

(** One query, processed alone: the scores of its candidate list. *)
Lemma processQueryIndex_run (g : Globals) (qIdx : nat) (q : tensor)
      (cands : list nat) (fullRows fullCols cells : nat) :
  omap (fun r => nth_error r qIdx) (topMatches g) = Some cands ->
  nth_error (queryFiles g) qIdx = Some q ->
  0 < numFmaps g ->
  well_shaped g q (fst (c5Shape g)) (snd (c5Shape g)) fullRows fullCols cells
              (numFmaps g) (numRefImgs g) ->
  mulFac_dep2c5 g = (axis_scale fullRows (fst (c5Shape g)),
                     axis_scale fullCols (snd (c5Shape g))) ->
  (1 <= seqL g)%Z ->
  Forall (fun r => r < numRefImgs g) cands ->
  processQueryIndex qIdx g =
  Some (map (fun r => table_score g q (snd (c5Shape g)) (mulFac_dep2c5 g)
                        (depT g)
                        (getRefSeqInfo (Z.of_nat r) (Z.of_nat (numRefImgs g))
                                       (seqL g))
                        (numFmaps g)) cands, g).
Proof.
  intros Hc Hq Hnf WS Hmf HL Hr.
  unfold processQueryIndex, bind, gets, lift.
  rewrite Hc, Hq, (reshape_rows_id q (numFmaps g) Hnf (ws_query_cols WS)).
  rewrite Hmf. rewrite (surjective_pairing (c5Shape g)) at 1.
  apply (matchData_run g q (fst (c5Shape g)) (snd (c5Shape g)) fullRows
           fullCols cells (numFmaps g) (numRefImgs g) (depT g) WS cands
           (numFmaps g) (seqL g)).
  intros r Hin Hnil. rewrite Forall_forall in Hr. specialize (Hr r Hin).
  pose proof (getRefSeqInfo_center (Z.of_nat r) (Z.of_nat (numRefImgs g))
                (seqL g) ltac:(lia) HL) as Hi.
  rewrite Hnil in Hi. exact Hi.
Qed.

Lemma ex_processQueryIndex (qIdx : nat) :
  qIdx < 2 -> exists s, processQueryIndex qIdx ex_globals = Some (s, ex_globals).
Proof.
  intros H. destruct qIdx as [|[|qIdx]]; [| |lia].
  - eexists.
    apply (processQueryIndex_run ex_globals 0 ex_q0 [1; 0] 2 2 2);
      try reflexivity; simpl; try lia.
    + apply ex_well_shaped. now left.
    + repeat constructor.
  - eexists.
    apply (processQueryIndex_run ex_globals 1 ex_q1 [0; 2] 2 2 2);
      try reflexivity; simpl; try lia.
    + apply ex_well_shaped. now right.
    + repeat constructor.
Qed.

(** *** The driver cells leave the inputs alone *)

Lemma keeps_of_readonly {A} (m : M A) : readonly m -> keeps_inputs m.
Proof. intros H g a g' E. rewrite (H g a g' E). reflexivity. Qed.

Lemma keeps_bind {A B} (m : M A) (f : A -> M B) :
  keeps_inputs m -> (forall a, keeps_inputs (f a)) -> keeps_inputs (bind m f).
Proof.
  intros Hm Hf g b g' H. unfold bind in H.
  destruct (m g) as [[a g1]|] eqn:E; [|discriminate].
  eapply same_inputs_trans; [eapply Hf; exact H|eapply Hm; exact E].
Qed.

Lemma keeps_forM_ {A} (l : list A) (f : A -> M unit) :
  (forall a, keeps_inputs (f a)) -> keeps_inputs (forM_ l f).
Proof.
  intros Hf. induction l as [|a l IH]; simpl.
  - apply keeps_of_readonly, readonly_ret.
  - apply keeps_bind; [apply Hf|]. intros _. exact IH.
Qed.

Lemma keeps_set_finalScores (v : Globals -> list (list npfloat)) :
  keeps_inputs (modify (fun g => set_finalScores (v g) g)).
Proof. intros g a g' H. unfold modify in H. injection H as _ <-. reflexivity. Qed.

Lemma keeps_set_scores (v : Globals -> list (list (list npfloat))) :
  keeps_inputs (modify (fun g => set_scores (v g) g)).
Proof. intros g a g' H. unfold modify in H. injection H as _ <-. reflexivity. Qed.

Lemma run_drivers_keeps_inputs mt numT sched g g' :
  run_drivers mt numT sched g = Some (tt, g') ->
  denseFtRefAll g' = denseFtRefAll g /\
  depImgRefAll g' = depImgRefAll g /\
  imgDescRef g' = imgDescRef g /\
  imgDescQuery g' = imgDescQuery g /\
  topMatches g' = topMatches g.
Proof.
  intros H.
  assert (Hk : keeps_inputs (run_drivers mt numT sched)).
  { unfold run_drivers, cell_sequential, cell_multithreading.
    apply keeps_bind.
    - apply keeps_bind; [apply (keeps_set_finalScores (fun _ => []))|].
      intros _. destruct mt; simpl.
      + apply keeps_of_readonly, readonly_ret.
      + apply keeps_bind; [apply keeps_of_readonly, readonly_gets|].
        intros n. apply keeps_forM_. intros i.
        apply keeps_bind;
          [apply keeps_of_readonly, readonly_processQueryIndex|].
        intros s.
        apply (keeps_set_finalScores (fun g0 => finalScores g0 ++ [s])).
    - intros _. destruct mt; [|apply keeps_of_readonly, readonly_ret].
      apply keeps_bind; [apply (keeps_set_scores (fun _ => []))|]. intros _.
      apply keeps_bind; [apply keeps_of_readonly, readonly_gets|]. intros n.
      apply keeps_bind; [apply keeps_of_readonly, readonly_lift|].
      intros starts.
      apply keeps_bind.
      + apply keeps_forM_. intros i.
        apply keeps_bind.
        * apply keeps_of_readonly, readonly_pool_map.
          apply readonly_processQueryIndex.
        * intros s. apply (keeps_set_scores (fun g0 => scores g0 ++ [s])).
      + intros _.
        apply keeps_bind; [apply keeps_of_readonly, readonly_gets|]. intros sc.
        apply keeps_bind; [apply keeps_of_readonly, readonly_lift|]. intros fs.
        apply (keeps_set_finalScores (fun _ => fs)). }
  specialize (Hk g tt g' H). unfold same_inputs in Hk.
  destruct g, g'. simpl in *. injection Hk as ? ? ? ? ? ? ? ? ? ? ? ? ?.
  repeat split; assumption.
Qed.

(** C9, as stated, fails: on a data set without query images the
    sequential driver ends with the empty score list, while the parallel
    driver raises in [np.concatenate] of an empty list of batches. *)
Lemma run_drivers_no_query :
  finalScores_after (run_drivers false 4 (fun _ => [])) ex_globals_no_query
    = Some [] /\
  (forall sched,
      finalScores_after (run_drivers true 4 sched) ex_globals_no_query
        = None).
Proof. split; [reflexivity|]. intros sched. reflexivity. Qed.

(** C9 (amended): on every data set with at least one query image, for
    every worker count and every completion order of the tasks of each
    batch, the parallel driver and the sequential driver leave the same
    list in [finalScores] (or both raise); the entry at position [q] is the
    result of processing query [q] alone. *)
Theorem run_drivers_parallel_sequential
        (g : Globals) (numT : nat) (sched : nat -> list nat) :
  0 < numT ->
  0 < numQueryImgs g ->
  (forall j, j * numT < numQueryImgs g ->
             Permutation (sched (j * numT))
                         (seq 0 (Nat.min (j * numT + numT) (numQueryImgs g)
                                 - j * numT))) ->
  finalScores_after (run_drivers true numT sched) g =
  finalScores_after (run_drivers false numT sched) g /\
  forall fs,
    finalScores_after (run_drivers false numT sched) g = Some fs ->
    length fs = numQueryImgs g /\
    forall q, q < numQueryImgs g ->
              exists s, processQueryIndex q g = Some (s, g) /\
                        nth_error fs q = Some s.
Proof.
  intros HT Hn Hsched. split.
  - rewrite (run_drivers_parallel g numT sched HT Hsched).
    rewrite run_drivers_sequential.
    destruct (Nat.eqb_spec (numQueryImgs g) 0) as [E|_]; [lia|].
    now destruct (omap _ (seq 0 (numQueryImgs g))).
  - intros fs Hfs. rewrite run_drivers_sequential in Hfs. split.
    + apply omap_length in Hfs. now rewrite length_seq in Hfs.
    + intros q Hq.
      assert (Hsq : nth_error (seq 0 (numQueryImgs g)) q = Some q).
      { rewrite nth_error_seq.
        destruct (Nat.ltb_spec q (numQueryImgs g)); [reflexivity|lia]. }
      destruct (omap_nth_error _ _ fs q q Hfs Hsq) as [s [Hs Hn']].
      exists s. split; [|exact Hn'].
      rewrite (readonly_run (processQueryIndex q) g
                 (readonly_processQueryIndex q)).
      now rewrite Hs.
Qed.

Lemma run_drivers_parallel_sequential_witness :
  exists s0 s1,
    processQueryIndex 0 ex_globals = Some (s0, ex_globals) /\
    processQueryIndex 1 ex_globals = Some (s1, ex_globals) /\
    finalScores_after (run_drivers false 4 (fun _ => [1; 0])) ex_globals =
      Some [s0; s1] /\
    finalScores_after (run_drivers true 4 (fun _ => [1; 0])) ex_globals =
      Some [s0; s1].
Proof.
  destruct (ex_processQueryIndex 0 ltac:(lia)) as [s0 H0].
  destruct (ex_processQueryIndex 1 ltac:(lia)) as [s1 H1].
  assert (Hseq : finalScores_after (run_drivers false 4 (fun _ => [1; 0]))
                                   ex_globals = Some [s0; s1]).
  { rewrite run_drivers_sequential.
    change (numQueryImgs ex_globals) with 2. cbn [seq omap].
    unfold value_of. rewrite H0, H1. reflexivity. }
  exists s0, s1. split; [exact H0|]. split; [exact H1|].
  split; [exact Hseq|]. rewrite <- Hseq.
  apply (run_drivers_parallel_sequential ex_globals 4 (fun _ => [1; 0])).
  - lia.
  - simpl. lia.
  - intros j Hj. simpl in Hj. assert (j = 0) by lia. subst j.
    simpl. apply perm_swap.
Defined.

(* ================================================================== *)
(** * Further properties of the components *)
(* ================================================================== *)

(* ------------------------------------------------------------------ *)
(** ** Cosine distance of corresponding rows *)

Lemma omap_combine_swap {A B} (f g : A * A -> option B) r1 r2 :
  (forall a b, f (a, b) = g (b, a)) ->
  omap f (combine r1 r2) = omap g (combine r2 r1).
Proof.
  intros H. revert r2. induction r1 as [|a r1 IH]; intros [|b r2];
    try reflexivity.
  simpl. now rewrite H, IH.
Qed.

(** X2: the distance does not depend on which of the two arrays comes
    first. *)
Theorem get_cosine_corresponding_vectors_sym w1 w2 d1 d2 :
  get_cosine_corresponding_vectors w1 w2 d1 d2 =
  get_cosine_corresponding_vectors w2 w1 d2 d1.
Proof.
  unfold get_cosine_corresponding_vectors.
  rewrite (broadcast_shape_comm (length d2)), (broadcast_shape_comm w2).
  destruct (broadcast_shape (length d1) (length d2)) as [n|];
    cbn [obind]; [|reflexivity].
  destruct (broadcast_shape w1 w2) as [w|]; cbn [obind]; [|reflexivity].
  destruct (broadcast_to n d1) as [r1|], (broadcast_to n d2) as [r2|];
    cbn [obind]; try reflexivity.
  apply omap_combine_swap. intros a b. cbn [fst snd].
  destruct (broadcast_to w a), (broadcast_to w b); cbn [obind];
    try reflexivity.
  now rewrite dotQ_sym, fmul_comm.
Qed.

(* ------------------------------------------------------------------ *)
(** ** The window of reference frames *)

Lemma half_ceiling (L : Z) : (- (- L / 2) = L - L / 2)%Z.
Proof. Z.div_mod_to_equations. lia. Qed.

Lemma getRefSeqInfo_nonpositive (r count L : Z) :
  (L <= 0)%Z -> getRefSeqInfo r count L = [].
Proof.
  intros HL. unfold getRefSeqInfo, arange. rewrite half_ceiling.
  assert (H : (L / 2 <= 0 /\ L - L / 2 <= 0)%Z)
    by (Z.div_mod_to_equations; lia).
  replace (Z.to_nat _) with 0%nat by lia. reflexivity.
Qed.

(** X5: away from both ends of the reference set the window of a
    non-negative length [L] is the run of exactly [L] consecutive frames
    that starts [L / 2] (rounded down) before the candidate. *)
Theorem getRefSeqInfo_interior (r count L : Z) :
  (0 <= L)%Z -> (L / 2 <= r)%Z -> (r + (L - L / 2) <= count)%Z ->
  getRefSeqInfo r count L =
  map (fun i => (r - L / 2 + Z.of_nat i)%Z) (seq 0 (Z.to_nat L)).
Proof.
  intros HL Hlo Hhi. unfold getRefSeqInfo, arange. rewrite half_ceiling.
  rewrite Z.max_l, Z.min_l by lia.
  replace (r + (L - L / 2) - (r - L / 2))%Z with L by lia. reflexivity.
Qed.

Lemma getRefSeqInfo_interior_witness :
  getRefSeqInfo 5 10 4 =
  map (fun i => (5 - 4 / 2 + Z.of_nat i)%Z) (seq 0 (Z.to_nat 4)).
Proof.
  apply (getRefSeqInfo_interior 5 10 4); vm_compute; discriminate.
Defined.

(** X6: a longer window contains every frame of a shorter one around the
    same candidate. *)
Theorem getRefSeqInfo_monotone (r count L1 L2 : Z) :
  (L1 <= L2)%Z ->
  incl (getRefSeqInfo r count L1) (getRefSeqInfo r count L2).
Proof.
  intros HL k. unfold getRefSeqInfo. rewrite !arange_In, !half_ceiling.
  assert (H : (L1 / 2 <= L2 / 2 /\ L1 - L1 / 2 <= L2 - L2 / 2)%Z)
    by (Z.div_mod_to_equations; lia).
  lia.
Qed.

Lemma getRefSeqInfo_monotone_witness :
  incl (getRefSeqInfo 5 10 2) (getRefSeqInfo 5 10 3).
Proof.
  apply (getRefSeqInfo_monotone 5 10 2 3). vm_compute. discriminate.
Defined.

(* ------------------------------------------------------------------ *)
(** ** Edge cases and composition of the re-ranker *)

Lemma matchData_candidate_no_window q kp sh mf nr seqLen dt rIdx g :
  getRefSeqInfo (Z.of_nat rIdx) (Z.of_nat nr) seqLen = [] ->
  matchData_candidate q kp sh mf nr seqLen dt rIdx g = None.
Proof.
  intros H. unfold matchData_candidate, matchData_minDists, matchData_table.
  rewrite H. reflexivity.
Qed.

(** X7: with a window length of zero or less, [matchData] raises as soon
    as there is a candidate to score: the table of the first candidate has
    no column to take a minimum over. *)
Theorem matchData_nonpositive_seqLen q cands sh mf nr nf seqLen dt g :
  (seqLen <= 0)%Z -> cands <> [] ->
  matchData q cands sh mf nr nf seqLen dt g = None.
Proof.
  intros HL Hc. unfold matchData, bind at 1, lift.
  destruct (argmax_axis0 q) as [kp|]; [|reflexivity].
  destruct cands as [|r cands]; [congruence|].
  simpl forM. unfold bind at 1.
  rewrite matchData_candidate_no_window; [reflexivity|].
  now apply getRefSeqInfo_nonpositive.
Qed.

Lemma matchData_nonpositive_seqLen_witness :
  matchData ex_q0 [1; 0] (1, 2) (axis_scale 2 1, axis_scale 2 2) 3 2 0 98%Q
            ex_globals = None.
Proof.
  apply (matchData_nonpositive_seqLen ex_q0 [1; 0] (1, 2)
           (axis_scale 2 1, axis_scale 2 2) 3 2 0%Z 98%Q ex_globals).
  - vm_compute. discriminate.
  - discriminate.
Defined.

(** X8: the candidates are scored independently of one another: the
    scores of a concatenated candidate list are the scores of its two
    parts, one after the other, and the call raises when either part
    does. *)
Theorem matchData_app q l1 l2 sh mf nr nf sl dt g :
  value_of (matchData q (l1 ++ l2) sh mf nr nf sl dt) g =
  match value_of (matchData q l1 sh mf nr nf sl dt) g,
        value_of (matchData q l2 sh mf nr nf sl dt) g with
  | Some s1, Some s2 => Some (s1 ++ s2)
  | _, _ => None
  end.
Proof.
  unfold value_of, matchData, bind, lift.
  destruct (argmax_axis0 q) as [kp|]; [|reflexivity].
  rewrite !forM_readonly by (intros r; apply readonly_matchData_candidate).
  rewrite omap_app.
  destruct (omap _ l1) as [s1|]; [|reflexivity].
  destruct (omap _ l2) as [s2|]; reflexivity.
Qed.

(* ------------------------------------------------------------------ *)
(** ** The keypoint projector outside and inside the grid *)

Lemma getKP2d_None_iff (kpInds : list nat) (gridRows gridCols : nat)
      (mulFac : npfloat * npfloat) :
  getKP2d kpInds (gridRows, gridCols) mulFac = None <->
  exists f, In f kpInds /\ gridRows * gridCols <= f.
Proof.
  unfold getKP2d. rewrite omap_None.
  split; intros [f [Hf H]]; exists f; (split; [exact Hf|]).
  - unfold unravel_index in H.
    destruct (Nat.ltb_spec f (gridRows * gridCols)); [discriminate|lia].
  - unfold unravel_index.
    destruct (Nat.ltb_spec f (gridRows * gridCols)); [lia|reflexivity].
Qed.

(** X11: [getKP2d] raises exactly when one of the flat indices lies
    outside the grid, and then [getKpDep] raises as well. *)
Theorem getKP2d_raises_iff (kpInds : list nat) (gridRows gridCols : nat)
        (mulFac : npfloat * npfloat) :
  (getKP2d kpInds (gridRows, gridCols) mulFac = None <->
   exists f, In f kpInds /\ gridRows * gridCols <= f) /\
  (forall depImg,
      getKP2d kpInds (gridRows, gridCols) mulFac = None ->
      getKpDep kpInds depImg (gridRows, gridCols) mulFac = None).
Proof.
  split; [apply getKP2d_None_iff|].
  intros depImg H. unfold getKpDep. now rewrite H.
Qed.

(** On an axis with at least as many pixels as grid cells, the projector
    separates the cells. *)
Lemma kp_coord_injective (F G a b : nat) :
  G <= F -> a < G -> b < G -> (Z.of_nat (F * G) <= 2 ^ 51)%Z ->
  kp_coord (axis_scale F G) a = kp_coord (axis_scale F G) b -> a = b.
Proof.
  intros HGF Ha Hb Hs E.
  assert (E51 : (2 ^ 51 = 2251799813685248)%Z) by reflexivity.
  assert (E53 : (2 ^ 53 = 9007199254740992)%Z) by reflexivity.
  destruct (Nat.eq_dec F G) as [->|Hne].
  - rewrite !kp_coord_identity in E by (rewrite ?E53; nia). lia.
  - pose proof (kp_coord_bracket F G a ltac:(lia) Ha Hs) as Ba.
    pose proof (kp_coord_bracket F G b ltac:(lia) Hb Hs) as Bb.
    cbv zeta in Ba, Bb. rewrite <- E in Bb.
    destruct Ba as [_ [A1 A2]]. destruct Bb as [_ [B1 B2]].
    set (x := kp_coord (axis_scale F G) a) in *. clearbody x. clear E.
    nia.
Qed.

(** X12: when the depth map has at least as many rows and columns as the
    grid (and the sizes are such that the products of index and scale are
    computed in binary64 with an error below one grid step: the product
    of the two sizes of an axis is at most [2^51]), two different cells of
    the grid are projected to two different pixels. *)
Theorem getKP2d_distinct_pixels
        (gridRows gridCols fullRows fullCols f1 f2 : nat) (p1 p2 : Z * Z) :
  gridRows <= fullRows -> gridCols <= fullCols ->
  (Z.of_nat (fullRows * gridRows) <= 2 ^ 51)%Z ->
  (Z.of_nat (fullCols * gridCols) <= 2 ^ 51)%Z ->
  getKP2d [f1; f2] (gridRows, gridCols)
          (axis_scale fullRows gridRows, axis_scale fullCols gridCols)
    = Some [p1; p2] ->
  f1 <> f2 -> p1 <> p2.
Proof.
  intros HR HC HsR HsC Hrun Hne Hp.
  assert (Hin : Forall (fun f => f < gridRows * gridCols) [f1; f2]).
  { apply Forall_forall. intros f Hf.
    destruct (Nat.lt_ge_cases f (gridRows * gridCols)) as [H|H]; [exact H|].
    assert (Hex : exists f', In f' [f1; f2] /\ gridRows * gridCols <= f')
      by eauto.
    apply (getKP2d_None_iff [f1; f2] gridRows gridCols
             (axis_scale fullRows gridRows, axis_scale fullCols gridCols))
      in Hex.
    congruence. }
  rewrite (getKP2d_pixels gridRows gridCols
             (axis_scale fullRows gridRows, axis_scale fullCols gridCols)
             [f1; f2] Hin)
    in Hrun.
  cbn [map] in Hrun. injection Hrun as <- <-.
  inversion Hin as [|? ? H1 Hin2]; subst.
  inversion Hin2 as [|? ? H2 _]; subst.
  assert (HgC : 0 < gridCols) by (destruct gridCols; lia).
  assert (HgR : 0 < gridRows) by lia.
  pose proof (f_equal fst Hp) as Hx. pose proof (f_equal snd Hp) as Hy.
  cbn [fst snd] in Hx, Hy. unfold kp_x in Hx. unfold kp_y in Hy.
  cbn [fst snd] in Hx, Hy.
  apply kp_coord_injective in Hx;
    [|exact HC|apply Nat.mod_upper_bound; lia
     |apply Nat.mod_upper_bound; lia|exact HsC].
  apply kp_coord_injective in Hy;
    [|exact HR|apply Nat.Div0.div_lt_upper_bound; lia
     |apply Nat.Div0.div_lt_upper_bound; lia|exact HsR].
  apply Hne.
  rewrite (Nat.div_mod_eq f1 gridCols), (Nat.div_mod_eq f2 gridCols).
  now rewrite Hx, Hy.
Qed.

Lemma getKP2d_distinct_pixels_witness :
  getKP2d [0; 1] (1, 2) (axis_scale 2 1, axis_scale 2 2)
    = Some [(0%Z, 0%Z); (1%Z, 0%Z)] /\
  (0%Z, 0%Z) <> (1%Z, 0%Z).
Proof.
  split; [reflexivity|].
  apply (getKP2d_distinct_pixels 1 2 2 2 0 1 (0%Z, 0%Z) (1%Z, 0%Z)).
  - lia.
  - lia.
  - vm_compute. discriminate.
  - vm_compute. discriminate.
  - reflexivity.
  - discriminate.
Defined.

(* ------------------------------------------------------------------ *)
(** ** From the distance matrix to the re-ranked matches *)

Lemma argsort_length col : length (argsort col) = length col.
Proof.
  destruct (argsort_is_argsort col) as [Hp _].
  rewrite (Permutation_length Hp). apply length_seq.
Qed.

Lemma argsort_bound col i : In i (argsort col) -> i < length col.
Proof.
  destruct (argsort_is_argsort col) as [Hp _]. intros Hi.
  apply (Permutation_in _ Hp) in Hi. apply in_seq in Hi. lia.
Qed.

Lemma Forall_firstn_of {A} (P : A -> Prop) n l :
  Forall P l -> Forall P (firstn n l).
Proof.
  rewrite !Forall_forall. intros H x Hx. apply H. eapply In_firstn. exact Hx.
Qed.

Lemma topMatches_of_rows distMat topN :
  Forall (fun r => length r = shape1 distMat /\
                   Forall (fun i => i < length distMat) r)
         (topMatches_of distMat topN).
Proof.
  unfold topMatches_of. apply Forall_firstn_of. unfold argsort_axis0.
  apply Forall_forall. intros r Hr. apply in_map_iff in Hr.
  destruct Hr as [i [<- Hi]]. apply in_seq in Hi. split.
  - now rewrite length_map, length_seq.
  - apply Forall_forall. intros b Hb. apply in_map_iff in Hb.
    destruct Hb as [q [<- _]].
    assert (Hlen : length (column 0%Q distMat q) = length distMat)
      by apply length_map.
    rewrite <- Hlen. apply argsort_bound. apply nth_In.
    rewrite argsort_length, Hlen. lia.
Qed.

(** X13: the candidate array has [min(topN, R)] rows for [R] reference
    images, one column per query, and holds reference indices only. *)
Theorem topMatches_of_shape (distMat : list (list Q)) (topN : nat) :
  length (topMatches_of distMat topN) = Nat.min topN (length distMat) /\
  Forall (fun r => length r = shape1 distMat) (topMatches_of distMat topN) /\
  Forall (Forall (fun i => i < length distMat)) (topMatches_of distMat topN).
Proof.
  pose proof (topMatches_of_rows distMat topN) as H.
  rewrite Forall_forall in H. split; [|split].
  - unfold topMatches_of, argsort_axis0.
    now rewrite length_firstn, length_map, length_seq.
  - apply Forall_forall. intros r Hr. now apply H.
  - apply Forall_forall. intros r Hr. now apply H.
Qed.

Lemma column_lookup (m : list (list nat)) (q : nat) :
  Forall (fun r => q < length r) m ->
  omap (fun r => nth_error r q) m = Some (column 0 m q).
Proof.
  intros H. unfold column. apply omap_total. intros r Hr.
  rewrite Forall_forall in H. apply nth_error_nth'. now apply H.
Qed.

Lemma omap_defined {A B} (f : A -> option B) l :
  (forall a, In a l -> exists b, f a = Some b) ->
  exists bs, omap f l = Some bs.
Proof.
  intros H. destruct (omap f l) as [bs|] eqn:E; [eauto|].
  apply omap_None in E. destruct E as [a [Ha Hn]].
  destruct (H a Ha) as [b Hb]. congruence.
Qed.

Lemma nth_error_combine_seq {A} (l : list A) n i p j :
  nth_error (combine l (seq 0 n)) i = Some (p, j) ->
  nth_error l i = Some p /\ j = i /\ i < n.
Proof.
  intros H.
  assert (Hi : i < length (combine l (seq 0 n))).
  { apply nth_error_Some. congruence. }
  rewrite length_combine, length_seq in Hi.
  destruct (nth_error l i) as [p'|] eqn:El;
    [|apply nth_error_None in El; lia].
  assert (Es : nth_error (seq 0 n) i = Some i).
  { rewrite (nth_error_nth' _ 0) by (rewrite length_seq; lia).
    rewrite seq_nth by lia. reflexivity. }
  rewrite (nth_error_combine l (seq 0 n) i p' i El Es) in H.
  injection H as <- <-. repeat split. lia.
Qed.

(** An entry of [bestMatch] comes out of the column of its query. *)
Lemma bestMatch_of_In tm fs nq bm q b :
  bestMatch_of tm fs nq = Some bm -> nth_error bm q = Some b ->
  In b (column 0 tm q).
Proof.
  unfold bestMatch_of. intros H Hb.
  destruct (np_argmin_axis1 fs) as [am|]; [|discriminate]. simpl in H.
  destruct (length am =? nq); [|discriminate].
  assert (Hq : q < length (combine am (seq 0 nq))).
  { rewrite <- (omap_length _ _ _ H). apply nth_error_Some. congruence. }
  destruct (nth_error (combine am (seq 0 nq)) q) as [[p j]|] eqn:E;
    [|apply nth_error_None in E; lia].
  destruct (omap_nth_error _ _ _ _ _ H E) as [b' [Hl Hb']].
  assert (b' = b) by congruence. subst b'.
  apply nth_error_combine_seq in E. destruct E as [_ [-> _]].
  simpl in Hl. destruct (nth_error tm p) as [r|] eqn:Er; [|discriminate].
  simpl in Hl. unfold column. apply in_map_iff. exists r. split.
  - now apply nth_error_nth.
  - eapply nth_error_In. exact Er.
Qed.

(** X14: whatever the scores are, an entry that the output stage selects
    for query [q] is one of the candidates of [q]. *)
Theorem bestMatch_of_candidate (topMatches_ : list (list nat))
        (finalScores_ : list (list npfloat)) (nq : nat)
        (bestMatch : list nat) (q b : nat) :
  bestMatch_of topMatches_ finalScores_ nq = Some bestMatch ->
  nth_error bestMatch q = Some b ->
  In b (column 0 topMatches_ q) /\ q < nq.
Proof.
  intros H Hb. split; [eapply bestMatch_of_In; eassumption|].
  unfold bestMatch_of in H.
  destruct (np_argmin_axis1 finalScores_) as [am|]; [|discriminate].
  simpl in H. destruct (length am =? nq); [|discriminate].
  apply omap_length in H. rewrite length_combine, length_seq in H.
  assert (q < length bestMatch) by (apply nth_error_Some; congruence).
  lia.
Qed.

Lemma bestMatch_of_candidate_witness :
  In 2 (column 0 [[1; 0]; [0; 2]] 1) /\ 1 < 2.
Proof.
  apply (bestMatch_of_candidate [[1; 0]; [0; 2]]
           [[NaN; Fin 0]; [Fin 1; NaN]] 2 [1; 2] 1 2); reflexivity.
Defined.

Lemma argmin_spec_bound l p : argmin_spec l p -> p < length l.
Proof.
  intros [vp [H _]]. apply nth_error_Some. congruence.
Qed.

(** X15: the stages compose.  When the candidate array is what the
    retrieval cell computes from a distance matrix with at least one
    reference row and one query column, [topN >= 1], the window length is
    at least 1 and every query file holds a tensor of the run's shape, the
    sequential driver returns a score array, the output stage returns one
    match per query, and every match is a reference index taken from the
    candidates of its query. *)
Theorem pipeline_bestMatch (g : Globals) (distMat : list (list Q))
        (topN fullRows fullCols cells numT : nat) (sched : nat -> list nat) :
  topMatches g = topMatches_of distMat topN ->
  numRefImgs g = length distMat ->
  numQueryImgs g = shape1 distMat ->
  0 < topN -> 0 < numRefImgs g -> 0 < numQueryImgs g ->
  length (queryFiles g) = numQueryImgs g ->
  Forall (fun q => well_shaped g q (fst (c5Shape g)) (snd (c5Shape g))
                               fullRows fullCols cells
                               (numFmaps g) (numRefImgs g))
         (queryFiles g) ->
  0 < numFmaps g ->
  mulFac_dep2c5 g = (axis_scale fullRows (fst (c5Shape g)),
                     axis_scale fullCols (snd (c5Shape g))) ->
  (1 <= seqL g)%Z ->
  exists fs bm,
    finalScores_after (run_drivers false numT sched) g = Some fs /\
    bestMatch_of (topMatches g) fs (numQueryImgs g) = Some bm /\
    length bm = numQueryImgs g /\
    forall q b, nth_error bm q = Some b ->
                b < numRefImgs g /\ In b (column 0 (topMatches g) q).
Proof.
  intros Htm HR HQ HN HR0 HQ0 Hfiles Hws Hnf Hmf HL.
  set (tm := topMatches g) in *. set (nq := numQueryImgs g) in *.
  set (nc := Nat.min topN (length distMat)).
  destruct (topMatches_of_shape distMat topN) as [Hlen [Hrows Hent]].
  rewrite <- Htm in Hlen, Hrows, Hent. fold nc in Hlen.
  rewrite <- HQ in Hrows. rewrite <- HR in Hent.
  assert (Hnc : 0 < nc) by (unfold nc; lia).
  assert (Hcol : forall q, q < nq ->
            omap (fun r => nth_error r q) tm = Some (column 0 tm q)).
  { intros q Hq. apply column_lookup. rewrite Forall_forall in Hrows.
    apply Forall_forall. intros r Hr. rewrite (Hrows r Hr). exact Hq. }
  assert (Hcand : forall q, q < nq ->
            Forall (fun r => r < numRefImgs g) (column 0 tm q)).
  { intros q Hq. apply Forall_forall. intros b Hb. unfold column in Hb.
    apply in_map_iff in Hb. destruct Hb as [r [<- Hr]].
    rewrite Forall_forall in Hent, Hrows.
    specialize (Hent r Hr). rewrite Forall_forall in Hent. apply Hent.
    apply nth_In. rewrite (Hrows r Hr). exact Hq. }
  set (score := fun q r =>
         table_score g (nth q (queryFiles g) []) (snd (c5Shape g))
           (mulFac_dep2c5 g) (depT g)
           (getRefSeqInfo (Z.of_nat r) (Z.of_nat (numRefImgs g)) (seqL g))
           (numFmaps g)).
  set (S := fun q => map (score q) (column 0 tm q)).
  assert (Hrun : forall q, In q (seq 0 nq) ->
            value_of (processQueryIndex q) g = Some (S q)).
  { intros q Hq. apply in_seq in Hq. unfold value_of.
    assert (Hfile : nth_error (queryFiles g) q
                    = Some (nth q (queryFiles g) []))
      by (apply nth_error_nth'; lia).
    rewrite (processQueryIndex_run g q (nth q (queryFiles g) [])
               (column 0 tm q) fullRows fullCols cells
               (Hcol q ltac:(lia)) Hfile Hnf).
    - reflexivity.
    - rewrite Forall_forall in Hws. apply Hws. apply nth_In. lia.
    - exact Hmf.
    - exact HL.
    - apply Hcand. lia. }
  set (fs := map S (seq 0 nq)).
  assert (Hfs : finalScores_after (run_drivers false numT sched) g = Some fs).
  { rewrite run_drivers_sequential. fold nq. now apply omap_total. }
  assert (Hfslen : length fs = nq)
    by (unfold fs; now rewrite length_map, length_seq).
  assert (Hfsrows : Forall (fun s => length s = nc) fs).
  { apply Forall_forall. intros s Hs. unfold fs in Hs.
    apply in_map_iff in Hs. destruct Hs as [q [<- _]].
    unfold S, column. now rewrite !length_map. }
  assert (Hne : fs <> []).
  { intros E. rewrite E in Hfslen. simpl in Hfslen. lia. }
  destruct (np_argmin_axis1_run fs nc Hne Hnc Hfsrows)
    as [am [Ham [Hamlen Hamq]]].
  rewrite Hfslen in Hamlen.
  assert (Hpick : exists bm,
            omap (fun pq => r <- nth_error tm (fst pq) ;;
                            nth_error r (snd pq))
                 (combine am (seq 0 nq)) = Some bm).
  { apply omap_defined. intros [p q] Hpq.
    apply In_nth_error in Hpq. destruct Hpq as [i Hi].
    apply nth_error_combine_seq in Hi. destruct Hi as [Hp [-> Hi]].
    assert (Hs : nth_error fs i = Some (nth i fs []))
      by (apply nth_error_nth'; lia).
    destruct (Hamq i _ Hs) as [p' [Hp' [_ Hspec]]].
    assert (p' = p) by congruence. subst p'.
    apply argmin_spec_bound in Hspec.
    rewrite Forall_forall in Hfsrows.
    rewrite (Hfsrows _ (nth_error_In _ _ Hs)) in Hspec.
    simpl. destruct (nth_error tm p) as [r|] eqn:Er;
      [|apply nth_error_None in Er; lia].
    simpl. rewrite Forall_forall in Hrows.
    pose proof (Hrows r (nth_error_In _ _ Er)) as Hr.
    destruct (nth_error r i) as [b|] eqn:Eb;
      [eauto|apply nth_error_None in Eb; lia]. }
  destruct Hpick as [bm Hbm].
  assert (Hbest : bestMatch_of tm fs nq = Some bm).
  { unfold bestMatch_of. rewrite Ham. simpl.
    now rewrite Hamlen, Nat.eqb_refl. }
  assert (Hbmlen : length bm = nq).
  { apply omap_length in Hbm.
    rewrite length_combine, length_seq, Hamlen in Hbm. lia. }
  exists fs, bm. repeat split; try assumption.
  - pose proof (bestMatch_of_In tm fs nq bm q b Hbest H) as Hin.
    assert (Hq : q < nq).
    { rewrite <- Hbmlen. apply nth_error_Some. congruence. }
    specialize (Hcand q Hq). rewrite Forall_forall in Hcand.
    now apply Hcand.
  - now apply (bestMatch_of_In tm fs nq bm q b Hbest).
Qed.

Lemma pipeline_bestMatch_witness :
  exists fs bm,
    finalScores_after (run_drivers false 4 (fun _ => [])) ex_globals = Some fs /\
    bestMatch_of (topMatches ex_globals) fs (numQueryImgs ex_globals)
      = Some bm /\
    length bm = numQueryImgs ex_globals /\
    forall q b, nth_error bm q = Some b ->
                b < numRefImgs ex_globals /\
                In b (column 0 (topMatches ex_globals) q).
Proof.
  apply (pipeline_bestMatch ex_globals [[2; 1]; [1; 3]; [3; 2]]%Q 2 2 2 2 4
           (fun _ => [])); try reflexivity; simpl; try lia.
  constructor; [|constructor; [|constructor]]; apply ex_well_shaped; auto.
Defined.

(* ------------------------------------------------------------------ *)
(** ** The driver cells: failure, shape of the result, re-execution *)

Lemma value_of_None {A} (m : M A) g : value_of m g = None <-> m g = None.
Proof.
  unfold value_of. destruct (m g) as [[a g']|]; split; congruence.
Qed.

(** X16: the sequential driver raises exactly when the processing of one
    of the queries raises; no partial result is then left to the output
    stage. *)
Theorem run_drivers_sequential_raises_iff (g : Globals) (numT : nat)
        (sched : nat -> list nat) :
  finalScores_after (run_drivers false numT sched) g = None <->
  exists q, q < numQueryImgs g /\ processQueryIndex q g = None.
Proof.
  rewrite run_drivers_sequential, omap_None.
  split; intros [q [Hq H]]; exists q.
  - apply in_seq in Hq. apply value_of_None in H. split; [lia|exact H].
  - split; [apply in_seq; lia|now apply value_of_None].
Qed.

Lemma forM_length {A B} (f : A -> M B) l g bs g' :
  forM l f g = Some (bs, g') -> length bs = length l.
Proof.
  revert g bs g'. induction l as [|a l IH]; intros g bs g' H; simpl in H.
  - unfold ret in H. injection H as <- _. reflexivity.
  - unfold bind in H. destruct (f a g) as [[b g1]|]; [|discriminate].
    destruct (forM l f g1) as [[bs' g2]|] eqn:E; [|discriminate].
    unfold ret in H. injection H as <- _. simpl. f_equal. eapply IH, E.
Qed.

Lemma processQueryIndex_length qIdx g s g' :
  processQueryIndex qIdx g = Some (s, g') ->
  length s = length (topMatches g).
Proof.
  unfold processQueryIndex, bind, gets, lift, matchData. intros H.
  destruct (omap (fun r => nth_error r qIdx) (topMatches g)) as [cands|] eqn:Ec;
    [|discriminate].
  destruct (nth_error (queryFiles g) qIdx) as [ft|]; [|discriminate].
  destruct (reshape_rows (numFmaps g) ft) as [q|]; [|discriminate].
  destruct (argmax_axis0 q) as [kp|]; [|discriminate].
  apply forM_length in H. apply omap_length in Ec. congruence.
Qed.

(** X17: when the drivers return (in parallel mode: with at least one
    worker and every batch completed in some order), the array
    [finalScores] has one row per query and one entry per row of the
    candidate array in every row. *)
Theorem run_drivers_finalScores_shape (mt : bool) (numT : nat)
        (sched : nat -> list nat) (g : Globals) (fs : list (list npfloat)) :
  0 < numT ->
  (forall j, j * numT < numQueryImgs g ->
             Permutation (sched (j * numT))
                         (seq 0 (Nat.min (j * numT + numT) (numQueryImgs g)
                                 - j * numT))) ->
  finalScores_after (run_drivers mt numT sched) g = Some fs ->
  length fs = numQueryImgs g /\
  Forall (fun s => length s = length (topMatches g)) fs.
Proof.
  intros HT Hsched H.
  assert (Hfs : omap (fun q => value_of (processQueryIndex q) g)
                     (seq 0 (numQueryImgs g)) = Some fs).
  { destruct mt.
    - rewrite (run_drivers_parallel g numT sched HT Hsched) in H.
      destruct (omap _ (seq 0 (numQueryImgs g))) as [fs'|]; [|discriminate].
      destruct (numQueryImgs g =? 0); [discriminate|exact H].
    - now rewrite run_drivers_sequential in H. }
  split.
  - apply omap_length in Hfs. now rewrite length_seq in Hfs.
  - apply Forall_forall. intros s Hs.
    destruct (In_nth_error _ _ Hs) as [q Hq].
    assert (Hlt : q < numQueryImgs g).
    { apply omap_length in Hfs. rewrite length_seq in Hfs.
      rewrite <- Hfs. apply nth_error_Some. congruence. }
    assert (Hsq : nth_error (seq 0 (numQueryImgs g)) q = Some q).
    { rewrite (nth_error_nth' _ 0) by (rewrite length_seq; lia).
      now rewrite seq_nth. }
    destruct (omap_nth_error _ _ _ _ _ Hfs Hsq) as [s' [Hv Hn]].
    assert (s' = s) by congruence. subst s'.
    unfold value_of in Hv.
    destruct (processQueryIndex q g) as [[s' g']|] eqn:E; [|discriminate].
    injection Hv as ->. eapply processQueryIndex_length, E.
Qed.

Lemma run_drivers_finalScores_shape_witness :
  exists fs,
    finalScores_after (run_drivers true 4 (fun _ => [1; 0])) ex_globals
      = Some fs /\
    length fs = numQueryImgs ex_globals /\
    Forall (fun s => length s = length (topMatches ex_globals)) fs.
Proof.
  assert (HT : 0 < 4) by lia.
  assert (Hsched : forall j, j * 4 < numQueryImgs ex_globals ->
            Permutation ((fun _ : nat => [1; 0]) (j * 4))
              (seq 0 (Nat.min (j * 4 + 4) (numQueryImgs ex_globals) - j * 4))).
  { intros j Hj. simpl in Hj. assert (j = 0) by lia. subst j.
    simpl. apply perm_swap. }
  destruct (ex_processQueryIndex 0 ltac:(lia)) as [s0 H0].
  destruct (ex_processQueryIndex 1 ltac:(lia)) as [s1 H1].
  assert (Hrun : finalScores_after (run_drivers true 4 (fun _ => [1; 0]))
                                   ex_globals = Some [s0; s1]).
  { rewrite (run_drivers_parallel ex_globals 4 _ HT Hsched).
    change (numQueryImgs ex_globals) with 2. cbn [seq omap].
    unfold value_of. rewrite H0, H1. reflexivity. }
  exists [s0; s1]. split; [exact Hrun|].
  exact (run_drivers_finalScores_shape true 4 (fun _ => [1; 0]) ex_globals
           [s0; s1] HT Hsched Hrun).
Defined.

(** X18: the batches of the parallel driver ([range(0, n, numT)] and
    [range(i, min(i + numT, n))]) are non-empty, hold at most [numT]
    queries each and, one after the other, list every query index once,
    in order. *)
Theorem range_step_batches (n numT : nat) (starts : list nat) :
  range_step n numT = Some starts ->
  concat (map (fun i => seq i (Nat.min (i + numT) n - i)) starts) = seq 0 n /\
  Forall (fun i => 0 < Nat.min (i + numT) n - i <= numT) starts.
Proof.
  unfold range_step. destruct (Nat.eqb_spec numT 0) as [E|E]; [discriminate|].
  intros H. injection H as <-.
  set (m := (n + numT - 1) / numT).
  pose proof (range_step_covers n numT ltac:(lia)) as Hcov. fold m in Hcov.
  split.
  - rewrite concat_batches. f_equal. lia.
  - apply Forall_forall. intros i Hi. apply in_map_iff in Hi.
    destruct Hi as [j [<- Hj]]. apply in_seq in Hj.
    pose proof (Nat.Div0.mul_div_le (n + numT - 1) numT) as Hle.
    fold m in Hle. nia.
Qed.

Lemma range_step_batches_witness :
  concat (map (fun i => seq i (Nat.min (i + 4) 10 - i)) [0; 4; 8]) = seq 0 10 /\
  Forall (fun i => 0 < Nat.min (i + 4) 10 - i <= 4) [0; 4; 8].
Proof.
  apply (range_step_batches 10 4 [0; 4; 8]). reflexivity.
Defined.

Lemma keeps_inputs_run_drivers mt numT sched :
  keeps_inputs (run_drivers mt numT sched).
Proof.
  unfold run_drivers, cell_sequential, cell_multithreading.
  apply keeps_bind.
  - apply keeps_bind; [apply (keeps_set_finalScores (fun _ => []))|].
    intros _. destruct mt; simpl.
    + apply keeps_of_readonly, readonly_ret.
    + apply keeps_bind; [apply keeps_of_readonly, readonly_gets|].
      intros n. apply keeps_forM_. intros i.
      apply keeps_bind;
        [apply keeps_of_readonly, readonly_processQueryIndex|].
      intros s.
      apply (keeps_set_finalScores (fun g0 => finalScores g0 ++ [s])).
  - intros _. destruct mt; [|apply keeps_of_readonly, readonly_ret].
    apply keeps_bind; [apply (keeps_set_scores (fun _ => []))|]. intros _.
    apply keeps_bind; [apply keeps_of_readonly, readonly_gets|]. intros n.
    apply keeps_bind; [apply keeps_of_readonly, readonly_lift|].
    intros starts.
    apply keeps_bind.
    + apply keeps_forM_. intros i.
      apply keeps_bind.
      * apply keeps_of_readonly, readonly_pool_map.
        apply readonly_processQueryIndex.
      * intros s. apply (keeps_set_scores (fun g0 => scores g0 ++ [s])).
    + intros _.
      apply keeps_bind; [apply keeps_of_readonly, readonly_gets|]. intros sc.
      apply keeps_bind; [apply keeps_of_readonly, readonly_lift|]. intros fs.
      apply (keeps_set_finalScores (fun _ => fs)).
Qed.

Lemma same_inputs_numQueryImgs g1 g2 :
  same_inputs g1 g2 -> numQueryImgs g1 = numQueryImgs g2.
Proof.
  intros H. unfold same_inputs in H.
  change (numQueryImgs (set_scores [] (set_finalScores [] g1)) =
          numQueryImgs (set_scores [] (set_finalScores [] g2))).
  now rewrite H.
Qed.

(** What the parallel driver leaves in [finalScores], for any completion
    orders: the concatenation of the batches that [pool.map] returns. *)
Lemma run_drivers_parallel_batches g numT sched :
  finalScores_after (run_drivers true numT sched) g =
  match range_step (numQueryImgs g) numT with
  | Some starts =>
      match omap (fun i =>
                    value_of (pool_map processQueryIndex
                                (seq i (Nat.min (i + numT) (numQueryImgs g) - i))
                                (sched i)) g) starts with
      | Some bss => np_concatenate bss
      | None => None
      end
  | None => None
  end.
Proof.
  set (n := numQueryImgs g).
  set (g1 := set_scores [] (set_finalScores [] g)).
  assert (Hg1 : same_inputs g1 g) by reflexivity.
  set (F := fun i => pool_map processQueryIndex
                              (seq i (Nat.min (i + numT) n - i)) (sched i)).
  assert (HFr : forall i, readonly (F i)).
  { intros i. apply readonly_pool_map. apply readonly_processQueryIndex. }
  assert (HFd : forall i, input_determined (F i)).
  { intros i. apply determined_pool_map;
      [apply readonly_processQueryIndex|apply determined_processQueryIndex]. }
  unfold finalScores_after, run_drivers, cell_sequential, cell_multithreading.
  unfold bind at 1. unfold bind at 1. unfold modify at 1.
  change (negb true) with false. cbv iota.
  unfold ret at 1. unfold bind at 1. unfold modify at 1.
  unfold bind at 1. unfold gets at 1.
  change (numQueryImgs (set_scores [] (set_finalScores [] g))) with n.
  unfold bind at 1. unfold lift at 1.
  destruct (range_step n numT) as [starts|]; [|reflexivity].
  unfold bind at 1. fold g1.
  change (fun i => bind (pool_map processQueryIndex
                                  (seq i (Nat.min (i + numT) n - i)) (sched i))
                        (fun s => modify (fun g0 => set_scores (scores g0 ++ [s]) g0)))
    with (fun i => bind (F i)
                        (fun s => modify (fun g0 => set_scores (scores g0 ++ [s]) g0))).
  rewrite (append_scores_loop F starts g1 HFr HFd).
  rewrite (omap_value_same_inputs F starts g1 g HFd Hg1).
  change (fun i => value_of (pool_map processQueryIndex
                               (seq i (Nat.min (i + numT) n - i)) (sched i)) g)
    with (fun a => value_of (F a) g).
  destruct (omap (fun a => value_of (F a) g) starts) as [bss|]; [|reflexivity].
  unfold bind, gets, lift, modify. simpl scores.
  destruct bss; reflexivity.
Qed.

(** The lists left behind by an earlier execution do not influence the
    result of the driver cells. *)
Lemma run_drivers_determined mt numT sched g1 g2 :
  same_inputs g1 g2 ->
  finalScores_after (run_drivers mt numT sched) g1 =
  finalScores_after (run_drivers mt numT sched) g2.
Proof.
  intros H. pose proof (same_inputs_numQueryImgs g1 g2 H) as Hn.
  destruct mt.
  - rewrite !run_drivers_parallel_batches, Hn.
    destruct (range_step (numQueryImgs g2) numT) as [starts|]; [|reflexivity].
    rewrite (omap_value_same_inputs
               (fun i => pool_map processQueryIndex
                           (seq i (Nat.min (i + numT) (numQueryImgs g2) - i))
                           (sched i)) starts g1 g2); [reflexivity| |exact H].
    intros i. apply determined_pool_map;
      [apply readonly_processQueryIndex|apply determined_processQueryIndex].
  - rewrite !run_drivers_sequential, Hn.
    apply omap_value_same_inputs; [apply determined_processQueryIndex|exact H].
Qed.

(** X19: executing the driver cells a second time, in either mode, ends
    with the same [finalScores] as executing them once: the lists of the
    first execution are reset and never read. *)
Theorem run_drivers_idempotent (mt : bool) (numT : nat)
        (sched : nat -> list nat) (g : Globals) :
  finalScores_after (_ <-- run_drivers mt numT sched ;;;
                     run_drivers mt numT sched) g =
  finalScores_after (run_drivers mt numT sched) g.
Proof.
  unfold finalScores_after at 1. unfold bind.
  destruct (run_drivers mt numT sched g) as [[u g1]|] eqn:E.
  - pose proof (keeps_inputs_run_drivers mt numT sched g u g1 E) as Hs.
    pose proof (run_drivers_determined mt numT sched g1 g Hs) as Hd.
    unfold finalScores_after in Hd. rewrite E in Hd.
    unfold finalScores_after. rewrite E. rewrite <- Hd.
    destruct (run_drivers mt numT sched g1) as [[u' g2]|]; reflexivity.
  - unfold finalScores_after. now rewrite E.
Qed.

(* ------------------------------------------------------------------ *)
(** ** Loading the dense tensors from their files

    A directory of [.npz] files is a list of pairs of a path and the array
    stored there under the key ['arr_0']; [np.load] of a path that is not
    in the list raises. *)

Module Files.

Import Stdlib.Strings.Ascii Stdlib.Strings.String.
Local Open Scope string_scope.

Fixpoint zero_pad (k : nat) (d : Decimal.uint) : Decimal.uint :=
  match k with
  | 0 => d
  | S k' => Decimal.D0 (zero_pad k' d)
  end.

(** The format [{0:07d}] of an index: its decimal digits, with zeros in
    front up to a width of seven. *)
Definition format_07d (idx : nat) : string :=
  let d := Nat.to_uint idx in
  DecimalString.NilEmpty.string_of_uint (zero_pad (7 - Decimal.nb_digits d) d).

Fixpoint ends_with_sep (a : string) : bool :=
  match a with
  | EmptyString => true
  | String c EmptyString => Ascii.eqb c "/"%char
  | String _ a' => ends_with_sep a'
  end.

(** [os.path.join(a, b)] for a [b] that does not start with a separator:
    a separator is put in between unless [a] is empty or ends with one. *)
Definition path_join (a b : string) : string :=
  if ends_with_sep a then a ++ b else a ++ "/" ++ b.

Definition c5_path (inPath : string) (idx : nat) : string :=
  path_join inPath (format_07d idx ++ ".npz").

(** [np.load(path)['arr_0']]. *)
Fixpoint np_load (files : list (string * tensor)) (path : string)
  : option tensor :=
  match files with
  | [] => None
  | (p, a) :: rest => if String.eqb path p then Some a else np_load rest path
  end.

Definition loadC5Tensor (files : list (string * tensor)) (inPath : string)
           (idx : nat) : option tensor :=
  np_load files (c5_path inPath idx).

(** [[loadC5Tensor(inPath, i1) for i1 in range(n)]]. *)
Definition load_all (files : list (string * tensor)) (inPath : string)
           (n : nat) : option (list tensor) :=
  omap (loadC5Tensor files inPath) (seq 0 n).

(** The directory in which tensor [i] of [ts] was saved under the path of
    index [i]. *)
Definition stored (inPath : string) (ts : list tensor)
  : list (string * tensor) :=
  combine (map (c5_path inPath) (seq 0 (List.length ts))) ts.

Example ex_format_07d : format_07d 42 = "0000042".
Proof. reflexivity. Qed.

Example ex_c5_path :
  c5_path "../precomputed/kpDesc_C5Tensor/5-s/" 813 =
  "../precomputed/kpDesc_C5Tensor/5-s/0000813.npz".
Proof. reflexivity. Qed.

Example ex_c5_path_sep : c5_path "dir" 5 = "dir/0000005.npz".
Proof. reflexivity. Qed.

Lemma length_append s1 s2 : length (s1 ++ s2) = length s1 + length s2.
Proof. induction s1 as [|c s1 IH]; simpl; [reflexivity|now rewrite IH]. Qed.

Lemma append_inj_r p s1 s2 : p ++ s1 = p ++ s2 -> s1 = s2.
Proof.
  induction p as [|c p IH]; simpl; intros H; [exact H|].
  injection H as H. now apply IH.
Qed.

Lemma append_inj_l s1 s2 t : s1 ++ t = s2 ++ t -> s1 = s2.
Proof.
  revert s2. induction s1 as [|c s1 IH]; intros [|c' s2] H; simpl in H.
  - reflexivity.
  - apply (f_equal length) in H. simpl in H. rewrite length_append in H. lia.
  - apply (f_equal length) in H. simpl in H. rewrite length_append in H. lia.
  - injection H as -> H. f_equal. now apply IH.
Qed.

Lemma of_uint_zero_pad k d : Nat.of_uint (zero_pad k d) = Nat.of_uint d.
Proof. induction k as [|k IH]; simpl; [reflexivity|exact IH]. Qed.

Lemma format_07d_inj i j : format_07d i = format_07d j -> i = j.
Proof.
  unfold format_07d. intros H.
  apply (f_equal DecimalString.NilEmpty.uint_of_string) in H.
  rewrite !DecimalString.NilEmpty.usu in H. injection H as H.
  apply (f_equal Nat.of_uint) in H.
  now rewrite !of_uint_zero_pad, !DecimalNat.Unsigned.of_to in H.
Qed.

Lemma c5_path_inj inPath i j : c5_path inPath i = c5_path inPath j -> i = j.
Proof.
  unfold c5_path, path_join. intros H. apply format_07d_inj.
  destruct (ends_with_sep inPath).
  - apply append_inj_r in H. now apply append_inj_l in H.
  - apply append_inj_r in H. apply append_inj_r in H.
    now apply append_inj_l in H.
Qed.

Lemma np_load_stored inPath (ts : list tensor) s i :
  s <= i ->
  np_load (combine (map (c5_path inPath) (seq s (List.length ts))) ts)
          (c5_path inPath i) = nth_error ts (i - s).
Proof.
  revert s. induction ts as [|t ts IH]; intros s Hs; simpl.
  - now destruct (i - s).
  - destruct (String.eqb_spec (c5_path inPath i) (c5_path inPath s)) as [E|E].
    + apply c5_path_inj in E. subst s. now rewrite Nat.sub_diag.
    + assert (s < i).
      { destruct (Nat.eq_dec s i) as [->|]; [congruence|lia]. }
      rewrite IH by lia. replace (i - s) with (S (i - S s)) by lia.
      reflexivity.
Qed.

End Files.

Lemma omap_nth_error_seq {A} (l : list A) :
  omap (nth_error l) (seq 0 (length l)) = Some l.
Proof.
  induction l as [|a l IH]; [reflexivity|].
  cbn [length seq omap nth_error]. rewrite <- seq_shift, omap_map.
  change (fun a0 => nth_error (a :: l) (S a0)) with (nth_error l).
  now rewrite IH.
Qed.

(** X20: two different indices are never loaded from the same file: the
    paths that [loadC5Tensor] builds for them differ. *)
Theorem loadC5Tensor_distinct_paths (inPath : String.string) (i j : nat) :
  i <> j -> Files.c5_path inPath i <> Files.c5_path inPath j.
Proof.
  intros Hne H. apply Hne. eapply Files.c5_path_inj. exact H.
Qed.

Lemma loadC5Tensor_distinct_paths_witness :
  Files.c5_path String.EmptyString 1 <> Files.c5_path String.EmptyString 10.
Proof.
  apply (loadC5Tensor_distinct_paths String.EmptyString 1 10). discriminate.
Defined.

(** X21: loading gives back what was saved: from a directory in which
    tensor [i] was saved under the path of index [i], the loading loop
    over [range(n)] returns the [n] tensors in order, and loading an index
    beyond them raises. *)
Theorem loadC5Tensor_round_trip (inPath : String.string) (ts : list tensor) :
  Files.load_all (Files.stored inPath ts) inPath (length ts) = Some ts /\
  (forall i, i < length ts ->
             Files.loadC5Tensor (Files.stored inPath ts) inPath i
             = nth_error ts i) /\
  (forall i, length ts <= i ->
             Files.loadC5Tensor (Files.stored inPath ts) inPath i = None).
Proof.
  assert (H : forall i, Files.loadC5Tensor (Files.stored inPath ts) inPath i
                        = nth_error ts i).
  { intros i. unfold Files.loadC5Tensor, Files.stored.
    rewrite (Files.np_load_stored inPath ts 0 i) by lia.
    now rewrite Nat.sub_0_r. }
  split; [|split].
  - unfold Files.load_all.
    rewrite (omap_ext _ (nth_error ts)) by (intros i _; apply H).
    apply omap_nth_error_seq.
  - intros i _. apply H.
  - intros i Hi. rewrite H. now apply nth_error_None.
Qed.

(* ------------------------------------------------------------------ *)
(** ** One query: the reshape and the missing inputs *)

Lemma chunk_spec (k n : nat) (l : list Q) :
  length l = k * n ->
  concat (chunk k n l) = l /\
  Forall (fun r => length r = n) (chunk k n l) /\
  length (chunk k n l) = k.
Proof.
  revert l. induction k as [|k IH]; intros l H; simpl.
  - destruct l; [|discriminate]. repeat split. constructor.
  - destruct (IH (skipn n l)) as [Hc [Hf Hl]].
    { rewrite length_skipn. simpl in H. lia. }
    rewrite Hc, firstn_skipn, Hl. repeat split.
    constructor; [|exact Hf]. rewrite length_firstn. simpl in H. lia.
Qed.

(** X22: the reshape of the query tensor to [numFmaps] columns keeps
    every value, in row-major order, in rows of exactly [numFmaps]
    entries; it raises exactly when [numFmaps] is zero or does not divide
    the number of values. *)
Theorem reshape_rows_spec (n : nat) (a : tensor) :
  (reshape_rows n a = None <-> n = 0 \/ length (concat a) mod n <> 0) /\
  (forall t, reshape_rows n a = Some t ->
             concat t = concat a /\
             Forall (fun r => length r = n) t /\
             length t * n = length (concat a)).
Proof.
  unfold reshape_rows.
  destruct (Nat.eqb_spec n 0) as [E|E].
  - split; [split; [now left|reflexivity]|discriminate].
  - destruct (Nat.eqb_spec (length (concat a) mod n) 0) as [E'|E'].
    + split; [split; [discriminate|intros [?|?]; contradiction]|].
      intros t H. injection H as <-.
      assert (Hlen : length (concat a) = length (concat a) / n * n).
      { pose proof (Nat.div_mod_eq (length (concat a)) n). lia. }
      destruct (chunk_spec _ n (concat a) Hlen) as [Hc [Hf Hl]].
      rewrite Hl. repeat split; [exact Hc|exact Hf|lia].
    + split; [split; [now right|reflexivity]|discriminate].
Qed.

(** X23: [processQueryIndex] raises when there is no file for the query
    index, and when a row of the candidate array has no column for it. *)
Theorem processQueryIndex_missing (g : Globals) (qIdx : nat) :
  length (queryFiles g) <= qIdx \/
  (exists r, In r (topMatches g) /\ length r <= qIdx) ->
  processQueryIndex qIdx g = None.
Proof.
  intros H. unfold processQueryIndex, bind, gets, lift.
  destruct (omap (fun r => nth_error r qIdx) (topMatches g)) as [cands|] eqn:Ec;
    [|reflexivity].
  destruct H as [H|[r [Hr H]]].
  - apply nth_error_None in H. now rewrite H.
  - assert (Hex : exists r, In r (topMatches g) /\ nth_error r qIdx = None).
    { exists r. split; [exact Hr|now apply nth_error_None]. }
    apply omap_None in Hex. congruence.
Qed.

Lemma processQueryIndex_missing_witness :
  processQueryIndex 2 ex_globals = None.
Proof.
  apply (processQueryIndex_missing ex_globals 2). left. simpl. lia.
Defined.

(* ------------------------------------------------------------------ *)
(** ** Degenerate threshold and degenerate score arrays *)

(** X24: with a depth threshold of zero or less no keypoint passes the
    filter, and every score of [matchData] is NaN. *)
Theorem matchData_nonpositive_threshold
        (g : Globals) (q : tensor)
        (gridRows gridCols fullRows fullCols cells C numRef nf : nat)
        (depThresh : Q) (seqLen : Z) (cands : list nat) :
  well_shaped g q gridRows gridCols fullRows fullCols cells C numRef ->
  (1 <= seqLen)%Z ->
  Forall (fun r => r < numRef) cands ->
  (depThresh <= 0)%Q ->
  matchData q cands (gridRows, gridCols)
            (axis_scale fullRows gridRows, axis_scale fullCols gridCols)
            numRef nf seqLen depThresh g =
  Some (map (fun _ => NaN) cands, g).
Proof.
  intros WS HL Hc HT.
  rewrite (matchData_run g q gridRows gridCols fullRows fullCols cells C
             numRef depThresh WS cands nf seqLen).
  - do 2 f_equal. apply map_ext_in. intros r Hr.
    apply table_score_empty.
    { rewrite Forall_forall in Hc.
      apply window_nonempty; [now apply Hc|exact HL]. }
    intros k c _ _. unfold passes.
    apply andb_false_iff.
    destruct (Qltb 0 _) eqn:E0; [left|now right].
    apply Qltb_lt in E0.
    destruct (Qltb _ depThresh) eqn:E1; [|reflexivity].
    apply Qltb_lt in E1. exfalso.
    apply (Qlt_irrefl 0). eapply Qlt_le_trans; [|exact HT].
    eapply Qlt_trans; eassumption.
  - intros r Hr Hnil. rewrite Forall_forall in Hc. specialize (Hc r Hr).
    pose proof (getRefSeqInfo_center (Z.of_nat r) (Z.of_nat numRef) seqLen
                  ltac:(lia) HL) as Hi.
    rewrite Hnil in Hi. exact Hi.
Qed.

Lemma matchData_nonpositive_threshold_witness :
  matchData ex_q0 [1; 0] (1, 2) (axis_scale 2 1, axis_scale 2 2) 3 2 1 0%Q
            ex_globals = Some ([NaN; NaN], ex_globals).
Proof.
  apply (matchData_nonpositive_threshold ex_globals ex_q0 1 2 2 2 2 2 3 2
           0%Q 1%Z [1; 0] (ex_well_shaped ex_q0 (or_introl eq_refl))).
  - lia.
  - repeat constructor.
  - discriminate.
Defined.

(** X25: the output stage raises on a score array without rows and on
    one with a row without entries: [np.argmin] has nothing to select
    from. *)
Theorem bestMatch_of_raises (topMatches_ : list (list nat))
        (finalScores_ : list (list npfloat)) (nq : nat) :
  finalScores_ = [] \/ In [] finalScores_ ->
  bestMatch_of topMatches_ finalScores_ nq = None.
Proof.
  intros H. unfold bestMatch_of.
  assert (Ham : np_argmin_axis1 finalScores_ = None).
  { unfold np_argmin_axis1. destruct finalScores_ as [|r m]; [reflexivity|].
    destruct H as [H|H]; [discriminate|].
    destruct (forallb _ (r :: m)); [|reflexivity].
    apply omap_None. exists []. split; [exact H|reflexivity]. }
  now rewrite Ham.
Qed.

Lemma bestMatch_of_raises_witness :
  bestMatch_of [[1; 0]; [0; 2]] [[Fin 0; NaN]; []] 2 = None.
Proof.
  apply (bestMatch_of_raises [[1; 0]; [0; 2]] [[Fin 0; NaN]; []] 2).
  right. right. now left.
Defined.

(* ------------------------------------------------------------------ *)
(** ** When the re-ranking falls back on the baseline *)

Lemma omap_nth_error_inv {A B} (f : A -> option B) l bs i b :
  omap f l = Some bs -> nth_error bs i = Some b ->
  exists a, nth_error l i = Some a /\ f a = Some b.
Proof.
  intros H Hb.
  assert (Hi : i < length l).
  { rewrite <- (omap_length f l bs H). apply nth_error_Some. congruence. }
  destruct (nth_error l i) as [a|] eqn:Ea;
    [|apply nth_error_None in Ea; lia].
  destruct (omap_nth_error f l bs i a H Ea) as [b' [Hf Hb']].
  exists a. split; [reflexivity|congruence].
Qed.

(** X27: when every score row has a single entry (one candidate per
    query) or starts with NaN (the first candidate has no valid score),
    [np.argmin] selects position 0 in every row and the re-ranked match of
    every query is its baseline match [topMatches[0, q]]. *)
Theorem bestMatch_of_baseline (topMatches_ : list (list nat))
        (finalScores_ : list (list npfloat)) (nq : nat)
        (bestMatch : list nat) :
  Forall (fun s => length s = 1 \/ exists t, s = NaN :: t) finalScores_ ->
  bestMatch_of topMatches_ finalScores_ nq = Some bestMatch ->
  forall q b, nth_error bestMatch q = Some b ->
              exists r0, nth_error topMatches_ 0 = Some r0 /\
                         nth_error r0 q = Some b.
Proof.
  intros Hrows H q b Hb. unfold bestMatch_of in H.
  destruct (np_argmin_axis1 finalScores_) as [am|] eqn:Ea; [|discriminate].
  simpl in H. destruct (length am =? nq); [|discriminate].
  destruct (omap_nth_error_inv _ _ _ _ _ H Hb) as [[p j] [Hpq Hl]].
  apply nth_error_combine_seq in Hpq. destruct Hpq as [Hp [-> _]].
  assert (Hp0 : p = 0).
  { unfold np_argmin_axis1 in Ea.
    destruct finalScores_ as [|r m]; [discriminate|].
    destruct (forallb _ (r :: m)); [|discriminate].
    destruct (omap_nth_error_inv _ _ _ _ _ Ea Hp) as [s [Hs Hmin]].
    rewrite Forall_forall in Hrows.
    destruct (Hrows s (nth_error_In _ _ Hs)) as [Hlen|[t ->]].
    - destruct s as [|x [|y s]]; try discriminate.
      simpl in Hmin. congruence.
    - destruct t; simpl in Hmin; congruence. }
  subst p. cbn [fst snd] in Hl.
  destruct (nth_error topMatches_ 0) as [r0|]; [|discriminate Hl].
  exists r0. split; [reflexivity|exact Hl].
Qed.

Lemma bestMatch_of_baseline_witness :
  bestMatch_of [[1; 0]; [0; 2]] [[NaN; Fin 0]; [NaN; Fin 1]] 2
    = Some [1; 0] /\
  (forall q b, nth_error [1; 0] q = Some b ->
               exists r0, nth_error [[1; 0]; [0; 2]] 0 = Some r0 /\
                          nth_error r0 q = Some b).
Proof.
  split; [reflexivity|].
  apply (bestMatch_of_baseline [[1; 0]; [0; 2]]
           [[NaN; Fin 0]; [NaN; Fin 1]] 2 [1; 0]).
  - constructor; [right; eauto|]. constructor; [right; eauto|constructor].
  - reflexivity.
Defined.
